(** * linear-notion-sync: the sync engine of [sync-linear-to-notion.js]

    A shallow embedding of the script that mirrors Linear issues into a
    Notion database, and the properties of its field mapper, schema
    registry, upsert coordinator and driver loop.

    Conventions of the embedding.
    - A JavaScript string is a [string]: a sequence of code units below 256
      (the Latin-1 range of UTF-16).  [trim] and [toLowerCase] are the
      restrictions of the JavaScript methods to that range.
    - A JavaScript number is an integer [Z]; [String(n)] is its decimal
      notation ([pretty]).
    - Asynchronous code is sequential here: every [await] is a step of a
      state-and-exception monad over [world], the module-level variables of
      the script together with the Notion service.
    - Time is the [clock] of the world, in milliseconds since the epoch: it
      starts at the instant the run starts and moves only in the pauses
      ([sleep]); the calls themselves take no time.  [new Date()] reads it.
    - The Notion service answers as its interface contract says ([serve]);
      a finite [script] of replies forces failures (429, 5xx, ..) on the
      calls to come.  The Linear service is the list of its replies to the
      page requests; the cursor and the look-back window only select what
      it answers and are not represented. *)

From stdpp Require Import base decidable option list strings pretty gmap.
From Stdlib Require Import ZArith Lia Ascii String.

Local Open Scope string_scope.
Local Open Scope nat_scope.

(** ** JavaScript strings *)

Module JsString.

(** WhiteSpace and LineTerminator code units below 256: TAB, LF, VT, FF,
    CR, SP and NBSP. *)
Definition is_white (c : ascii) : bool :=
  let n := N_of_ascii c in
  ((9 <=? n) && (n <=? 13) || (n =? 32) || (n =? 160))%N.

(** [String.prototype.toLowerCase] on one code unit: A-Z, and the Latin-1
    capitals U+00C0..U+00DE except the multiplication sign U+00D7. *)
Definition lower_char (c : ascii) : ascii :=
  let n := N_of_ascii c in
  if ((65 <=? n) && (n <=? 90)
      || (192 <=? n) && (n <=? 222) && negb (n =? 215))%N
  then ascii_of_N (n + 32) else c.

Fixpoint toLowerCase (s : string) : string :=
  match s with
  | EmptyString => EmptyString
  | String c r => String (lower_char c) (toLowerCase r)
  end.

Fixpoint trimStart (s : string) : string :=
  match s with
  | EmptyString => EmptyString
  | String c r => if is_white c then trimStart r else s
  end.

Fixpoint trimEnd (s : string) : string :=
  match s with
  | EmptyString => EmptyString
  | String c r =>
      match trimEnd r with
      | EmptyString => if is_white c then EmptyString else String c EmptyString
      | r' => String c r'
      end
  end.

Definition trim (s : string) : string := trimEnd (trimStart s).

(** [s.length ? .. : ..] and the truthiness of a string. *)
Definition nonempty (s : string) : bool :=
  match s with EmptyString => false | _ => true end.

Fixpoint take_chars (n : nat) (s : string) : string :=
  match n, s with
  | S n', String c r => String c (take_chars n' r)
  | _, _ => EmptyString
  end.

Fixpoint drop_chars (n : nat) (s : string) : string :=
  match n, s with
  | S n', String _ r => drop_chars n' r
  | _, _ => s
  end.

(** [s.slice(i, j)] for [0 <= i <= j]; both ends are clamped to the
    length, as in JavaScript. *)
Definition slice (i j : nat) (s : string) : string :=
  take_chars (j - i) (drop_chars i s).

(** [a === b] after [toLowerCase] on both sides. *)
Definition eq_nocase (a b : string) : bool :=
  bool_decide (toLowerCase a = toLowerCase b).

End JsString.

Import JsString.

(** ** JavaScript values read from the feed *)

(** The values the mapper inspects with [== null] and [typeof].  An object
    is represented by what the code reads of it, its [name] property when
    that is a string; an array by its elements. *)
#[warnings="-register-all"] Inductive value : Type :=
  | VUndefined
  | VNull
  | VBool (b : bool)
  | VNum (n : Z)
  | VStr (s : string)
  | VObj (name : option string)
  | VArr (elems : list value).

(** A possibly-null string result; [None] is [null]. *)
Definition truthy (o : option string) : bool :=
  match o with Some s => nonempty s | None => false end.

(** [x || null] on a string. *)
Definition or_null (s : string) : option string :=
  if nonempty s then Some s else None.

(** [parts.join(sep)] *)
Fixpoint join_with (sep : string) (parts : list string) : string :=
  match parts with
  | [] => ""
  | [part] => part
  | part :: rest => part +:+ sep +:+ join_with sep rest
  end.

(** The template-literal conversion [`${v}`].  An array prints as
    [v.join(",")]: its elements in order, [null] and [undefined] among them
    as the empty text. *)
Fixpoint to_text (v : value) : string :=
  match v with
  | VUndefined => "undefined"
  | VNull => "null"
  | VBool true => "true"
  | VBool false => "false"
  | VNum n => pretty n
  | VStr s => s
  | VObj _ => "[object Object]"
  | VArr elems =>
      join_with ","
        (List.map (λ e, match e with
                        | VUndefined | VNull => ""
                        | _ => to_text e
                        end) elems)
  end.

(** ** Field mapper: normalization helpers (source lines 15-50) *)

Definition normalizeOptionName (v : value) : option string :=
  match v with
  | VUndefined | VNull => None
  | VStr s => let s' := trim s in if nonempty s' then Some s' else None
  | VNum n => Some (pretty n)
  | VObj (Some nm) => if nonempty (trim nm) then Some (trim nm) else None
  | VObj None => None
  | VBool _ => None
  | VArr _ => None
  end.

(** The literal [{5: .., 4: .., 3: .., 2: .., 1: .., 0: ..}] indexed by a
    number. *)
Definition priority_map (n : Z) : option string :=
  if bool_decide (n = 5%Z) then Some "Very Low"
  else if bool_decide (n = 4%Z) then Some "Low"
  else if bool_decide (n = 3%Z) then Some "Medium"
  else if bool_decide (n = 2%Z) then Some "High"
  else if bool_decide (n = 1%Z) then Some "Urgent"
  else if bool_decide (n = 0%Z) then Some "None"
  else None.

Definition mapPriorityToText (p : value) : option string :=
  match p with
  | VUndefined | VNull => None
  | VStr s => or_null (trim s)
  | VNum n => Some (default (pretty n) (priority_map n))
  | _ => None
  end.

(** A rich-text run [{ type: "text", text: { content } }]. *)
Record rich_text : Type := Text { content : string }.

Definition MAX : nat := 1900.

(** The loop [for (let i = 0; i < s.length; i += MAX)].  [fuel] bounds the
    number of iterations; [String.length s] is always enough because [i]
    grows by [MAX] each time. *)
Fixpoint chunks_from (fuel : nat) (s : string) (i : nat) : list rich_text :=
  match fuel with
  | O => []
  | S fuel' =>
      if (i <? String.length s)%nat
      then Text (slice i (i + MAX) s) :: chunks_from fuel' s (i + MAX)
      else []
  end.

Definition toRichTextArray (str : string) : list rich_text :=
  if nonempty str then chunks_from (String.length str) str 0 else [].

(** ** Field mapper: label categories (source lines 266-278) *)

Definition MODULE_LABELS : list string := ["Planning"; "Procurement"; "Post-bunkering"].
Definition SUBAREA_LABELS : list string := ["Planning"; "Lab"; "Approval"].
Definition TYPE_LABELS : list string := ["Features"; "Bug"; "Chore"].

(** [cands.some(c => c.toLowerCase() === String(l).toLowerCase())] *)
Definition some_nocase (cands : list string) (l : string) : bool :=
  existsb (fun c => eq_nocase c l) cands.

(** [labels.find(l => cands.some(..))]; [None] is [undefined]. *)
Definition pickFirst (labels cands : list string) : option string :=
  List.find (some_nocase cands) labels.

(** [labels.includes("Features")], a strict (case-sensitive) comparison. *)
Definition includes (labels : list string) (x : string) : bool :=
  existsb (fun l => bool_decide (l = x)) labels.

(** [a || b] where [a] is a string, and where [a] is a string or
    [undefined]. *)
Definition or_str (a b : string) : string := if nonempty a then a else b.

Definition or_undef (a : option string) (b : string) : string :=
  match a with Some s => or_str s b | None => b end.

Record extras : Type := {
  moduleVal : string;
  subareaVal : string;
  typeVal : string;
  cycleVal : string
}.

Definition mapExtras (labels : list string) (cycleName : string) : extras :=
  {| moduleVal := or_undef (pickFirst labels MODULE_LABELS) "";
     subareaVal := or_undef (pickFirst labels SUBAREA_LABELS) "";
     typeVal := or_undef (pickFirst labels TYPE_LABELS)
                  (if includes labels "Features" then "Features" else "");
     cycleVal := or_str cycleName "" |}.

(** ** Upstream records *)

(** One [node] of the Linear reply, with the fields the script reads.
    [state_name] is [issue.state?.name], [label_names] the [name] of each
    entry of [issue.labels.nodes] (the empty string when it has none),
    [cycle_name] is [issue.cycle?.name]. *)
Record Issue : Type := {
  identifier : string;
  title : string;
  url : string;
  priority : value;
  dueDate : option string;
  state_name : value;
  label_names : list string;
  cycle_name : option string;
  description : option string
}.

(** ** The Notion service *)

Record property : Type := {
  type : string;          (* "select", "multi_select", "title", "rich_text", .. *)
  options : list string   (* the names of [prop[type].options] *)
}.

(** [db.properties], in the order [Object.entries] lists it. *)
Record database : Type := { properties : list (string * property) }.

Inductive propval : Type :=
  | PTitle (runs : list rich_text)
  | PRichText (runs : list rich_text)
  | PUrl (u : string)
  | PSelect (name : string)
  | PDate (start : string) (time_zone : option string).

(** A paragraph block made by [makeLine]. *)
Record block : Type := { label : string; text_value : string; bold : bool }.

Record page : Type := {
  page_id : N;
  page_props : gmap string propval;
  children : list block
}.

(** The calls of the script to the Notion API.  A page id is [None] when
    the script interpolates [undefined] into the URL. *)
Inductive request : Type :=
  | GetDatabase
  | PatchDatabase (propertyName typeKey : string) (nextOptions : list string)
  | QueryDatabase (identifier : string)
  | PostPage (props : gmap string propval)
  | PatchPage (pageId : option N) (props : gmap string propval)
  | PatchBlockChildren (pageId : option N) (blocks : list block).

Inductive json : Type :=
  | JDatabase (db : database)
  | JResults (results : list page)
  | JPage (p : page)
  | JOther.

Record response : Type := { status : Z; text : string; body : json }.

(** [r.ok]: the status is in the range 200-299. *)
Definition ok_status (st : Z) : bool := ((200 <=? st) && (st <=? 299))%Z.

Definition ok (r : response) : bool := ok_status (status r).

Record notion_t : Type := {
  db : database;
  pages : list page;
  next_id : N
}.

Definition lookup_property (name : string) (d : database) : option property :=
  snd <$> List.find (fun e => bool_decide (e.1 = name)) (properties d).

Definition set_options (name typeKey : string) (opts : list string) (d : database) : database :=
  {| properties :=
       (fun e => if bool_decide (e.1 = name) && bool_decide (type e.2 = typeKey)
                 then (e.1, {| type := type e.2; options := opts |}) else e)
         <$> properties d |}.

Definition plain_text (runs : list rich_text) : string :=
  foldr (fun r acc => content r +:+ acc) "" runs.

(** The filter [{ property: "Linear Issue ID", rich_text: { equals } }]. *)
Definition has_issue_id (ident : string) (p : page) : bool :=
  match page_props p !! "Linear Issue ID" with
  | Some (PRichText runs) => bool_decide (plain_text runs = ident)
  | _ => false
  end.

Definition find_page (pid : option N) (ps : list page) : option page :=
  match pid with
  | Some i => List.find (fun p => bool_decide (page_id p = i)) ps
  | None => None
  end.

Definition update_page (i : N) (f : page → page) (ps : list page) : list page :=
  (fun p => if bool_decide (page_id p = i) then f p else p) <$> ps.

(** The properties sent replace those of the same name, the others stay. *)
Definition patch_props (props : gmap string propval) (p : page) : page :=
  {| page_id := page_id p; page_props := props ∪ page_props p; children := children p |}.

Definition append_blocks (blocks : list block) (p : page) : page :=
  {| page_id := page_id p; page_props := page_props p; children := children p ++ blocks |}.

Definition reply (st : Z) (t : string) (j : json) : response :=
  {| status := st; text := t; body := j |}.

(** The service as the interface contract describes it: what each call
    returns and how it changes the database and its pages. *)
Definition serve (req : request) (n : notion_t) : response * notion_t :=
  match req with
  | GetDatabase => (reply 200 "" (JDatabase (db n)), n)
  | PatchDatabase name typeKey opts =>
      match lookup_property name (db n) with
      | Some _ =>
          let d := set_options name typeKey opts (db n) in
          (reply 200 "" (JDatabase d), {| db := d; pages := pages n; next_id := next_id n |})
      | None => (reply 400 "validation_error" JOther, n)
      end
  | QueryDatabase ident =>
      (reply 200 "" (JResults (take 1 (List.filter (has_issue_id ident) (pages n)))), n)
  | PostPage props =>
      let p := {| page_id := next_id n; page_props := props; children := [] |} in
      (reply 200 "" (JPage p),
       {| db := db n; pages := pages n ++ [p]; next_id := N.succ (next_id n) |})
  | PatchPage pid props =>
      match find_page pid (pages n) with
      | Some p =>
          (reply 200 "" (JPage (patch_props props p)),
           {| db := db n; pages := update_page (page_id p) (patch_props props) (pages n);
              next_id := next_id n |})
      | None => (reply 404 "object_not_found" JOther, n)
      end
  | PatchBlockChildren pid blocks =>
      match find_page pid (pages n) with
      | Some p =>
          (reply 200 "" JOther,
           {| db := db n; pages := update_page (page_id p) (append_blocks blocks) (pages n);
              next_id := next_id n |})
      | None => (reply 404 "object_not_found" JOther, n)
      end
  end.

(** ** The process state *)

Record summary_t : Type := {
  processed : nat;
  created : nat;
  updated : nat;
  skippedNoLabel : nat;
  errors : nat;
  items : list string
}.

Inductive event : Type :=
  | Fetch (req : request) (st : Z)
  | Sleep (ms : N).

(** The module-level variables [dbSchemaCache] and [summary], the Notion
    service, the replies it is forced to give to the calls to come
    ([script]: an entry with a non-2xx status is returned as it is and the
    call has no effect; a 2xx entry, or no entry, lets the service answer),
    the calls and pauses so far, and the clock in milliseconds. *)
Record world : Type := {
  dbSchemaCache : option database;
  summary : summary_t;
  notion : notion_t;
  script : list (Z * string);
  trace : list event;
  clock : N
}.

Definition summary0 : summary_t :=
  {| processed := 0; created := 0; updated := 0; skippedNoLabel := 0;
     errors := 0; items := [] |}.

Definition boot (n : notion_t) (sc : list (Z * string)) (t0 : N) : world :=
  {| dbSchemaCache := None; summary := summary0; notion := n; script := sc;
     trace := []; clock := t0 |}.

Definition with_cache (c : option database) (w : world) : world :=
  {| dbSchemaCache := c; summary := summary w; notion := notion w;
     script := script w; trace := trace w; clock := clock w |}.

Definition with_summary (s : summary_t) (w : world) : world :=
  {| dbSchemaCache := dbSchemaCache w; summary := s; notion := notion w;
     script := script w; trace := trace w; clock := clock w |}.

(** ** The monad of the script: state and exceptions *)

Inductive result (A : Type) : Type :=
  | Ok (a : A)
  | Throw (message : string).
Arguments Ok {A} a.
Arguments Throw {A} message.

Definition M (A : Type) : Type := world → result A * world.

#[global] Instance M_ret : MRet M := λ A a w, (Ok a, w).

#[global] Instance M_bind : MBind M := λ A B f m w,
  match m w with
  | (Ok a, w1) => f a w1
  | (Throw e, w1) => (Throw e, w1)
  end.

Definition throw {A : Type} (message : string) : M A := λ w, (Throw message, w).

Definition gets {A : Type} (f : world → A) : M A := λ w, (Ok (f w), w).

Definition modify (f : world → world) : M unit := λ w, (Ok (), f w).

(** [try { body } catch (e) { handler(e.message) }] *)
Definition try_catch {A : Type} (body : M A) (handler : string → M A) : M A := λ w,
  match body w with
  | (Ok a, w1) => (Ok a, w1)
  | (Throw e, w1) => handler e w1
  end.

(** The answer to a call: the scripted reply when it is a failure, the
    answer of the service otherwise. *)
Definition answer (req : request) (sc : list (Z * string)) (n : notion_t)
    : response * notion_t :=
  match sc with
  | (st, t) :: _ => if ok_status st then serve req n else (reply st t JOther, n)
  | [] => serve req n
  end.

(** [fetch]: one entry of the script is consumed, the call is recorded. *)
Definition fetch (req : request) : M response := λ w,
  let a := answer req (script w) (notion w) in
  (Ok a.1,
   {| dbSchemaCache := dbSchemaCache w; summary := summary w; notion := a.2;
      script := tail (script w); trace := trace w ++ [Fetch req (status a.1)];
      clock := clock w |}).

Definition sleep (ms : N) : M unit :=
  modify (λ w,
    {| dbSchemaCache := dbSchemaCache w; summary := summary w; notion := notion w;
       script := script w; trace := trace w ++ [Sleep ms]; clock := (clock w + ms)%N |}).

(** [n] in decimal, with zeros in front up to [width] digits. *)
Definition padded (width : nat) (n : N) : string :=
  let digits := pretty n in
  String.concat "" (replicate (width - String.length digits) "0") +:+ digits.

(** [Date.prototype.toISOString] of the instant [ms] milliseconds after
    1970-01-01T00:00:00Z: [YYYY-MM-DDTHH:mm:ss.sssZ] in the proleptic
    Gregorian calendar, the year as [+YYYYYY] beyond 9999. *)
Definition toISOString (ms : N) : string :=
  (let day := ms / 86400000 in
   let rest := ms mod 86400000 in
   let z := day + 719468 in
   let era := z / 146097 in
   let doe := z mod 146097 in
   let yoe := (doe + doe / 36524 - doe / 1460 - doe / 146096) / 365 in
   let doy := doe - (365 * yoe + yoe / 4 - yoe / 100) in
   let mp := (5 * doy + 2) / 153 in
   let d := doy - (153 * mp + 2) / 5 + 1 in
   let m := if mp <? 10 then mp + 3 else mp - 9 in
   let y := yoe + era * 400 + (if m <=? 2 then 1 else 0) in
   (if y <=? 9999 then padded 4 y else "+" +:+ padded 6 y)
   +:+ "-" +:+ padded 2 m +:+ "-" +:+ padded 2 d
   +:+ "T" +:+ padded 2 (rest / 3600000)
   +:+ ":" +:+ padded 2 (rest / 60000 mod 60)
   +:+ ":" +:+ padded 2 (rest / 1000 mod 60)
   +:+ "." +:+ padded 3 (rest mod 1000) +:+ "Z")%N.

(** [nowISO] (source lines 53-55): [new Date().toISOString()].  The
    instant is the clock of the model, in milliseconds since the epoch: the
    instant [t0] at which the run starts, moved on by the pauses.  The
    calls take no time in this model, so two reads with no pause between
    them give the same text. *)
Definition nowISO : M string := gets (λ w, toISOString (clock w)).

(** ** Notion helpers (source lines 139-263) *)

Definition dquote : string := String (ascii_of_nat 34) EmptyString.
Definition newline : string := String (ascii_of_nat 10) EmptyString.

Definition as_database (j : json) : database :=
  match j with JDatabase d => d | _ => {| properties := [] |} end.

(** [j?.results?.[0]] *)
Definition first_result (j : json) : option page :=
  match j with JResults rs => head rs | _ => None end.

(** [result.id] *)
Definition json_id (j : json) : option N :=
  match j with JPage p => Some (page_id p) | _ => None end.

Definition getDatabase : M database :=
  cached ← gets dbSchemaCache;
  match cached with
  | Some d => mret d
  | None =>
      r ← fetch GetDatabase;
      if negb (ok r)
      then throw ("Get database failed " +:+ pretty (status r) +:+ ": " +:+ text r)
      else
        modify (with_cache (Some (as_database (body r))));;
        mret (as_database (body r))
  end.

Definition getTitlePropertyName : M string :=
  d ← getDatabase;
  match List.find (λ e, bool_decide (type e.2 = "title")) (properties d) with
  | Some e => mret e.1
  | None => throw "No title property found on the Notion database."
  end.

Definition option_exists (existing : list string) (optionName : string) : bool :=
  existsb (λ o, bool_decide (toLowerCase o = toLowerCase optionName)) existing.

Definition ensureSelectOption (propertyName : string) (rawOption : value) : M unit :=
  let optionName := normalizeOptionName rawOption in
  if negb (truthy optionName) then mret () else
  let optionName := default "" optionName in
  d ← getDatabase;
  match lookup_property propertyName d with
  | None => mret ()
  | Some prop =>
      let typeKey := type prop in
      if negb (bool_decide (typeKey = "select"))
         && negb (bool_decide (typeKey = "multi_select"))
      then mret () else
      let existing := options prop in
      if option_exists existing optionName then mret () else
      let nextOptions := (existing ++ [optionName])%list in
      r ← fetch (PatchDatabase propertyName typeKey nextOptions);
      if negb (ok r)
      then throw ("Update DB schema (add select option " +:+ dquote +:+ optionName
                  +:+ dquote +:+ " to " +:+ dquote +:+ propertyName +:+ dquote
                  +:+ ") failed " +:+ pretty (status r) +:+ ": " +:+ text r)
      else
        modify (with_cache None);;
        getDatabase;;
        mret ()
  end.

Definition findPageByIssueId (ident : string) : M (option page) :=
  r ← fetch (QueryDatabase ident);
  if negb (ok r)
  then throw ("Query DB by Linear Issue ID failed " +:+ pretty (status r) +:+ ": " +:+ text r)
  else mret (first_result (body r)).

Definition id_text (pid : option N) : string :=
  match pid with Some i => pretty i | None => "undefined" end.

Definition method (req : request) : string :=
  match req with
  | GetDatabase => "GET"
  | QueryDatabase _ | PostPage _ => "POST"
  | PatchDatabase _ _ _ | PatchPage _ _ | PatchBlockChildren _ _ => "PATCH"
  end.

Definition endpoint (req : request) : string :=
  match req with
  | GetDatabase | PatchDatabase _ _ _ => "https://api.notion.com/v1/databases"
  | QueryDatabase _ => "https://api.notion.com/v1/databases/query"
  | PostPage _ => "https://api.notion.com/v1/pages"
  | PatchPage pid _ => "https://api.notion.com/v1/pages/" +:+ id_text pid
  | PatchBlockChildren pid _ =>
      "https://api.notion.com/v1/blocks/" +:+ id_text pid +:+ "/children"
  end.

(** [doFetch] of [notionWrite]: the call is repeated, half a second later,
    as long as the answer is 429.  [fuel] is the number of repetitions
    left; [notionWrite] passes the length of the script, which cannot be
    used up because only a scripted reply can be a 429. *)
Fixpoint doFetch (fuel : nat) (req : request) : M response :=
  r ← fetch req;
  if bool_decide (status r = 429%Z)
  then
    sleep 500;;
    match fuel with
    | S fuel' => doFetch fuel' req
    | O => mret r
    end
  else mret r.

Definition notionWrite (req : request) : M json :=
  fuel ← gets (λ w, List.length (script w));
  resp ← doFetch fuel req;
  if negb (ok resp)
  then throw (method req +:+ " " +:+ endpoint req +:+ " failed "
              +:+ pretty (status resp) +:+ ": " +:+ text resp)
  else mret (body resp).

Definition makeLine (l v : string) (b : bool) : block :=
  {| label := l; text_value := v; bold := b |}.

Definition value_truthy (v : value) : bool :=
  match v with
  | VUndefined | VNull => false
  | VBool b => b
  | VNum n => negb (bool_decide (n = 0%Z))
  | VStr s => nonempty s
  | VObj _ => true
  | VArr _ => true
  end.

Definition nullish (v : value) : bool :=
  match v with VUndefined | VNull => true | _ => false end.

(** [s.replace(a, b)] for one-character texts [a] and [b]: the first
    occurrence is replaced. *)
Fixpoint replace_first (a b : ascii) (s : string) : string :=
  match s with
  | EmptyString => EmptyString
  | String c r => if Ascii.eqb c a then String b r else String c (replace_first a b r)
  end.

(** [s.split(a)[0]] for a one-character text [a]: what comes before its
    first occurrence, all of [s] when there is none. *)
Fixpoint split_head (a : ascii) (s : string) : string :=
  match s with
  | EmptyString => EmptyString
  | String c r => if Ascii.eqb c a then EmptyString else String c (split_head a r)
  end.

Definition appendSyncComment (pageId : option N) (issue : Issue) (cycleVal : string) : M unit :=
  now ← nowISO;
  let ts := split_head "." (replace_first "T" " " now) +:+ " UTC" in
  notionWrite (PatchBlockChildren pageId
    [ makeLine "Last synced: " (ts +:+ newline) true;
      makeLine "Linear State: "
        ((if value_truthy (state_name issue) then to_text (state_name issue) else "N/A")
         +:+ newline) false;
      makeLine "Priority: "
        ((if nullish (priority issue) then "N/A" else to_text (priority issue))
         +:+ newline) false;
      makeLine "Cycle: " (or_str cycleVal "N/A") false ]);;
  mret ().

(** ** Upsert (source lines 281-373) and the driver (lines 376-436) *)

Inductive action_t : Type := Created | Updated | Skipped.

Record upsert_result : Type := { action : action_t; pageId : option N }.

(** An object literal: later entries replace earlier ones with the same
    key. *)
Definition object (entries : list (string * propval)) : gmap string propval :=
  fold_left (λ m e, <[e.1 := e.2]> m) entries ∅.

(** The spread [...(v ? { [key]: { select: { name: v } } } : {})]. *)
Definition spread_select (key : string) (v : option string) : list (string * propval) :=
  if truthy v then [(key, PSelect (default "" v))] else [].

(** The spread [...(d ? { [key]: { date: { start: d } } } : {})]. *)
Definition spread_date (key : string) (d : option string) : list (string * propval) :=
  if truthy d then [(key, PDate (default "" d) None)] else [].

Definition of_null (o : option string) : value :=
  match o with Some s => VStr s | None => VNull end.

Definition when (v : option string) (m : string → M unit) : M unit :=
  if truthy v then m (default "" v) else mret ().

Record mapped : Type := {
  statusName : option string;
  priorityVal : option string;
  moduleNorm : option string;
  subareaNorm : option string;
  typeNorm : option string;
  cycleNorm : option string
}.

(** [issue.labels.nodes.map(n => n?.name || "").filter(Boolean)] *)
Definition labels_of (issue : Issue) : list string :=
  List.filter nonempty (label_names issue).

(** The normalized values that go into the select properties
    (source lines 294-303). *)
Definition map_fields (issue : Issue) : mapped :=
  let ex := mapExtras (labels_of issue) (or_undef (cycle_name issue) "") in
  {| statusName := normalizeOptionName (state_name issue);
     priorityVal := normalizeOptionName (of_null (mapPriorityToText (priority issue)));
     moduleNorm := normalizeOptionName (VStr (moduleVal ex));
     subareaNorm := normalizeOptionName (VStr (subareaVal ex));
     typeNorm := normalizeOptionName (VStr (typeVal ex));
     cycleNorm := normalizeOptionName (VStr (cycleVal ex)) |}.

(** The object literal [props] of source lines 316-333. *)
Definition build_props (titlePropName now : string) (issue : Issue) : gmap string propval :=
  let f := map_fields issue in
  object (
    [ (titlePropName, PTitle [Text (or_str (title issue) "")]);
      ("Linear Issue ID", PRichText [Text (identifier issue)]);
      ("Linear URL", PUrl (url issue)) ]
    ++ spread_select "Status" (statusName f)
    ++ spread_select "Priority" (priorityVal f)
    ++ spread_date "Due Date" (dueDate issue)
    ++ spread_select "Module" (moduleNorm f)
    ++ spread_select "Sub-Area" (subareaNorm f)
    ++ spread_select "Type" (typeNorm f)
    ++ spread_select "Cycle" (cycleNorm f)
    ++ [ ("Last Sync", PDate now (Some "Europe/Berlin"));
         ("Description", PRichText (toRichTextArray (or_undef (description issue) ""))) ]).

(** [if (db?.properties?.["Title"]?.type === "rich_text") props["Title"] = ..]
    (source lines 336-339). *)
Definition copy_title (d : database) (issue : Issue) (props : gmap string propval)
    : gmap string propval :=
  if bool_decide (type <$> lookup_property "Title" d = Some "rich_text")
  then <["Title" := PRichText [Text (or_str (title issue) "")]]> props
  else props.

Definition push_item (line : string) (s : summary_t) : summary_t :=
  {| processed := processed s; created := created s; updated := updated s;
     skippedNoLabel := skippedNoLabel s; errors := errors s;
     items := items s ++ [line] |}.

Definition incr_processed (s : summary_t) : summary_t :=
  {| processed := S (processed s); created := created s; updated := updated s;
     skippedNoLabel := skippedNoLabel s; errors := errors s; items := items s |}.

Definition incr_created (s : summary_t) : summary_t :=
  {| processed := processed s; created := S (created s); updated := updated s;
     skippedNoLabel := skippedNoLabel s; errors := errors s; items := items s |}.

Definition incr_updated (s : summary_t) : summary_t :=
  {| processed := processed s; created := created s; updated := S (updated s);
     skippedNoLabel := skippedNoLabel s; errors := errors s; items := items s |}.

Definition incr_skippedNoLabel (s : summary_t) : summary_t :=
  {| processed := processed s; created := created s; updated := updated s;
     skippedNoLabel := S (skippedNoLabel s); errors := errors s; items := items s |}.

Definition incr_errors (s : summary_t) : summary_t :=
  {| processed := processed s; created := created s; updated := updated s;
     skippedNoLabel := skippedNoLabel s; errors := S (errors s); items := items s |}.

Definition on_summary (f : summary_t → summary_t) : M unit :=
  modify (λ w, with_summary (f (summary w)) w).

Section Sync.

(** The environment variable [REQUIRED_LABEL]. *)
Variable REQUIRED_LABEL : string.

Definition hasRequired (issue : Issue) : bool :=
  existsb (λ n, bool_decide (toLowerCase n = toLowerCase REQUIRED_LABEL))
          (labels_of issue).

(** Source lines 293-342 of [upsert]: the select options are ensured, the
    properties built and the page looked up by its issue id. *)
Definition prepare (issue : Issue) : M (gmap string propval * option page) :=
  let f := map_fields issue in
  when (statusName f) (λ v, ensureSelectOption "Status" (VStr v));;
  when (priorityVal f) (λ v, ensureSelectOption "Priority" (VStr v));;
  when (moduleNorm f) (λ v, ensureSelectOption "Module" (VStr v));;
  when (subareaNorm f) (λ v, ensureSelectOption "Sub-Area" (VStr v));;
  when (typeNorm f) (λ v, ensureSelectOption "Type" (VStr v));;
  when (cycleNorm f) (λ v, ensureSelectOption "Cycle" (VStr v));;
  titlePropName ← getTitlePropertyName;
  now ← nowISO;
  let props := build_props titlePropName now issue in
  d ← getDatabase;
  let props := copy_title d issue props in
  existing ← findPageByIssueId (identifier issue);
  mret (props, existing).

(** Source lines 343-372 of [upsert]: the page is patched or created,
    the comment appended and [Last Sync] written again. *)
Definition commit (issue : Issue) (props : gmap string propval)
    (existing : option page) : M upsert_result :=
  let ex := mapExtras (labels_of issue) (or_undef (cycle_name issue) "") in
  written ←
    match existing with
    | Some p =>
        notionWrite (PatchPage (Some (page_id p)) props);;
        mret (Some (page_id p), Updated)
    | None =>
        result ← notionWrite (PostPage props);
        mret (json_id result, Created)
    end;
  appendSyncComment written.1 issue (cycleVal ex);;
  now ← nowISO;
  notionWrite (PatchPage written.1
    {[ "Last Sync" := PDate now (Some "Europe/Berlin") ]});;
  mret {| action := written.2; pageId := written.1 |}.

Definition upsert (issue : Issue) : M upsert_result :=
  let id := identifier issue in
  if negb (hasRequired issue) then
    on_summary incr_skippedNoLabel;;
    on_summary (push_item ("Skipped (no label): " +:+ id +:+ " — " +:+ title issue));;
    mret {| action := Skipped; pageId := None |}
  else
    looked ← prepare issue;
    commit issue looked.1 looked.2.

(** The body of the [for await] loop of the driver. *)
Definition visit (issue : Issue) : M unit :=
  on_summary incr_processed;;
  try_catch
    (res ← upsert issue;
     match action res with
     | Created =>
         on_summary incr_created;;
         on_summary (push_item ("Created: " +:+ identifier issue +:+ " — " +:+ title issue))
     | Updated =>
         on_summary incr_updated;;
         on_summary (push_item ("Updated: " +:+ identifier issue +:+ " — " +:+ title issue))
     | Skipped => mret ()
     end)
    (λ message,
       on_summary incr_errors;;
       on_summary (push_item ("Error: " +:+ identifier issue +:+ " — " +:+ message)));;
  sleep 200.

End Sync.

(** ** The change feed (source lines 85-136) *)

(** One reply of the Linear service to a page request: its status, its
    text, and when the status is a success the [edges] and
    [pageInfo.hasNextPage] of its JSON. *)
Record linear_reply : Type := {
  lstatus : Z;
  ltext : string;
  nodes : list Issue;
  hasNextPage : bool
}.

Definition lok (r : linear_reply) : bool := ok_status (lstatus r).

(** What an async generator hands to its consumer, one step at a time. *)
Inductive feed : Type :=
  | Yield (issue : Issue) (rest : feed)
  | Return
  | Raise (message : string).

Fixpoint yield_all (issues : list Issue) (k : feed) : feed :=
  match issues with
  | [] => k
  | issue :: rest => Yield issue (yield_all rest k)
  end.

(** The generator over the replies the Linear service gives to the page
    requests, in order.  When no reply is left the service answers an
    empty last page. *)
Fixpoint fetchUpdatedIssuesSince (replies : list linear_reply) : feed :=
  match replies with
  | [] => Return
  | res :: later =>
      if negb (lok res)
      then Raise ("Linear GraphQL failed " +:+ pretty (lstatus res) +:+ ": " +:+ ltext res)
      else yield_all (nodes res)
             (if hasNextPage res then fetchUpdatedIssuesSince later else Return)
  end.

Inductive exit_t : Type :=
  | Completed
  | Fatal (message : string).

(** The [for await] loop inside the outer [try]/[catch] of the driver. *)
Fixpoint run (REQUIRED_LABEL : string) (f : feed) (w : world) : exit_t * world :=
  match f with
  | Yield issue rest => run REQUIRED_LABEL rest (visit REQUIRED_LABEL issue w).2
  | Return => (Completed, w)
  | Raise message => (Fatal message, w)
  end.

Definition main (REQUIRED_LABEL : string) (replies : list linear_reply)
    (n : notion_t) (sc : list (Z * string)) (t0 : N) : exit_t * world :=
  run REQUIRED_LABEL (fetchUpdatedIssuesSince replies) (boot n sc t0).

(** ** Vocabulary of the statements *)

(** The label chosen by a precedence list: the candidates are tried in
    their order and the first one carried by the record decides.  This is
    the reading of the design text, to be compared with [pickFirst]. *)
Definition first_by_precedence (labels cands : list string) : option string :=
  match List.find (λ c, existsb (eq_nocase c) labels) cands with
  | Some c => List.find (eq_nocase c) labels
  | None => None
  end.

(** A label belongs to a category when it equals one of its names up to
    case. *)
Definition in_category (cands : list string) (l : string) : Prop :=
  ∃ c, c ∈ cands ∧ toLowerCase c = toLowerCase l.

(** [v] is what a category yields for [labels]: the first label, in the
    order of the record, that belongs to the category, or the empty text
    when no label does. *)
Definition picks (labels cands : list string) (v : string) : Prop :=
  (v = "" ∧ ∀ l, l ∈ labels → ¬ in_category cands l)
  ∨ (∃ pre post, labels = (pre ++ v :: post)%list
       ∧ in_category cands v ∧ ∀ l, l ∈ pre → ¬ in_category cands l).

(** The mapped value that goes under [key] is absent for this record. *)
Definition absent_field (issue : Issue) (key : string) : Prop :=
  (key = "Status" ∧ statusName (map_fields issue) = None)
  ∨ (key = "Priority" ∧ priorityVal (map_fields issue) = None)
  ∨ (key = "Due Date" ∧ truthy (dueDate issue) = false)
  ∨ (key = "Module" ∧ moduleNorm (map_fields issue) = None)
  ∨ (key = "Sub-Area" ∧ subareaNorm (map_fields issue) = None)
  ∨ (key = "Type" ∧ typeNorm (map_fields issue) = None)
  ∨ (key = "Cycle" ∧ cycleNorm (map_fields issue) = None).

(** A record with the required label and nothing else. *)
Definition bare_issue : Issue :=
  {| identifier := "ENG-1"; title := "Vessel list"; url := "https://linear.app/ENG-1";
     priority := VNull; dueDate := None; state_name := VUndefined;
     label_names := ["Customer - Hapag Lloyd"]; cycle_name := None;
     description := None |}.

Definition categorical (ty : string) : Prop := ty = "select" ∨ ty = "multi_select".

(** Some page carries this issue id. *)
Definition has_page (ident : string) (n : notion_t) : bool :=
  existsb (has_issue_id ident) (pages n).

(** The issue id a page carries, if any. *)
Definition issue_id_of (p : page) : option string :=
  match page_props p !! "Linear Issue ID" with
  | Some (PRichText runs) => Some (plain_text runs)
  | _ => None
  end.

(** The pages of the service by id and issue id, in order. *)
Definition keys (n : notion_t) : list (N * option string) :=
  (λ p, (page_id p, issue_id_of p)) <$> pages n.

(** Page ids are unique and below the next id the service will give. *)
Definition wf_notion (n : notion_t) : Prop :=
  NoDup (keys n).*1 ∧ Forall (λ k, (k.1 < next_id n)%N) (keys n).

Definition is_post (e : event) : bool :=
  match e with Fetch (PostPage _) _ => true | _ => false end.

(** The number of create calls in a trace. *)
Definition posts (t : list event) : nat := List.length (List.filter is_post t).

Definition is_mutation (e : event) : bool :=
  match e with Fetch (PatchDatabase _ _ _) _ => true | _ => false end.

(** The number of schema mutations in a trace. *)
Definition mutations (t : list event) : nat := List.length (List.filter is_mutation t).

(** The summary did not move, no page was created or given another
    issue id, and no create call was made. *)
Definition quiet (w w' : world) : Prop :=
  summary w' = summary w
  ∧ keys (notion w') = keys (notion w)
  ∧ next_id (notion w') = next_id (notion w)
  ∧ posts (trace w') = posts (trace w).

(** The calls on the database itself, which do not touch the pages. *)
Definition on_database (req : request) : Prop :=
  match req with
  | GetDatabase | PatchDatabase _ _ _ | QueryDatabase _ => True
  | _ => False
  end.

(** The writes that patch a page without sending an issue id. *)
Definition plain_patch (req : request) : Prop :=
  match req with
  | PatchBlockChildren _ _ => True
  | PatchPage _ props => props !! "Linear Issue ID" = None
  | _ => False
  end.

Definition quietly {A : Type} (m : M A) : Prop := ∀ w, quiet w (m w).2.

(** The world after [k] attempts of [req] that were answered 429, each
    followed by the pause of 500 ms, when [rest] is what is left of the
    script. *)
Definition retried (req : request) (k : nat) (rest : list (Z * string)) (w : world) : world :=
  {| dbSchemaCache := dbSchemaCache w; summary := summary w; notion := notion w;
     script := rest;
     trace := trace w ++ mjoin (replicate k [Fetch req 429%Z; Sleep 500]);
     clock := (clock w + 500 * N.of_nat k)%N |}.

(** The scripted replies of [k] rate-limited attempts. *)
Definition rate_limited (texts : list string) : list (Z * string) :=
  (λ t, (429%Z, t)) <$> texts.

(** The next scripted reply, if any, is not a 429. *)
Definition not_limited (sc : list (Z * string)) : Prop :=
  ∀ e, head sc = Some e → e.1 ≠ 429%Z.

(** The message of the error [notionWrite] throws on the reply [r]. *)
Definition write_error (req : request) (r : response) : string :=
  method req +:+ " " +:+ endpoint req +:+ " failed "
  +:+ pretty (status r) +:+ ": " +:+ text r.

(** The summary after one more line and one more count. *)
Definition tally (f : summary_t → summary_t) (line : string) (w : world) : world :=
  with_summary (push_item line (f (summary w))) w.

Definition paused (ms : N) (w : world) : world := (sleep ms w).2.

(** The world in which the driver leaves a record, from the result of
    its [upsert] in the world where the record is already counted as
    processed. *)
Definition settled (issue : Issue) (out : result upsert_result * world) : world :=
  paused 200
    match out.1 with
    | Ok res =>
        match action res with
        | Created =>
            tally incr_created
              ("Created: " +:+ identifier issue +:+ " — " +:+ title issue) out.2
        | Updated =>
            tally incr_updated
              ("Updated: " +:+ identifier issue +:+ " — " +:+ title issue) out.2
        | Skipped => out.2
        end
    | Throw message =>
        tally incr_errors ("Error: " +:+ identifier issue +:+ " — " +:+ message) out.2
    end.

(** From [s] to [s'] one record was processed: one more line in the log
    and exactly one of the four outcome counters one higher. *)
Definition one_outcome (s s' : summary_t) : Prop :=
  processed s' = S (processed s)
  ∧ (∃ line, items s' = (items s ++ [line])%list)
  ∧ ((created s' = S (created s) ∧ updated s' = updated s
      ∧ skippedNoLabel s' = skippedNoLabel s ∧ errors s' = errors s)
     ∨ (created s' = created s ∧ updated s' = S (updated s)
        ∧ skippedNoLabel s' = skippedNoLabel s ∧ errors s' = errors s)
     ∨ (created s' = created s ∧ updated s' = updated s
        ∧ skippedNoLabel s' = S (skippedNoLabel s) ∧ errors s' = errors s)
     ∨ (created s' = created s ∧ updated s' = updated s
        ∧ skippedNoLabel s' = skippedNoLabel s ∧ errors s' = S (errors s))).

Definition balanced (s : summary_t) : Prop :=
  processed s = created s + updated s + skippedNoLabel s + errors s
  ∧ List.length (items s) = processed s.

(** The records a feed yields, in order. *)
Fixpoint yielded (f : feed) : list Issue :=
  match f with
  | Yield issue rest => issue :: yielded rest
  | Return | Raise _ => []
  end.

(** How a feed ends: normally, or with the error of a page request. *)
Fixpoint feed_end (f : feed) : exit_t :=
  match f with
  | Yield _ rest => feed_end rest
  | Return => Completed
  | Raise message => Fatal message
  end.

(** The next [k] scripted replies, as far as there are any, are successes. *)
Definition accepting (k : nat) (sc : list (Z * string)) : Prop :=
  Forall (λ e, ok_status e.1 = true) (take k sc).

(** A first page of the feed, and a page request that fails. *)
Definition first_reply : linear_reply :=
  {| lstatus := 200; ltext := ""; nodes := [bare_issue]; hasNextPage := true |}.

Definition failing_reply : linear_reply :=
  {| lstatus := 502; ltext := "Bad Gateway"; nodes := []; hasNextPage := false |}.

(** A record without the required label. *)
Definition unlabelled_issue : Issue :=
  {| identifier := "ENG-2"; title := "Berth plan"; url := "https://linear.app/ENG-2";
     priority := VNum 2; dueDate := None; state_name := VStr "Todo";
     label_names := ["Bug"]; cycle_name := None; description := None |}.

Definition REQUIRED_LABEL_default : string := "Customer - Hapag Lloyd".

(** A database with a title and three select properties, and no page. *)
Definition small_notion : notion_t :=
  {| db := {| properties :=
       [ ("Name", {| type := "title"; options := [] |});
         ("Status", {| type := "select"; options := ["Todo"; "Done"] |});
         ("Type", {| type := "select"; options := ["Bug"] |});
         ("Linear Issue ID", {| type := "rich_text"; options := [] |}) ] |};
     pages := []; next_id := 1 |}.

Definition chunk_lengths (cs : list rich_text) : list nat :=
  (λ c, String.length (content c)) <$> cs.

(** The lengths of the chunks the loop of [toRichTextArray] cuts from a
    text of length [len], starting at index [i]. *)
Fixpoint lengths_from (fuel len i : nat) : list nat :=
  match fuel with
  | O => []
  | S fuel' =>
      if (i <? len)%nat then (MAX `min` (len - i)) :: lengths_from fuel' len (i + MAX) else []
  end.

Fixpoint repeat_char (n : nat) (c : ascii) : string :=
  match n with O => EmptyString | S n' => String c (repeat_char n' c) end.

(** ** Vocabulary of the further properties *)

Definition first_char (s : string) : option ascii :=
  match s with String c _ => Some c | EmptyString => None end.

Fixpoint last_char (s : string) : option ascii :=
  match s with
  | EmptyString => None
  | String c EmptyString => Some c
  | String _ r => last_char r
  end.

(** No character of the text is white space. *)
Fixpoint no_white (s : string) : bool :=
  match s with
  | EmptyString => true
  | String c r => negb (is_white c) && no_white r
  end.

(** How the visit of a record ended: with the action its [upsert]
    returned, or with the message of what it threw. *)
Inductive outcome : Type :=
  | Did (a : action_t)
  | Failed (message : string).

Definition outcome_of (r : result upsert_result) : outcome :=
  match r with
  | Ok res => Did (action res)
  | Throw message => Failed message
  end.

(** The outcomes of the records of a feed, in the order of the visits:
    each is the outcome of the [upsert] the driver runs for the record,
    once it has counted it as processed. *)
Fixpoint outcomes (REQUIRED_LABEL : string) (f : feed) (w : world) : list outcome :=
  match f with
  | Yield issue rest =>
      outcome_of
        (upsert REQUIRED_LABEL issue (with_summary (incr_processed (summary w)) w)).1
      :: outcomes REQUIRED_LABEL rest (visit REQUIRED_LABEL issue w).2
  | Return | Raise _ => []
  end.

(** The line of the itemized log for a record whose visit ended in [o]. *)
Definition log_line (issue : Issue) (o : outcome) : string :=
  match o with
  | Did Created => "Created: " +:+ identifier issue +:+ " — " +:+ title issue
  | Did Updated => "Updated: " +:+ identifier issue +:+ " — " +:+ title issue
  | Did Skipped => "Skipped (no label): " +:+ identifier issue +:+ " — " +:+ title issue
  | Failed message => "Error: " +:+ identifier issue +:+ " — " +:+ message
  end.

Definition ended (a : action_t) (o : outcome) : bool :=
  match o, a with
  | Did Created, Created | Did Updated, Updated | Did Skipped, Skipped => true
  | _, _ => false
  end.

Definition failed (o : outcome) : bool :=
  match o with Failed _ => true | Did _ => false end.

Definition how_many (which : outcome → bool) (ends : list outcome) : nat :=
  List.length (List.filter which ends).

(** Every run of [m] ends in a world related by [R] to the one it started
    from. *)
Definition keeps {A : Type} (R : relation world) (m : M A) : Prop :=
  ∀ w, R w (m w).2.

Definition clock_kept (w w' : world) : Prop := clock w' = clock w.

Definition clock_grows (w w' : world) : Prop := (clock w ≤ clock w')%N.

(** The cache, when filled, holds the schema of the service. *)
Definition coherent (w : world) : Prop :=
  ∀ d, dbSchemaCache w = Some d → d = db (notion w).

(** The names and kinds of the properties of a database, in order. *)
Definition kinds (d : database) : list (string * string) :=
  (λ e, (e.1, type e.2)) <$> properties d.

(** From [n] to [n'] the schema kept its properties and their kinds, and
    every list of options was only extended at its end. *)
Definition schema_grows (n n' : notion_t) : Prop :=
  kinds (db n') = kinds (db n)
  ∧ ∀ name prop,
      lookup_property name (db n) = Some prop →
      ∃ extra,
        lookup_property name (db n')
        = Some {| type := type prop; options := (options prop ++ extra)%list |}.

Definition evolves (w w' : world) : Prop :=
  coherent w → coherent w' ∧ schema_grows (notion w) (notion w').

(** The calls that create or patch a page. *)
Definition on_pages (req : request) : Prop :=
  match req with
  | PostPage _ | PatchPage _ _ | PatchBlockChildren _ _ => True
  | _ => False
  end.

(** The schema of the service accepts [v] as an option of [key]: when
    [key] is a select or multi_select property, [v] is among its options up
    to case. *)
Definition option_known (n : notion_t) (key v : string) : Prop :=
  ∀ prop, lookup_property key (db n) = Some prop →
          categorical (type prop) → option_exists (options prop) v = true.

(** The records of a list that carry the required label and have no page
    in [n]. *)
Definition missing (REQUIRED_LABEL : string) (n : notion_t) (issues : list Issue) : nat :=
  List.length
    (List.filter
       (λ issue, hasRequired REQUIRED_LABEL issue
                 && negb (has_page (identifier issue) n)) issues).

(** Neither the cache nor the schema of the service moved. *)
Definition schema_kept (w w' : world) : Prop :=
  dbSchemaCache w' = dbSchemaCache w ∧ db (notion w') = db (notion w).

(** The select properties of a record with the values [upsert] computed
    for them (source lines 294-303). *)
Definition select_fields (issue : Issue) : list (string * option string) :=
  let f := map_fields issue in
  [ ("Status", statusName f); ("Priority", priorityVal f);
    ("Module", moduleNorm f); ("Sub-Area", subareaNorm f);
    ("Type", typeNorm f); ("Cycle", cycleNorm f) ].

(** The name of the first property of kind title, as
    [getTitlePropertyName] finds it. *)
Definition title_of (d : database) : option string :=
  fst <$> List.find (λ k, bool_decide (k.2 = "title")) (kinds d).

(** The pages, the next page id and the summary did not move. *)
Definition untouched (w w' : world) : Prop :=
  pages (notion w') = pages (notion w)
  ∧ next_id (notion w') = next_id (notion w)
  ∧ summary w' = summary w.

(** The names of the properties [upsert] writes on a page of the
    database [d] (source lines 316-339 and 366-370). *)
Definition written_keys (d : database) : list string :=
  [ "Linear Issue ID"; "Linear URL"; "Status"; "Priority"; "Due Date"; "Module";
    "Sub-Area"; "Type"; "Cycle"; "Last Sync"; "Description"; "Title" ]
  ++ match title_of d with Some t => [t] | None => [] end.

(** The page [p'] is the page [p] after some syncs that wrote only the
    properties [ks]: same id, the blocks of [p] followed by new ones, and
    every other property as it was. *)
Definition page_kept (ks : list string) (p p' : page) : Prop :=
  page_id p' = page_id p
  ∧ children p `prefix_of` children p'
  ∧ ∀ k, k ∉ ks → page_props p' !! k = page_props p !! k.

(** The pages of [n'] are those of [n], each one kept, in the same order,
    followed by new pages. *)
Definition pages_kept (ks : list string) (n n' : notion_t) : Prop :=
  ∃ kept new, pages n' = (kept ++ new)%list ∧ Forall2 (page_kept ks) (pages n) kept.

Definition kept_by (ks : list string) (w w' : world) : Prop :=
  pages_kept ks (notion w) (notion w').

(** A call that sets no property outside [ks]. *)
Definition within (ks : list string) (req : request) : Prop :=
  match req with
  | PatchPage _ props => ∀ k, k ∉ ks → props !! k = None
  | _ => True
  end.

(** The number of pages is the same. *)
Definition count_kept (w w' : world) : Prop :=
  List.length (pages (notion w')) = List.length (pages (notion w)).

(** A database without a title property. *)
Definition untitled_notion : notion_t :=
  {| db := {| properties :=
       [ ("Status", {| type := "select"; options := ["Todo"] |});
         ("Linear Issue ID", {| type := "rich_text"; options := [] |}) ] |};
     pages := []; next_id := 1 |}.

(** The page the service finds under an id. *)
Definition page_at (i : N) (n : notion_t) : option page :=
  find_page (Some i) (pages n).

(** A script without forced replies stays so. *)
Definition script_kept (w w' : world) : Prop := script w = [] → script w' = [].

(** The service is left to answer every call itself, the cache agrees with
    it and the database has the title property [t]. *)
Definition cooperative (t : string) (w : world) : Prop :=
  script w = [] ∧ coherent w ∧ title_of (db (notion w)) = Some t.

(** The computation returns normally from [w]. *)
Definition served {A : Type} (m : M A) (w : world) : Prop := ∃ a, (m w).1 = Ok a.

Definition is_read (e : event) : bool :=
  match e with Fetch GetDatabase _ => true | _ => false end.

(** The number of schema reads in a trace. *)
Definition reads (t : list event) : nat := List.length (List.filter is_read t).

Definition is_failed_read (e : event) : bool :=
  match e with Fetch GetDatabase st => negb (ok_status st) | _ => false end.

(** The number of schema reads that were refused. *)
Definition failed_reads (t : list event) : nat :=
  List.length (List.filter is_failed_read t).

Definition is_accepted_mutation (e : event) : bool :=
  match e with Fetch (PatchDatabase _ _ _) st => ok_status st | _ => false end.

(** The number of schema mutations that were accepted. *)
Definition accepted_mutations (t : list event) : nat :=
  List.length (List.filter is_accepted_mutation t).

(** How many schema reads the process may still make before it has made
    more than one per run, per accepted mutation and per refused read; an
    empty cache counts as a read to come. *)
Definition read_budget (w : world) : Z :=
  (1 + Z.of_nat (accepted_mutations (trace w)) + Z.of_nat (failed_reads (trace w))
   - Z.of_nat (reads (trace w))
   - match dbSchemaCache w with Some _ => 0 | None => 1 end)%Z.

Definition budget_kept (w w' : world) : Prop := (read_budget w ≤ read_budget w')%Z.

(** The calls and pauses of [w] are the first of [w']. *)
Definition trace_grows (w w' : world) : Prop :=
  ∃ events, trace w' = (trace w ++ events)%list.

(** A record with a state, a priority, a type label and a due date, and a
    destination that holds its page and knows its select values up to
    case. *)
Definition typed_issue : Issue :=
  {| identifier := "ENG-3"; title := "Bunker quote"; url := "https://linear.app/ENG-3";
     priority := VNum 2; dueDate := Some "2025-01-31"; state_name := VStr "todo";
     label_names := ["Customer - Hapag Lloyd"; "bug"]; cycle_name := None;
     description := Some "Quote of the supplier" |}.

Definition synced_notion : notion_t :=
  {| db := db small_notion;
     pages := [ {| page_id := 1;
                   page_props := {[ "Linear Issue ID" := PRichText [Text "ENG-3"] ]};
                   children := [] |} ];
     next_id := 2 |}.

(** * Properties *)

(** ** Strings *)

Section StringFacts.

Lemma app_cons c a b : String c a +:+ b = String c (a +:+ b).
Proof. reflexivity. Qed.

Lemma take_drop_chars n s : take_chars n s +:+ drop_chars n s = s.
Proof.
  revert s; induction n as [|n IH]; intros [|c r]; simpl; try reflexivity.
  by rewrite app_cons, IH.
Qed.

Lemma length_take_chars n s : String.length (take_chars n s) = n `min` String.length s.
Proof.
  revert s; induction n as [|n IH]; intros [|c r]; simpl; try reflexivity.
  by rewrite IH.
Qed.

Lemma length_drop_chars n s : String.length (drop_chars n s) = String.length s - n.
Proof.
  revert s; induction n as [|n IH]; intros [|c r]; simpl; try reflexivity.
  by rewrite IH.
Qed.

Lemma drop_chars_all n s : String.length s ≤ n → drop_chars n s = "".
Proof.
  revert s; induction n as [|n IH]; intros [|c r]; simpl; try reflexivity.
  - lia.
  - intros H. apply IH. lia.
Qed.

Lemma drop_chars_add n m s : drop_chars (n + m) s = drop_chars m (drop_chars n s).
Proof.
  revert s; induction n as [|n IH]; intros s; simpl; [reflexivity|].
  destruct s as [|c r]; [by destruct m|]. apply IH.
Qed.

Lemma slice_chunk i s : slice i (i + MAX) s = take_chars MAX (drop_chars i s).
Proof. unfold slice. f_equal. lia. Qed.

Lemma length_toLowerCase s : String.length (toLowerCase s) = String.length s.
Proof. induction s as [|c r IH]; simpl; congruence. Qed.

End StringFacts.

(** ** Description chunking *)

Section Chunking.

Lemma chunks_from_lengths fuel s i :
  chunk_lengths (chunks_from fuel s i) = lengths_from fuel (String.length s) i.
Proof.
  revert i; induction fuel as [|fuel IH]; intros i; simpl; [reflexivity|].
  destruct (i <? String.length s); [|reflexivity].
  unfold chunk_lengths in *. simpl. rewrite IH. f_equal.
  rewrite slice_chunk, length_take_chars, length_drop_chars. reflexivity.
Qed.


Lemma chunks_from_concat fuel s i :
  String.length s ≤ i + fuel * MAX →
  plain_text (chunks_from fuel s i) = drop_chars i s.
Proof.
  revert i; induction fuel as [|fuel IH]; intros i Hfuel; simpl.
  - symmetry. apply drop_chars_all. lia.
  - destruct (Nat.ltb_spec i (String.length s)) as [Hlt|Hge].
    + cbn [plain_text foldr content]. fold (plain_text (chunks_from fuel s (i + MAX))).
      rewrite IH by lia.
      rewrite slice_chunk, drop_chars_add. apply take_drop_chars.
    + symmetry. by apply drop_chars_all.
Qed.

Lemma chunks_from_bound fuel s i c :
  c ∈ chunks_from fuel s i → 0 < String.length (content c) ≤ MAX.
Proof.
  revert i; induction fuel as [|fuel IH]; intros i; simpl.
  - by intros ?%elem_of_nil.
  - destruct (Nat.ltb_spec i (String.length s)) as [Hlt|Hge];
      [|by intros ?%elem_of_nil].
    intros [->|Hin]%elem_of_cons; [|by eapply IH].
    simpl. rewrite slice_chunk, length_take_chars, length_drop_chars.
    unfold MAX. lia.
Qed.

Lemma chunks_from_full fuel s i k c :
  chunks_from fuel s i !! k = Some c →
  S k < List.length (chunks_from fuel s i) →
  String.length (content c) = MAX.
Proof.
  revert i k; induction fuel as [|fuel IH]; intros i k; simpl; [done|].
  destruct (Nat.ltb_spec i (String.length s)) as [Hlt|Hge]; [|done].
  destruct k as [|k]; simpl.
  - intros [= <-] Hlen. simpl.
    rewrite slice_chunk, length_take_chars, length_drop_chars.
    destruct fuel as [|fuel']; simpl in Hlen; [lia|].
    destruct (Nat.ltb_spec (i + MAX) (String.length s)); simpl in Hlen; lia.
  - intros Hk Hlen. eapply IH; [exact Hk|lia].
Qed.

End Chunking.

(** C9.  [toRichTextArray] cuts a text into consecutive chunks of at most
    1900 characters: their concatenation is the text, every chunk but the
    last has exactly 1900 characters, a text of 5000 characters gives
    chunks of 1900, 1900 and 1200 characters, and an empty or absent
    description gives no chunk. *)
Theorem toRichTextArray_chunking (s : string) :
  plain_text (toRichTextArray s) = s
  ∧ (∀ c, c ∈ toRichTextArray s → String.length (content c) ≤ 1900)
  ∧ (∀ k c, toRichTextArray s !! k = Some c →
            S k < List.length (toRichTextArray s) →
            String.length (content c) = 1900)
  ∧ (String.length s = 5000 →
     chunk_lengths (toRichTextArray s) = [1900; 1900; 1200])
  ∧ (s = "" → toRichTextArray s = [])
  ∧ (∀ issue, description issue = None →
              toRichTextArray (or_undef (description issue) "") = []).
Proof.
  unfold toRichTextArray. repeat split.
  - destruct s as [|a r]; [reflexivity|]. cbn [nonempty].
    rewrite chunks_from_concat; [reflexivity|]. unfold MAX. lia.
  - intros c Hc. destruct s as [|a r]; [by apply elem_of_nil in Hc|].
    cbn [nonempty] in Hc. apply chunks_from_bound in Hc. unfold MAX in Hc. lia.
  - intros k c Hk Hlen. destruct s as [|a r]; [done|].
    cbn [nonempty] in Hk, Hlen. by eapply chunks_from_full.
  - intros Hlen. destruct s as [|a r]; [done|]. cbn [nonempty].
    rewrite chunks_from_lengths, Hlen. vm_compute. reflexivity.
  - by intros ->.
  - by intros issue ->.
Qed.

Lemma toRichTextArray_chunking_witness :
  chunk_lengths (toRichTextArray (repeat_char 5000 "a")) = [1900; 1900; 1200]
  ∧ toRichTextArray "" = [].
Proof.
  destruct (toRichTextArray_chunking (repeat_char 5000 "a")) as (_ & _ & _ & H5000 & _).
  destruct (toRichTextArray_chunking "") as (_ & _ & _ & _ & Hempty & _).
  split; [apply H5000; vm_compute; reflexivity | apply Hempty; reflexivity].
Defined.

(** ** Priority *)

(** C7.  A numeric priority goes through the table 5 "Very Low", 4 "Low",
    3 "Medium", 2 "High", 1 "Urgent", 0 "None"; a number outside the table
    becomes its own decimal text; a text is trimmed and kept, or absent
    when nothing is left; [null] is absent. *)
Theorem mapPriorityToText_table :
  (mapPriorityToText (VNum 5) = Some "Very Low"
   ∧ mapPriorityToText (VNum 4) = Some "Low"
   ∧ mapPriorityToText (VNum 3) = Some "Medium"
   ∧ mapPriorityToText (VNum 2) = Some "High"
   ∧ mapPriorityToText (VNum 1) = Some "Urgent"
   ∧ mapPriorityToText (VNum 0) = Some "None")
  ∧ (∀ n : Z, (n < 0 ∨ 5 < n)%Z → mapPriorityToText (VNum n) = Some (pretty n))
  ∧ (∀ s, trim s ≠ "" → mapPriorityToText (VStr s) = Some (trim s))
  ∧ (∀ s, trim s = "" → mapPriorityToText (VStr s) = None)
  ∧ mapPriorityToText VNull = None
  ∧ mapPriorityToText VUndefined = None.
Proof.
  split; [repeat split; reflexivity|].
  split.
  { intros n Hn. unfold mapPriorityToText, priority_map.
    repeat (case_bool_decide; [lia|]). reflexivity. }
  split.
  { intros s Hs. unfold mapPriorityToText, or_null.
    destruct (trim s); [done|reflexivity]. }
  split; [|split; reflexivity].
  intros s Hs. unfold mapPriorityToText, or_null. by rewrite Hs.
Qed.

Lemma mapPriorityToText_table_witness :
  mapPriorityToText (VNum 7) = Some "7"
  ∧ mapPriorityToText (VNum (-1)) = Some "-1"
  ∧ mapPriorityToText (VStr "  High ") = Some "High"
  ∧ mapPriorityToText (VStr "   ") = None.
Proof.
  destruct mapPriorityToText_table as (_ & Hout & Htext & Hblank & _).
  split; [apply (Hout 7%Z); lia|].
  split; [apply (Hout (-1)%Z); lia|].
  split; [apply (Htext "  High "); vm_compute; discriminate|].
  apply (Hblank "   "); reflexivity.
Defined.

(** ** Label categories *)

Section Categories.

Lemma some_nocase_in_category cands l :
  some_nocase cands l = true ↔ in_category cands l.
Proof.
  unfold some_nocase, in_category, eq_nocase. rewrite existsb_exists.
  split; intros (c & Hc & Heq); exists c.
  - apply bool_decide_eq_true in Heq. by rewrite list_elem_of_In.
  - rewrite <- list_elem_of_In. by rewrite bool_decide_eq_true.
Qed.

Lemma in_category_nonempty cands l :
  Forall (λ c, nonempty c = true) cands → in_category cands l → nonempty l = true.
Proof.
  intros Hall (c & Hc & Heq). rewrite Forall_forall in Hall.
  specialize (Hall c Hc). apply (f_equal String.length) in Heq.
  rewrite !length_toLowerCase in Heq. destruct l, c; done.
Qed.

Lemma find_first {A} (f : A → bool) (l : list A) :
  match List.find f l with
  | Some x => ∃ pre post, l = (pre ++ x :: post)%list ∧ f x = true
                          ∧ ∀ y, y ∈ pre → f y = false
  | None => ∀ y, y ∈ l → f y = false
  end.
Proof.
  induction l as [|a l IH]; simpl.
  - by intros y ?%elem_of_nil.
  - destruct (f a) eqn:Ha.
    + exists [], l. repeat split; [done|]. by intros y ?%elem_of_nil.
    + destruct (List.find f l) as [x|].
      * destruct IH as (pre & post & -> & Hx & Hpre).
        exists (a :: pre), post. repeat split; [done|].
        intros y [->|Hy]%elem_of_cons; auto.
      * intros y [->|Hy]%elem_of_cons; auto.
Qed.

Lemma pickFirst_picks labels cands fallback :
  Forall (λ c, nonempty c = true) cands →
  ((∀ l, l ∈ labels → ¬ in_category cands l) → fallback = "") →
  picks labels cands (or_undef (pickFirst labels cands) fallback).
Proof.
  intros Hne Hfb. unfold pickFirst.
  pose proof (find_first (some_nocase cands) labels) as Hfind.
  destruct (List.find (some_nocase cands) labels) as [v|]; simpl.
  - destruct Hfind as (pre & post & -> & Hv & Hpre).
    apply some_nocase_in_category in Hv.
    unfold or_str. rewrite (in_category_nonempty cands v Hne Hv).
    right. exists pre, post. repeat split; [done|].
    intros l Hl Hcat%some_nocase_in_category. specialize (Hpre l Hl). congruence.
  - assert (∀ l, l ∈ labels → ¬ in_category cands l) as Hnone.
    { intros l Hl Hcat%some_nocase_in_category. specialize (Hfind l Hl). congruence. }
    left. split; [by apply Hfb|exact Hnone].
Qed.

Lemma picks_first labels cands v pre post l :
  picks labels cands v → labels = (pre ++ l :: post)%list →
  in_category cands l → (∀ y, y ∈ pre → ¬ in_category cands y) → v = l.
Proof.
  intros [[-> Hnone]|(pre' & post' & Heq & Hv & Hpre')] -> Hl Hpre.
  - exfalso. apply (Hnone l); [|done]. apply elem_of_app. right. by left.
  - destruct (decide (List.length pre' = List.length pre)) as [Hlen|Hlen].
    + apply app_inj_1 in Heq as [_ [=]]; done.
    + exfalso. destruct (decide (List.length pre' < List.length pre)) as [Hlt|Hge].
      * apply (Hpre v); [|done].
        apply (f_equal (λ x, x !! List.length pre')) in Heq.
        rewrite (lookup_app_l pre), list_lookup_middle in Heq by done.
        by apply list_elem_of_lookup_2 in Heq.
      * apply (Hpre' l); [|done].
        apply (f_equal (λ x, x !! List.length pre)) in Heq.
        rewrite (lookup_app_l pre'), list_lookup_middle in Heq by (done || lia).
        symmetry in Heq. by apply list_elem_of_lookup_2 in Heq.
Qed.

End Categories.

(** C8, as stated, fails.  With the labels "Chore", "Bug" the type is
    "Chore", the first label of the record, where the precedence list
    "Features", "Bug", "Chore" would choose "Bug"; and with the labels
    "Bug", "Features" the type is "Bug" although the literal label
    "Features" is present. *)
Lemma mapExtras_precedence_counterexample :
  typeVal (mapExtras ["Chore"; "Bug"] "")
    ≠ default "" (first_by_precedence ["Chore"; "Bug"] TYPE_LABELS)
  ∧ includes ["Bug"; "Features"] "Features" = true
  ∧ typeVal (mapExtras ["Bug"; "Features"] "") ≠ "Features".
Proof.
  split; [|split]; [intros H; vm_compute in H; discriminate H
                   | reflexivity
                   | intros H; vm_compute in H; discriminate H].
Qed.

(** C8, amended.  Each of the module, sub-area and type values is the
    first label, in the order of the record's own labels, that equals up
    to case one of the names of the category, spelled as in the record, and
    is empty when no label does.  The type is "Features" when that literal
    label is present and no label before it belongs to the type category. *)
Theorem mapExtras_first_label (labels : list string) (cycleName : string) :
  picks labels MODULE_LABELS (moduleVal (mapExtras labels cycleName))
  ∧ picks labels SUBAREA_LABELS (subareaVal (mapExtras labels cycleName))
  ∧ picks labels TYPE_LABELS (typeVal (mapExtras labels cycleName))
  ∧ (∀ pre post,
       labels = (pre ++ "Features" :: post)%list →
       (∀ l, l ∈ pre → ¬ in_category TYPE_LABELS l) →
       typeVal (mapExtras labels cycleName) = "Features").
Proof.
  assert (picks labels TYPE_LABELS (typeVal (mapExtras labels cycleName))) as Htype.
  { apply pickFirst_picks; [by repeat constructor|].
    intros Hnone. destruct (includes labels "Features") eqn:Hinc; [|reflexivity].
    exfalso. unfold includes in Hinc. apply existsb_exists in Hinc as (l & Hl & Heq).
    apply bool_decide_eq_true in Heq as ->. apply list_elem_of_In in Hl.
    apply (Hnone _ Hl). exists "Features". split; [|reflexivity]. by left. }
  split; [apply pickFirst_picks; [by repeat constructor|done]|].
  split; [apply pickFirst_picks; [by repeat constructor|done]|].
  split; [exact Htype|].
  intros pre post Hlabels Hpre.
  eapply picks_first; [exact Htype|exact Hlabels| |exact Hpre].
  exists "Features". split; [by left|reflexivity].
Qed.

Lemma mapExtras_first_label_witness :
  typeVal (mapExtras ["Customer - Hapag Lloyd"; "Features"; "Bug"] "") = "Features".
Proof.
  destruct (mapExtras_first_label ["Customer - Hapag Lloyd"; "Features"; "Bug"] "")
    as (_ & _ & _ & Hfeatures).
  apply (Hfeatures ["Customer - Hapag Lloyd"] ["Bug"]); [reflexivity|].
  intros l ->%list_elem_of_singleton Hcat%some_nocase_in_category.
  vm_compute in Hcat. discriminate Hcat.
Defined.

(** ** The properties written *)

Section Props.

Lemma object_app es1 es2 :
  object (es1 ++ es2) = fold_left (λ m e, <[e.1 := e.2]> m) es2 (object es1).
Proof. unfold object. apply fold_left_app. Qed.

Lemma fold_insert_lookup_ne (es : list (string * propval)) (m : gmap string propval) k :
  (∀ e, e ∈ es → e.1 ≠ k) →
  fold_left (λ m e, <[e.1 := e.2]> m) es m !! k = m !! k.
Proof.
  revert m; induction es as [|e es IH]; intros m Hes; simpl; [reflexivity|].
  rewrite IH by (intros e' He'; apply Hes; by right).
  apply lookup_insert_ne, Hes. by left.
Qed.


Lemma elem_of_spread_select key v e :
  e ∈ spread_select key v → e.1 = key ∧ truthy v = true.
Proof.
  unfold spread_select. destruct (truthy v); [|by intros ?%elem_of_nil].
  by intros ->%list_elem_of_singleton.
Qed.

Lemma elem_of_spread_date key v e :
  e ∈ spread_date key v → e.1 = key ∧ truthy v = true.
Proof.
  unfold spread_date. destruct (truthy v); [|by intros ?%elem_of_nil].
  by intros ->%list_elem_of_singleton.
Qed.

Lemma copy_title_lookup_ne d issue props k :
  k ≠ "Title" → copy_title d issue props !! k = props !! k.
Proof.
  intros Hk. unfold copy_title. case_bool_decide; [|reflexivity].
  by rewrite lookup_insert_ne.
Qed.

(** Every entry of the literal but the first, with its key. *)
Lemma build_props_tail_keys titlePropName now issue :
  ∃ rest,
    build_props titlePropName now issue
    = fold_left (λ m e, <[e.1 := e.2]> m) rest
        (<[titlePropName := PTitle [Text (or_str (title issue) "")]]> ∅)
    ∧ ∀ e, e ∈ rest →
        e.1 = "Linear Issue ID" ∨ e.1 = "Linear URL" ∨ e.1 = "Last Sync"
        ∨ e.1 = "Description"
        ∨ (e.1 = "Status" ∧ statusName (map_fields issue) ≠ None)
        ∨ (e.1 = "Priority" ∧ priorityVal (map_fields issue) ≠ None)
        ∨ (e.1 = "Due Date" ∧ truthy (dueDate issue) = true)
        ∨ (e.1 = "Module" ∧ moduleNorm (map_fields issue) ≠ None)
        ∨ (e.1 = "Sub-Area" ∧ subareaNorm (map_fields issue) ≠ None)
        ∨ (e.1 = "Type" ∧ typeNorm (map_fields issue) ≠ None)
        ∨ (e.1 = "Cycle" ∧ cycleNorm (map_fields issue) ≠ None).
Proof.
  exists ([ ("Linear Issue ID", PRichText [Text (identifier issue)]);
            ("Linear URL", PUrl (url issue)) ]
          ++ spread_select "Status" (statusName (map_fields issue))
          ++ spread_select "Priority" (priorityVal (map_fields issue))
          ++ spread_date "Due Date" (dueDate issue)
          ++ spread_select "Module" (moduleNorm (map_fields issue))
          ++ spread_select "Sub-Area" (subareaNorm (map_fields issue))
          ++ spread_select "Type" (typeNorm (map_fields issue))
          ++ spread_select "Cycle" (cycleNorm (map_fields issue))
          ++ [ ("Last Sync", PDate now (Some "Europe/Berlin"));
               ("Description",
                PRichText (toRichTextArray (or_undef (description issue) ""))) ])%list.
  split; [reflexivity|].
  intros e He.
  assert (∀ v, truthy v = true → v ≠ None) as Hsome by (by intros [s|]).
  repeat (apply elem_of_cons in He as [->|He] || apply elem_of_app in He as [He|He]);
    try (apply elem_of_spread_select in He as [-> ?%Hsome]);
    try (apply elem_of_spread_date in He as [-> ?]);
    try (by apply elem_of_nil in He); simpl; tauto.
Qed.

End Props.


(** ** The monad and the primitive steps *)

Section Steps.

Lemma bind_ok {A B} (m : M A) (f : A → M B) w a w1 :
  m w = (Ok a, w1) → (m ≫= f) w = f a w1.
Proof. intros H. unfold mbind, M_bind. by rewrite H. Qed.

Lemma bind_throw {A B} (m : M A) (f : A → M B) w e w1 :
  m w = (Throw e, w1) → (m ≫= f) w = (Throw e, w1).
Proof. intros H. unfold mbind, M_bind. by rewrite H. Qed.


(** A call is either answered by the service or refused with the
    scripted failure, which leaves the service as it was. *)
Lemma answer_cases req sc n :
  answer req sc n = serve req n
  ∨ (∃ st t later, sc = (st, t) :: later ∧ ok_status st = false
                   ∧ answer req sc n = (reply st t JOther, n)).
Proof.
  destruct sc as [|[st t] later]; simpl; [by left|].
  destruct (ok_status st) eqn:Hst; [by left|]. right. by exists st, t, later.
Qed.

Lemma getDatabase_cached w d :
  dbSchemaCache w = Some d → getDatabase w = (Ok d, w).
Proof. intros H. unfold getDatabase, mbind, M_bind, gets. by rewrite H. Qed.

Lemma lookup_set_options name ty opts d prop :
  lookup_property name d = Some prop → type prop = ty →
  lookup_property name (set_options name ty opts d)
  = Some {| type := ty; options := opts |}.
Proof.
  unfold lookup_property, set_options. destruct d as [ps]. simpl.
  induction ps as [|[k v] ps IH]; simpl; [done|].
  case_bool_decide as Hk; simpl.
  - intros [= ->] Hty. simpl in Hk. subst k.
    rewrite (bool_decide_eq_true_2 (type prop = ty)) by done. simpl.
    rewrite bool_decide_eq_true_2 by done. simpl. by rewrite Hty.
  - intros Hfind Hty. simpl in Hk.
    rewrite (bool_decide_eq_false_2 (k = name)) by done. simpl.
    by apply IH.
Qed.

Lemma option_exists_snoc existing o : option_exists (existing ++ [o]) o = true.
Proof.
  unfold option_exists. rewrite existsb_app. simpl.
  rewrite bool_decide_eq_true_2 by done. by rewrite orb_true_r.
Qed.

Lemma mutations_app t1 t2 : mutations (t1 ++ t2) = mutations t1 + mutations t2.
Proof. unfold mutations. by rewrite List.filter_app, length_app. Qed.

Lemma posts_app t1 t2 : posts (t1 ++ t2) = posts t1 + posts t2.
Proof. unfold posts. by rewrite List.filter_app, length_app. Qed.

End Steps.

(** ** The label gate *)

(** C2, as stated, fails on the summary: besides the counter, the
    itemized log of the summary receives a line for the skipped record. *)
Lemma upsert_skip_counterexample :
  hasRequired REQUIRED_LABEL_default unlabelled_issue = false
  ∧ summary (upsert REQUIRED_LABEL_default unlabelled_issue (boot small_notion [] 0)).2
    ≠ incr_skippedNoLabel (summary (boot small_notion [] 0)).
Proof. split; [reflexivity|]. intros H. vm_compute in H. discriminate H. Qed.

(** The skip path of [upsert]. *)
Lemma upsert_unlabelled (REQUIRED_LABEL : string) (issue : Issue) (w : world) :
  hasRequired REQUIRED_LABEL issue = false →
  upsert REQUIRED_LABEL issue w
  = (Ok {| action := Skipped; pageId := None |},
     tally incr_skippedNoLabel
       ("Skipped (no label): " +:+ identifier issue +:+ " — " +:+ title issue) w).
Proof. intros Hgate. unfold upsert. by rewrite Hgate. Qed.

(** C2, amended.  For a record whose labels do not contain the required
    label, compared without case, [upsert] ends at once in the skipped
    state: no call is made (no schema read, no schema mutation, no lookup,
    no write), the skipped counter grows by one, one line
    "Skipped (no label): id — title" is appended to the itemized log, and
    nothing else changes in the summary, the cache or the destination. *)
Theorem upsert_skips_unlabelled (REQUIRED_LABEL : string) (issue : Issue) (w : world) :
  hasRequired REQUIRED_LABEL issue = false →
  upsert REQUIRED_LABEL issue w
  = (Ok {| action := Skipped; pageId := None |},
     {| dbSchemaCache := dbSchemaCache w;
        summary :=
          {| processed := processed (summary w);
             created := created (summary w);
             updated := updated (summary w);
             skippedNoLabel := S (skippedNoLabel (summary w));
             errors := errors (summary w);
             items := items (summary w)
                      ++ ["Skipped (no label): " +:+ identifier issue +:+ " — "
                          +:+ title issue] |};
        notion := notion w;
        script := script w;
        trace := trace w;
        clock := clock w |}).
Proof. intros Hgate. unfold upsert. rewrite Hgate. reflexivity. Qed.

Lemma upsert_skips_unlabelled_witness :
  trace (upsert REQUIRED_LABEL_default unlabelled_issue (boot small_notion [] 0)).2 = []
  ∧ skippedNoLabel
      (summary (upsert REQUIRED_LABEL_default unlabelled_issue (boot small_notion [] 0)).2)
    = 1.
Proof.
  rewrite (upsert_skips_unlabelled REQUIRED_LABEL_default unlabelled_issue
             (boot small_notion [] 0)); [|reflexivity].
  split; reflexivity.
Defined.

(** ** Schema registry *)

Section Registry.

(** What a schema read does when the cache is empty. *)
Lemma getDatabase_cold w :
  dbSchemaCache w = None →
  (∃ st t later, script w = (st, t) :: later ∧ ok_status st = false
     ∧ getDatabase w
       = (Throw ("Get database failed " +:+ pretty st +:+ ": " +:+ t),
          {| dbSchemaCache := None; summary := summary w; notion := notion w;
             script := later; trace := trace w ++ [Fetch GetDatabase st];
             clock := clock w |}))
  ∨ getDatabase w
    = (Ok (db (notion w)),
       {| dbSchemaCache := Some (db (notion w)); summary := summary w;
          notion := notion w; script := tail (script w);
          trace := trace w ++ [Fetch GetDatabase 200%Z]; clock := clock w |}).
Proof.
  intros Hcache. unfold getDatabase, mbind, M_bind, gets, fetch. rewrite Hcache.
  destruct (answer_cases GetDatabase (script w) (notion w))
    as [Hserved|(st & t & later & Hsc & Hst & Hrefused)].
  - right. rewrite Hserved. simpl. by rewrite Hcache.
  - left. exists st, t, later. repeat split; [done..|].
    rewrite Hrefused, Hsc. unfold ok. simpl. rewrite Hst. simpl.
    by rewrite Hcache.
Qed.

Lemma ensureSelectOption_absent propertyName rawOption w :
  normalizeOptionName rawOption = None →
  ensureSelectOption propertyName rawOption w = (Ok (), w).
Proof. intros H. unfold ensureSelectOption. by rewrite H. Qed.

Lemma pretty_N_go_nonempty (x : N) s : s ≠ "" → pretty_N_go x s ≠ "".
Proof.
  revert s. induction (N.lt_wf_0 x) as [x _ IH]; intros s Hs.
  destruct (decide (x = 0%N)) as [->|]; [by rewrite pretty_N_go_0|].
  rewrite pretty_N_go_step by lia. apply IH; [apply N.div_lt; lia|done].
Qed.

Lemma pretty_N_nonempty (x : N) : nonempty (pretty x) = true.
Proof.
  assert (pretty x ≠ "") as Hne; [|by destruct (pretty x)].
  unfold pretty, pretty_N. case_decide; [done|].
  rewrite pretty_N_go_step by lia. by apply pretty_N_go_nonempty.
Qed.

Lemma pretty_Z_nonempty (n : Z) : nonempty (pretty n) = true.
Proof.
  destruct n as [|q|q]; [reflexivity| |reflexivity].
  apply (pretty_N_nonempty (N.pos q)).
Qed.

Lemma normalizeOptionName_truthy rawOption o :
  normalizeOptionName rawOption = Some o → nonempty o = true.
Proof.
  destruct rawOption as [| | |n|s|[nm|]|elems]; simpl; try done.
  - intros [= <-]. apply pretty_Z_nonempty.
  - destruct (nonempty (trim s)) eqn:Hs; [|done]. by intros [= <-].
  - destruct (nonempty (trim nm)) eqn:Hs; [|done]. by intros [= <-].
Qed.

Lemma categorical_test ty :
  negb (bool_decide (ty = "select")) && negb (bool_decide (ty = "multi_select")) = false
  ↔ categorical ty.
Proof.
  unfold categorical. do 2 case_bool_decide; simpl; intuition congruence.
Qed.

(** [ensureSelectOption] once the option name and the schema are known. *)
Lemma ensureSelectOption_unfold propertyName rawOption w o d w1 :
  normalizeOptionName rawOption = Some o →
  getDatabase w = (Ok d, w1) →
  ensureSelectOption propertyName rawOption w
  = match lookup_property propertyName d with
    | None => (Ok (), w1)
    | Some prop =>
        if negb (bool_decide (type prop = "select"))
           && negb (bool_decide (type prop = "multi_select"))
        then (Ok (), w1)
        else if option_exists (options prop) o then (Ok (), w1)
        else
          (r ← fetch (PatchDatabase propertyName (type prop) (options prop ++ [o]));
           if negb (ok r)
           then throw ("Update DB schema (add select option " +:+ dquote +:+ o
                       +:+ dquote +:+ " to " +:+ dquote +:+ propertyName +:+ dquote
                       +:+ ") failed " +:+ pretty (status r) +:+ ": " +:+ text r)
           else modify (with_cache None);; getDatabase;; mret ()) w1
    end.
Proof.
  intros Hnorm Hdb. unfold ensureSelectOption. rewrite Hnorm. unfold truthy.
  rewrite (normalizeOptionName_truthy _ _ Hnorm). cbn [negb default from_option id].
  rewrite (bind_ok _ _ _ _ _ Hdb).
  destruct (lookup_property propertyName d) as [prop|]; [|reflexivity].
  destruct (negb (bool_decide (type prop = "select"))
            && negb (bool_decide (type prop = "multi_select"))); [reflexivity|].
  destruct (option_exists (options prop) o); reflexivity.
Qed.

Lemma ensureSelectOption_mutates propertyName rawOption w o d w1 prop :
  normalizeOptionName rawOption = Some o →
  getDatabase w = (Ok d, w1) →
  lookup_property propertyName d = Some prop →
  categorical (type prop) →
  option_exists (options prop) o = false →
  let mutation := PatchDatabase propertyName (type prop) (options prop ++ [o])%list in
  let out := ensureSelectOption propertyName rawOption w in
  ∃ st,
    mutations (trace out.2) = S (mutations (trace w1))
    ∧ (((∃ e, out.1 = Throw e) ∧ ok_status st = false
        ∧ trace out.2 = (trace w1 ++ [Fetch mutation st])%list
        ∧ dbSchemaCache out.2 = dbSchemaCache w1)
       ∨ (∃ e st', out.1 = Throw e ∧ ok_status st = true ∧ ok_status st' = false
          ∧ trace out.2 = (trace w1 ++ [Fetch mutation st; Fetch GetDatabase st'])%list
          ∧ dbSchemaCache out.2 = None)
       ∨ (out.1 = Ok () ∧ ok_status st = true
          ∧ trace out.2 = (trace w1 ++ [Fetch mutation st; Fetch GetDatabase 200%Z])%list
          ∧ dbSchemaCache out.2 = Some (db (notion out.2))
          ∧ (db (notion w1) = d →
             lookup_property propertyName (db (notion out.2))
             = Some {| type := type prop; options := options prop ++ [o] |}
             ∧ ensureSelectOption propertyName rawOption out.2 = (Ok (), out.2)))).
Proof.
  intros Hnorm Hdb Hprop Hcat Hnew mutation out.
  pose proof (ensureSelectOption_unfold propertyName rawOption w o d w1 Hnorm Hdb) as Hout.
  rewrite Hprop in Hout. apply categorical_test in Hcat. rewrite Hcat, Hnew in Hout.
  fold mutation in Hout. fold out in Hout.
  unfold mbind, M_bind, fetch in Hout.
  set (a := answer mutation (script w1) (notion w1)) in *.
  exists (status a.1).
  destruct (ok a.1) eqn:Hok; cbn [negb] in Hout; cbv beta iota in Hout.
  2:{ rewrite Hout. simpl. split.
      { rewrite mutations_app. simpl. unfold mutations at 2. simpl. lia. }
      left. repeat split; eauto. }
  unfold modify in Hout. cbv beta iota in Hout.
  set (w2 := with_cache None _) in Hout.
  destruct (getDatabase_cold w2 eq_refl)
    as [(st' & t & later & Hsc & Hst' & Hget)|Hget]; rewrite Hget in Hout;
    rewrite Hout; simpl.
  - split.
    { rewrite !mutations_app. simpl. unfold mutations at 2 3. simpl. lia. }
    right; left. eexists _, st'.
    repeat split; [exact Hok|exact Hst'|by rewrite <- app_assoc].
  - split.
    { rewrite !mutations_app. simpl. unfold mutations at 2 3. simpl. lia. }
    right; right. split; [reflexivity|]. split; [exact Hok|].
    split; [by rewrite <- app_assoc|]. split; [reflexivity|].
    intros Hcoherent.
    assert (a = serve mutation (notion w1)) as Ha.
    { destruct (answer_cases mutation (script w1) (notion w1))
        as [Hserved|(st & t & later & _ & Hst & Hrefused)]; [done|].
      unfold a in Hok. rewrite Hrefused in Hok. unfold ok in Hok. simpl in Hok.
      congruence. }
    assert (lookup_property propertyName (db a.2)
            = Some {| type := type prop; options := options prop ++ [o] |}) as Hlook.
    { rewrite Ha. unfold mutation. simpl. rewrite Hcoherent, Hprop. simpl.
      by apply (lookup_set_options _ _ _ _ prop). }
    split; [exact Hlook|].
    erewrite ensureSelectOption_unfold;
      [|exact Hnorm|by apply getDatabase_cached].
    rewrite Hlook. simpl type. rewrite Hcat. simpl options.
    by rewrite option_exists_snoc.
Qed.

(** A successful schema read leaves the service alone and is no
    mutation. *)
Lemma getDatabase_ok_frame w d w1 :
  getDatabase w = (Ok d, w1) →
  notion w1 = notion w ∧ summary w1 = summary w
  ∧ mutations (trace w1) = mutations (trace w)
  ∧ (dbSchemaCache w = Some d → w1 = w).
Proof.
  intros Hdb. destruct (dbSchemaCache w) as [c|] eqn:Hcache.
  - rewrite (getDatabase_cached w c Hcache) in Hdb. by simplify_eq.
  - destruct (getDatabase_cold w Hcache)
      as [(st & t & later & _ & _ & Hget)|Hget]; rewrite Hget in Hdb; [done|].
    simplify_eq. simpl. repeat split; [|done].
    rewrite mutations_app. unfold mutations at 2. simpl. lia.
Qed.

End Registry.

(** C3.  [ensureSelectOption] does nothing when the option name normalizes
    to absent; once the schema is read it does nothing more when the
    property is missing, when its kind is neither select nor multi_select,
    or when an option equal up to case exists already; otherwise it issues
    exactly one mutation, whose option list is the list it read with the new
    option appended at the end; when the mutation succeeds the cache is
    dropped and read again at once, after which the same option requires no
    further mutation. *)
Theorem ensureSelectOption_spec (propertyName : string) (rawOption : value) (w : world) :
  (normalizeOptionName rawOption = None →
   ensureSelectOption propertyName rawOption w = (Ok (), w))
  ∧ (∀ o d w1,
       normalizeOptionName rawOption = Some o →
       getDatabase w = (Ok d, w1) →
       (dbSchemaCache w = Some d → w1 = w)
       ∧ notion w1 = notion w
       ∧ mutations (trace w1) = mutations (trace w)
       ∧ (lookup_property propertyName d = None →
          ensureSelectOption propertyName rawOption w = (Ok (), w1))
       ∧ (∀ prop,
            lookup_property propertyName d = Some prop →
            (¬ categorical (type prop) →
             ensureSelectOption propertyName rawOption w = (Ok (), w1))
            ∧ (option_exists (options prop) o = true →
               ensureSelectOption propertyName rawOption w = (Ok (), w1))
            ∧ (categorical (type prop) →
               option_exists (options prop) o = false →
               let mutation :=
                 PatchDatabase propertyName (type prop) (options prop ++ [o])%list in
               let out := ensureSelectOption propertyName rawOption w in
               ∃ st,
                 mutations (trace out.2) = S (mutations (trace w1))
                 ∧ (((∃ e, out.1 = Throw e) ∧ ok_status st = false
                     ∧ trace out.2 = (trace w1 ++ [Fetch mutation st])%list
                     ∧ dbSchemaCache out.2 = dbSchemaCache w1)
                    ∨ (∃ e st', out.1 = Throw e ∧ ok_status st = true
                       ∧ ok_status st' = false
                       ∧ trace out.2
                         = (trace w1 ++ [Fetch mutation st; Fetch GetDatabase st'])%list
                       ∧ dbSchemaCache out.2 = None)
                    ∨ (out.1 = Ok () ∧ ok_status st = true
                       ∧ trace out.2
                         = (trace w1 ++ [Fetch mutation st; Fetch GetDatabase 200%Z])%list
                       ∧ dbSchemaCache out.2 = Some (db (notion out.2))
                       ∧ (db (notion w1) = d →
                          lookup_property propertyName (db (notion out.2))
                          = Some {| type := type prop;
                                    options := (options prop ++ [o])%list |}
                          ∧ ensureSelectOption propertyName rawOption out.2
                            = (Ok (), out.2))))))).
Proof.
  split; [apply ensureSelectOption_absent|].
  intros o d w1 Hnorm Hdb.
  destruct (getDatabase_ok_frame w d w1 Hdb) as (Hnotion & _ & Hmut & Hwarm).
  pose proof (ensureSelectOption_unfold propertyName rawOption w o d w1 Hnorm Hdb) as Hens.
  split; [exact Hwarm|]. split; [exact Hnotion|]. split; [exact Hmut|]. split.
  { intros Hnone. by rewrite Hens, Hnone. }
  intros prop Hprop. rewrite Hprop in Hens. split; [|split].
  - intros Hkind. rewrite Hens.
    destruct (negb (bool_decide (type prop = "select"))
              && negb (bool_decide (type prop = "multi_select"))) eqn:Htest;
      [reflexivity|].
    by apply categorical_test in Htest.
  - intros Hexists. rewrite Hens, Hexists. by destruct (_ && _).
  - intros Hkind Hnew. by apply (ensureSelectOption_mutates _ _ _ _ d).
Qed.

Lemma ensureSelectOption_spec_witness :
  (ensureSelectOption "Status" (VStr "  ") (boot small_notion [] 0)
   = (Ok (), boot small_notion [] 0))
  ∧ (ensureSelectOption "Status" (VStr "todo") (boot small_notion [] 0)
     = (Ok (), (getDatabase (boot small_notion [] 0)).2))
  ∧ mutations (trace (ensureSelectOption "Status" (VStr " Blocked ")
                        (boot small_notion [] 0)).2) = 1.
Proof.
  split; [|split].
  - apply (ensureSelectOption_spec "Status" (VStr "  ") (boot small_notion [] 0)).
    reflexivity.
  - destruct (ensureSelectOption_spec "Status" (VStr "todo") (boot small_notion [] 0))
      as [_ Hsome].
    destruct (Hsome "todo" (db small_notion) (getDatabase (boot small_notion [] 0)).2
                eq_refl eq_refl) as (_ & _ & _ & _ & Hprop).
    destruct (Hprop {| type := "select"; options := ["Todo"; "Done"] |} eq_refl)
      as (_ & Hexists & _).
    apply Hexists. reflexivity.
  - destruct (ensureSelectOption_spec "Status" (VStr " Blocked ")
                (boot small_notion [] 0)) as [_ Hsome].
    destruct (Hsome "Blocked" (db small_notion) (getDatabase (boot small_notion [] 0)).2
                eq_refl eq_refl) as (_ & _ & _ & _ & Hprop).
    destruct (Hprop {| type := "select"; options := ["Todo"; "Done"] |} eq_refl)
      as (_ & _ & Hnew).
    destruct (Hnew (or_introl eq_refl) eq_refl) as (st & Hcount & _).
    exact Hcount.
Defined.

(** ** Writes and the rate limit *)

Section Writes.

Lemma serve_status req n :
  status (serve req n).1 = 200%Z ∨ status (serve req n).1 = 400%Z
  ∨ status (serve req n).1 = 404%Z.
Proof.
  destruct req; simpl; auto;
    repeat (match goal with |- context [match ?x with _ => _ end] => destruct x end);
    simpl; auto.
Qed.

Lemma answer_not_limited req sc n :
  not_limited sc → status (answer req sc n).1 ≠ 429%Z.
Proof.
  intros Hsc. destruct (answer_cases req sc n)
    as [-> | (st & t & later & -> & _ & ->)].
  - destruct (serve_status req n) as [-> | [-> | ->]]; done.
  - simpl. apply (Hsc (st, t)). reflexivity.
Qed.

Lemma doFetch_once fuel req w :
  not_limited (script w) → doFetch fuel req w = fetch req w.
Proof.
  intros Hsc. pose proof (answer_not_limited req (script w) (notion w) Hsc) as Hst.
  destruct fuel; simpl; unfold mbind, M_bind, fetch;
    by rewrite bool_decide_eq_false_2.
Qed.

Lemma retried_succ req k rest later t w :
  script w = (429%Z, t) :: later →
  retried req k rest (sleep 500 (fetch req w).2).2 = retried req (S k) rest w.
Proof.
  intros Hsc. unfold retried, sleep, modify, fetch. simpl. rewrite Hsc. simpl.
  f_equal; [by rewrite <- !app_assoc|lia].
Qed.

Lemma doFetch_retries texts : ∀ fuel req w rest,
  script w = (rate_limited texts ++ rest)%list →
  List.length texts ≤ fuel →
  not_limited rest →
  doFetch fuel req w = fetch req (retried req (List.length texts) rest w).
Proof.
  induction texts as [|t texts IH]; intros fuel req w rest Hsc Hfuel Hrest.
  - simpl in Hsc. rewrite doFetch_once by (by rewrite Hsc).
    unfold retried. simpl. rewrite app_nil_r, N.add_0_r, <- Hsc. by destruct w.
  - simpl in Hsc. destruct fuel as [|fuel]; [simpl in Hfuel; lia|].
    cbn [doFetch]. unfold mbind at 1, M_bind at 1.
    assert (fetch req w
            = (Ok (reply 429 t JOther), (fetch req w).2)) as Hfetch.
    { unfold fetch. by rewrite Hsc. }
    rewrite Hfetch. cbn [status reply]. rewrite bool_decide_eq_true_2 by done.
    unfold mbind, M_bind. cbn [sleep modify].
    change (doFetch fuel req (sleep 500 (fetch req w).2).2
            = fetch req (retried req (List.length (t :: texts)) rest w)).
    rewrite (IH fuel req _ rest).
    + by erewrite retried_succ.
    + unfold fetch. simpl. by rewrite Hsc.
    + simpl in Hfuel. lia.
    + done.
Qed.

(** A write after [k] refusals with 429 is the single call made
    [500 k] ms later, whatever that call answers. *)
Lemma notionWrite_retries req w texts rest :
  script w = (rate_limited texts ++ rest)%list →
  not_limited rest →
  let k := List.length texts in
  let a := answer req rest (notion w) in
  notionWrite req w
  = (if ok a.1 then Ok (body a.1) else Throw (write_error req a.1),
     {| dbSchemaCache := dbSchemaCache w; summary := summary w; notion := a.2;
        script := tail rest;
        trace := trace w ++ mjoin (replicate k [Fetch req 429%Z; Sleep 500])
                 ++ [Fetch req (status a.1)];
        clock := (clock w + 500 * N.of_nat k)%N |}).
Proof.
  intros Hsc Hrest k a. unfold notionWrite, mbind, M_bind, gets.
  rewrite (doFetch_retries texts _ req w rest Hsc); [|rewrite Hsc; unfold rate_limited; rewrite length_app, length_fmap; lia|done].
  unfold fetch, retried. simpl. fold a. fold k.
  rewrite <- app_assoc. by destruct (ok a.1).
Qed.

End Writes.

(** ** Steps that leave the pages and the summary alone *)

Section Quiet.

#[global] Instance quiet_preorder : PreOrder quiet.
Proof.
  split.
  - by intros w.
  - intros w1 w2 w3 (H1 & H2 & H3 & H4) (H1' & H2' & H3' & H4').
    repeat split; congruence.
Qed.

Lemma quietly_ret {A} (a : A) : quietly (mret a).
Proof. by intros w. Qed.

Lemma quietly_throw {A} e : quietly (@throw A e).
Proof. by intros w. Qed.

Lemma quietly_gets {A} (f : world → A) : quietly (gets f).
Proof. by intros w. Qed.

Lemma quietly_bind {A B} (m : M A) (f : A → M B) :
  quietly m → (∀ a, quietly (f a)) → quietly (m ≫= f).
Proof.
  intros Hm Hf w. unfold mbind, M_bind. specialize (Hm w).
  destruct (m w) as [[a|e] w1]; simpl in *; [|done].
  etrans; [exact Hm|apply Hf].
Qed.

Lemma quietly_with_cache c : quietly (modify (with_cache c)).
Proof. by intros w. Qed.


Lemma has_issue_id_of ident p :
  has_issue_id ident p = bool_decide (issue_id_of p = Some ident).
Proof.
  unfold has_issue_id, issue_id_of.
  destruct (page_props p !! "Linear Issue ID") as [[]|];
    try (by rewrite bool_decide_eq_false_2).
  apply bool_decide_ext. split; [by intros ->|by intros [=]].
Qed.

Lemma has_page_keys ident n :
  has_page ident n = true ↔ ∃ i, (i, Some ident) ∈ keys n.
Proof.
  unfold has_page, keys. rewrite existsb_exists. split.
  - intros (p & Hp & Hid). rewrite has_issue_id_of in Hid.
    apply bool_decide_eq_true in Hid. exists (page_id p).
    apply list_elem_of_fmap. exists p. rewrite Hid. split; [done|].
    by apply list_elem_of_In.
  - intros (i & Hi). apply list_elem_of_fmap in Hi as (p & [= -> Hid] & Hp).
    exists p. split; [by apply list_elem_of_In|].
    rewrite has_issue_id_of. by apply bool_decide_eq_true.
Qed.

Lemma answer_on_database req sc n :
  on_database req →
  pages (answer req sc n).2 = pages n ∧ next_id (answer req sc n).2 = next_id n.
Proof.
  intros Hreq.
  destruct (answer_cases req sc n) as [-> | (st & t & later & -> & _ & ->)];
    [|done].
  destruct req; try done; simpl.
  by destruct (lookup_property _ _).
Qed.

Lemma quietly_fetch req : on_database req → quietly (fetch req).
Proof.
  intros Hreq w. destruct (answer_on_database req (script w) (notion w) Hreq)
    as [Hpages Hnext].
  repeat split; simpl.
  - unfold keys. by rewrite Hpages.
  - exact Hnext.
  - rewrite posts_app. unfold posts at 2. destruct req; try done; simpl; lia.
Qed.

Ltac quiet_steps :=
  repeat first
    [ apply quietly_ret | apply quietly_throw | apply quietly_gets
    | apply quietly_with_cache
    | apply quietly_fetch; exact I
    | apply quietly_bind; [|intros ?]
    | match goal with
      | |- quietly (match ?x with _ => _ end) => destruct x
      | |- quietly (if ?b then _ else _) => destruct b
      end ].

Lemma quietly_getDatabase : quietly getDatabase.
Proof. unfold getDatabase. quiet_steps. Qed.

Lemma quietly_getTitlePropertyName : quietly getTitlePropertyName.
Proof. unfold getTitlePropertyName. quiet_steps. Qed.

Lemma quietly_ensureSelectOption propertyName rawOption :
  quietly (ensureSelectOption propertyName rawOption).
Proof. unfold ensureSelectOption. quiet_steps. Qed.

Lemma quietly_when v m : (∀ s, quietly (m s)) → quietly (when v m).
Proof. intros Hm. unfold when. destruct (truthy v); [apply Hm|apply quietly_ret]. Qed.

Lemma quietly_findPageByIssueId ident : quietly (findPageByIssueId ident).
Proof. unfold findPageByIssueId. quiet_steps. Qed.

Lemma quietly_nowISO : quietly nowISO.
Proof. apply quietly_gets. Qed.

Lemma quietly_prepare issue : quietly (prepare issue).
Proof.
  unfold prepare.
  repeat (apply quietly_bind;
          [first [ apply quietly_when; intros ?; apply quietly_ensureSelectOption
                 | apply quietly_getTitlePropertyName | apply quietly_nowISO
                 | apply quietly_getDatabase | apply quietly_findPageByIssueId ]
          | intros ? ]).
  apply quietly_ret.
Qed.

End Quiet.

(** ** Writes on pages *)

Section PageWrites.

Lemma app_empty_r s : s +:+ "" = s.
Proof. induction s as [|c s IH]; [done|]. by rewrite app_cons, IH. Qed.

Lemma script_split (sc : list (Z * string)) :
  ∃ texts rest, sc = (rate_limited texts ++ rest)%list ∧ not_limited rest.
Proof.
  induction sc as [|[st t] sc (texts & rest & -> & Hrest)].
  - exists [], []. split; [done|]. by intros e.
  - destruct (decide (st = 429%Z)) as [->|Hst].
    + by exists (t :: texts), rest.
    + exists [], ((st, t) :: rate_limited texts ++ rest)%list. split; [done|].
      by intros e [= <-].
Qed.

Lemma serve_refusal req n : ok (serve req n).1 = false → (serve req n).2 = n.
Proof.
  destruct req; simpl; try done;
    repeat (match goal with |- context [match ?x with _ => _ end] => destruct x end);
    done.
Qed.

Lemma posts_retries req k st :
  (∀ props, req ≠ PostPage props) →
  posts (mjoin (replicate k [Fetch req 429%Z; Sleep 500]) ++ [Fetch req st]) = 0.
Proof.
  intros Hreq. rewrite posts_app.
  assert (is_post (Fetch req 429%Z) = false ∧ is_post (Fetch req st) = false)
    as [H429 Hst].
  { destruct req; try done. by destruct (Hreq props). }
  assert (∀ e t, posts (e :: t) = (if is_post e then 1 else 0) + posts t) as Hcons.
  { intros e t. unfold posts. cbn [List.filter]. by destruct (is_post e). }
  rewrite (Hcons _ []), Hst. change (posts []) with 0.
  assert (posts (mjoin (replicate k [Fetch req 429%Z; Sleep 500])) = 0) as ->; [|done].
  induction k as [|k IH]; [done|].
  change (posts (Fetch req 429%Z :: Sleep 500
                 :: mjoin (replicate k [Fetch req 429%Z; Sleep 500])) = 0).
  by rewrite !Hcons, H429, IH.
Qed.

(** A write either throws and leaves the service as it was, or is served
    exactly once. *)
Lemma notionWrite_cases req w :
  let out := notionWrite req w in
  summary out.2 = summary w
  ∧ dbSchemaCache out.2 = dbSchemaCache w
  ∧ ((∀ props, req ≠ PostPage props) → posts (trace out.2) = posts (trace w))
  ∧ (((∃ e, out.1 = Throw e) ∧ notion out.2 = notion w)
     ∨ (out.1 = Ok (body (serve req (notion w)).1)
        ∧ ok (serve req (notion w)).1 = true
        ∧ notion out.2 = (serve req (notion w)).2)).
Proof.
  destruct (script_split (script w)) as (texts & rest & Hsc & Hrest).
  intros out. unfold out.
  rewrite (notionWrite_retries req w texts rest Hsc Hrest). simpl.
  split; [done|]. split; [done|]. split.
  { intros Hreq. rewrite posts_app, posts_retries by done. lia. }
  destruct (answer_cases req rest (notion w))
    as [-> | (st & t & later & -> & Hst & ->)].
  - destruct (ok (serve req (notion w)).1) eqn:Hok.
    + by right.
    + left. split; [by eexists|]. by apply serve_refusal.
  - left. unfold ok. simpl. rewrite Hst. split; [by eexists|done].
Qed.

Lemma keys_update_page i f ps :
  (∀ q, q ∈ ps → page_id q = i →
        page_id (f q) = page_id q ∧ issue_id_of (f q) = issue_id_of q) →
  (λ p, (page_id p, issue_id_of p)) <$> update_page i f ps
  = (λ p, (page_id p, issue_id_of p)) <$> ps.
Proof.
  intros Hf. unfold update_page. rewrite <- list_fmap_compose.
  apply list_fmap_ext. intros k q Hq%list_elem_of_lookup_2. simpl.
  case_bool_decide as Hi; [|done].
  by destruct (Hf q Hq Hi) as [-> ->].
Qed.

Lemma issue_id_of_patch_None props q :
  props !! "Linear Issue ID" = None →
  issue_id_of (patch_props props q) = issue_id_of q.
Proof.
  intros Hnone. unfold issue_id_of, patch_props. simpl.
  by rewrite lookup_union_r.
Qed.

Lemma issue_id_of_patch_Some props q ident :
  props !! "Linear Issue ID" = Some (PRichText [Text ident]) →
  issue_id_of (patch_props props q) = Some ident.
Proof.
  intros Hsome. unfold issue_id_of, patch_props. simpl.
  rewrite (lookup_union_Some_l _ _ _ _ Hsome). simpl. by rewrite app_empty_r.
Qed.

Lemma serve_plain_patch req n :
  plain_patch req →
  keys (serve req n).2 = keys n ∧ next_id (serve req n).2 = next_id n.
Proof.
  destruct req as [| | | |pid props|pid blocks]; try done; simpl; intros Hreq.
  - destruct (find_page pid (pages n)); [|done]. simpl. split; [|done].
    unfold keys. simpl. apply keys_update_page. intros q _ _.
    split; [done|]. by apply issue_id_of_patch_None.
  - destruct (find_page pid (pages n)); [|done]. simpl. split; [|done].
    unfold keys. simpl. by apply keys_update_page.
Qed.

Lemma quietly_plain_patch req : plain_patch req → quietly (notionWrite req).
Proof.
  intros Hreq w.
  destruct (notionWrite_cases req w) as (Hsum & _ & Hposts & Hcases).
  destruct (serve_plain_patch req (notion w) Hreq) as [Hkeys Hnext].
  repeat split; [done| | |apply Hposts; by destruct req].
  - destruct Hcases as [[_ ->]|(_ & _ & ->)]; done.
  - destruct Hcases as [[_ ->]|(_ & _ & ->)]; done.
Qed.

Lemma wf_unique n i k k' :
  wf_notion n → (i, k) ∈ keys n → (i, k') ∈ keys n → k = k'.
Proof.
  intros [Hnodup _] Hk Hk'.
  apply list_elem_of_lookup in Hk as [a Ha].
  apply list_elem_of_lookup in Hk' as [b Hb].
  assert (a = b) as ->; [|congruence].
  eapply NoDup_lookup; [exact Hnodup|..].
  - by rewrite list_lookup_fmap, Ha.
  - by rewrite list_lookup_fmap, Hb.
Qed.

(** The update of [upsert]: the page found under an issue id is patched
    with properties that carry the same issue id. *)
Lemma quiet_update w i ident props :
  wf_notion (notion w) →
  (i, Some ident) ∈ keys (notion w) →
  props !! "Linear Issue ID" = Some (PRichText [Text ident]) →
  quiet w (notionWrite (PatchPage (Some i) props) w).2.
Proof.
  intros Hwf Hi Hprops.
  destruct (notionWrite_cases (PatchPage (Some i) props) w)
    as (Hsum & _ & Hposts & Hcases).
  assert (keys (serve (PatchPage (Some i) props) (notion w)).2 = keys (notion w)
          ∧ next_id (serve (PatchPage (Some i) props) (notion w)).2
            = next_id (notion w)) as [Hkeys Hnext].
  { simpl. destruct (List.find _ _) as [p|] eqn:Hfind; [|done]. simpl.
    split; [|done]. unfold keys. simpl. apply keys_update_page.
    intros q Hq Hqi. split; [done|].
    rewrite (issue_id_of_patch_Some _ _ ident Hprops). symmetry.
    apply find_some in Hfind as [_ Hp%bool_decide_eq_true].
    apply (wf_unique (notion w) i); [done| |done].
    apply list_elem_of_fmap. exists q. split; [|done]. f_equal. congruence. }
  repeat split; [done| | |by apply Hposts].
  - destruct Hcases as [[_ ->]|(_ & _ & ->)]; done.
  - destruct Hcases as [[_ ->]|(_ & _ & ->)]; done.
Qed.

(** The create of [upsert]. *)
Lemma notionWrite_create props w ident :
  props !! "Linear Issue ID" = Some (PRichText [Text ident]) →
  let out := notionWrite (PostPage props) w in
  summary out.2 = summary w
  ∧ (((∃ e, out.1 = Throw e) ∧ notion out.2 = notion w)
     ∨ ((∃ j, out.1 = Ok j ∧ json_id j = Some (next_id (notion w)))
        ∧ keys (notion out.2) = (keys (notion w) ++ [(next_id (notion w), Some ident)])%list
        ∧ next_id (notion out.2) = N.succ (next_id (notion w)))).
Proof.
  intros Hprops out.
  destruct (notionWrite_cases (PostPage props) w) as (Hsum & _ & _ & Hcases).
  split; [done|]. destruct Hcases as [Hthrow|(Hok & _ & Hnotion)]; [by left|].
  right. fold out in Hok, Hnotion. rewrite Hnotion. simpl. split; [by eexists|].
  split; [|done]. unfold keys. simpl. rewrite fmap_app. simpl. do 3 f_equal.
  unfold issue_id_of. simpl. rewrite Hprops. simpl. by rewrite app_empty_r.
Qed.

End PageWrites.

(** ** Upsert *)

Section Upsert.

Variable REQUIRED_LABEL : string.

Ltac quiet_chain :=
  first [ apply quietly_nowISO | apply quietly_ret
        | apply quietly_plain_patch; first [exact I | by apply lookup_singleton_ne]
        | apply quietly_bind; [quiet_chain | intros ?; quiet_chain] ].

Lemma bind_inv {A B} (m : M A) (f : A → M B) w b w' :
  (m ≫= f) w = (Ok b, w') → ∃ a w1, m w = (Ok a, w1) ∧ f a w1 = (Ok b, w').
Proof.
  unfold mbind, M_bind. destruct (m w) as [[a|e] w1]; [|done]. by exists a, w1.
Qed.

Lemma findPageByIssueId_ok ident w res w' :
  findPageByIssueId ident w = (Ok res, w') →
  res = head (List.filter (has_issue_id ident) (pages (notion w')))
  ∧ script w' = tail (script w).
Proof.
  unfold findPageByIssueId, mbind, M_bind, fetch.
  destruct (answer_cases (QueryDatabase ident) (script w) (notion w))
    as [-> | (st & t & later & -> & Hst & ->)]; simpl.
  - intros [= <- <-]. simpl. split; [|done]. by destruct (List.filter _ _).
  - unfold ok. simpl. by rewrite Hst.
Qed.

Lemma props_issue_id d titlePropName now issue :
  copy_title d issue (build_props titlePropName now issue) !! "Linear Issue ID"
  = Some (PRichText [Text (identifier issue)]).
Proof.
  rewrite copy_title_lookup_ne by done.
  change (build_props titlePropName now issue) with
    (fold_left (λ (m : gmap string propval) e, <[e.1 := e.2]> m)
       ([ ("Linear URL", PUrl (url issue)) ]
        ++ spread_select "Status" (statusName (map_fields issue))
        ++ spread_select "Priority" (priorityVal (map_fields issue))
        ++ spread_date "Due Date" (dueDate issue)
        ++ spread_select "Module" (moduleNorm (map_fields issue))
        ++ spread_select "Sub-Area" (subareaNorm (map_fields issue))
        ++ spread_select "Type" (typeNorm (map_fields issue))
        ++ spread_select "Cycle" (cycleNorm (map_fields issue))
        ++ [ ("Last Sync", PDate now (Some "Europe/Berlin"));
             ("Description",
              PRichText (toRichTextArray (or_undef (description issue) ""))) ])%list
       (<["Linear Issue ID" := PRichText [Text (identifier issue)]]>
          (<[titlePropName := PTitle [Text (or_str (title issue) "")]]> ∅))).
  rewrite fold_insert_lookup_ne; [by rewrite lookup_insert_eq|].
  intros e He.
  repeat (apply elem_of_cons in He as [->|He] || apply elem_of_app in He as [He|He]);
    try (apply elem_of_spread_select in He as [-> _]);
    try (apply elem_of_spread_date in He as [-> _]);
    try (by apply elem_of_nil in He); done.
Qed.

Lemma prepare_ok issue w props existing w1 :
  prepare issue w = (Ok (props, existing), w1) →
  existing = head (List.filter (has_issue_id (identifier issue)) (pages (notion w1)))
  ∧ props !! "Linear Issue ID" = Some (PRichText [Text (identifier issue)]).
Proof.
  unfold prepare. intros H.
  do 9 (apply bind_inv in H as (? & ? & _ & H)).
  apply bind_inv in H as (res & w2 & Hfind & H).
  injection H as <- <- <-.
  split; [by apply findPageByIssueId_ok in Hfind as [-> _]|apply props_issue_id].
Qed.

Lemma prepare_props issue w props existing w1 :
  prepare issue w = (Ok (props, existing), w1) →
  ∃ d titlePropName now,
    props = copy_title d issue (build_props titlePropName now issue).
Proof.
  unfold prepare. intros H.
  do 10 (apply bind_inv in H as (? & ? & _ & H)).
  injection H as <- <- <-. by eexists _, _, _.
Qed.

Lemma head_filter_Some ident ps p :
  head (List.filter (has_issue_id ident) ps) = Some p →
  p ∈ ps ∧ issue_id_of p = Some ident.
Proof.
  intros Hhead. assert (p ∈ List.filter (has_issue_id ident) ps) as Hp.
  { destruct (List.filter _ _); [done|]. injection Hhead as ->. by left. }
  apply list_elem_of_In, filter_In in Hp as [Hp Hid]. rewrite has_issue_id_of in Hid.
  split; [by apply list_elem_of_In|by apply bool_decide_eq_true in Hid].
Qed.

Lemma head_filter_None ident n :
  head (List.filter (has_issue_id ident) (pages n)) = None → has_page ident n = false.
Proof.
  intros Hhead. unfold has_page. apply not_true_is_false.
  intros (p & Hp & Hid)%existsb_exists.
  assert (p ∈ List.filter (has_issue_id ident) (pages n)) as Hin.
  { apply list_elem_of_In, filter_In. by split. }
  destruct (List.filter _ _); [by apply elem_of_nil in Hin|done].
Qed.

Lemma quiet_has_page w w' ident :
  quiet w w' → has_page ident (notion w') = has_page ident (notion w).
Proof.
  intros (_ & Hkeys & _). apply eq_true_iff_eq. rewrite !has_page_keys.
  by rewrite Hkeys.
Qed.

Lemma quiet_wf w w' : quiet w w' → wf_notion (notion w) → wf_notion (notion w').
Proof. intros (_ & Hkeys & Hnext & _). unfold wf_notion. by rewrite Hkeys, Hnext. Qed.

(** What follows the first write of [commit]: the comment and the second
    [Last Sync]. *)
Lemma commit_tail issue written :
  let tail :=
    appendSyncComment written.1 issue
      (cycleVal (mapExtras (labels_of issue) (or_undef (cycle_name issue) "")));;
    now ← nowISO;
    notionWrite (PatchPage written.1
      {[ "Last Sync" := PDate now (Some "Europe/Berlin") ]});;
    mret {| action := written.2; pageId := written.1 |} in
  quietly tail
  ∧ ∀ w res, (tail w).1 = Ok res → res = {| action := written.2; pageId := written.1 |}.
Proof.
  intros tail. split.
  - unfold tail, appendSyncComment. quiet_chain.
  - intros w res. unfold tail, mbind, M_bind.
    repeat (match goal with
            | |- context [match ?x with _ => _ end] => destruct x; simpl
            end); try done.
    by intros [= <-].
Qed.

Lemma wf_snoc n n' k :
  wf_notion n →
  keys n' = (keys n ++ [(next_id n, k)])%list →
  next_id n' = N.succ (next_id n) →
  wf_notion n'.
Proof.
  intros [Hnodup Hbound] Hkeys Hnext. unfold wf_notion.
  rewrite Hkeys, Hnext, fmap_app. split.
  - apply NoDup_app. split; [done|]. split; [|apply NoDup_singleton].
    intros i Hi ->%list_elem_of_singleton.
    apply list_elem_of_fmap in Hi as ([i' k'] & Heq & Hi). simpl in Heq. subst i'.
    rewrite Forall_forall in Hbound. specialize (Hbound _ Hi). simpl in Hbound. lia.
  - apply Forall_app. split.
    + eapply Forall_impl; [exact Hbound|]. intros ? ?. simpl in *. lia.
    + apply Forall_singleton. simpl. lia.
Qed.

Lemma commit_spec issue props existing w :
  props !! "Linear Issue ID" = Some (PRichText [Text (identifier issue)]) →
  existing = head (List.filter (has_issue_id (identifier issue)) (pages (notion w))) →
  let out := commit issue props existing w in
  summary out.2 = summary w
  ∧ (∀ res, out.1 = Ok res →
       match existing with
       | Some p => res = {| action := Updated; pageId := Some (page_id p) |}
       | None => action res = Created
       end)
  ∧ (wf_notion (notion w) →
     wf_notion (notion out.2)
     ∧ (∃ extra, keys (notion out.2) = (keys (notion w) ++ extra)%list)
     ∧ (is_Some existing → quiet w out.2)
     ∧ (∀ res, out.1 = Ok res → has_page (identifier issue) (notion out.2) = true)).
Proof.
  intros Hprops Hex out. unfold out, commit. clear out.
  destruct existing as [p|].
  - symmetry in Hex. apply head_filter_Some in Hex as [Hp Hid].
    assert ((page_id p, Some (identifier issue)) ∈ keys (notion w)) as Hkey.
    { apply list_elem_of_fmap. exists p. by rewrite Hid. }
    destruct (commit_tail issue (Some (page_id p), Updated)) as [Hquiet Haction].
    destruct (notionWrite_cases (PatchPage (Some (page_id p)) props) w)
      as (Hsum & _ & _ & _).
    pose proof (quiet_update w (page_id p) (identifier issue) props) as Hupd.
    destruct (notionWrite (PatchPage (Some (page_id p)) props) w)
      as [[j|e] w1] eqn:Hw; simpl in Hsum, Hupd.
    + erewrite bind_ok; [|by erewrite bind_ok].
      set (tail := mbind _ _) in *. specialize (Hquiet w1).
      split; [destruct Hquiet as [-> _]; done|].
      split; [apply Haction|]. intros Hwf. specialize (Hupd Hwf Hkey Hprops).
      assert (quiet w (tail w1).2) as Hall by (by etrans).
      split; [by eapply quiet_wf|]. split.
      { exists []. rewrite app_nil_r. by destruct Hall as (_ & -> & _). }
      split; [done|]. intros res _.
      rewrite (quiet_has_page w _ _ Hall). apply has_page_keys. by eexists.
    + erewrite bind_throw; [|by erewrite bind_throw]. simpl.
      split; [done|]. split; [done|]. intros Hwf. specialize (Hupd Hwf Hkey Hprops).
      split; [by eapply quiet_wf|]. split.
      { exists []. rewrite app_nil_r. by destruct Hupd as (_ & -> & _). }
      done.
  - destruct (notionWrite_create props w (identifier issue) Hprops) as [Hsum Hcases].
    destruct (notionWrite (PostPage props) w) as [[j|e] w1] eqn:Hw;
      simpl in Hsum, Hcases.
    + destruct Hcases as [[[e He] _]|((j' & Hj & Hid) & Hkeys & Hnext)]; [done|].
      injection Hj as <-.
      destruct (commit_tail issue (json_id j, Created)) as [Hquiet Haction].
      erewrite bind_ok; [|by erewrite bind_ok].
      set (tail := mbind _ _) in *. specialize (Hquiet w1).
      split; [destruct Hquiet as [-> _]; done|].
      split; [by intros res ->%Haction|]. intros Hwf.
      assert (wf_notion (notion w1)) as Hwf1 by (by eapply wf_snoc).
      split; [by eapply quiet_wf|]. split.
      { eexists. destruct Hquiet as (_ & -> & _). exact Hkeys. }
      split; [by intros [? ?]|]. intros res _.
      rewrite (quiet_has_page w1 _ _ Hquiet). apply has_page_keys.
      exists (next_id (notion w)). rewrite Hkeys. apply elem_of_app. right. by left.
    + destruct Hcases as [[_ Hnotion]|[(j' & Hj & _) _]]; [|done].
      erewrite bind_throw; [|by erewrite bind_throw]. simpl.
      split; [done|]. split; [done|]. intros Hwf. rewrite Hnotion.
      split; [done|]. split; [exists []; by rewrite app_nil_r|].
      split; [by intros [? ?]|done].
Qed.

(** [upsert] on a record that carries the required label. *)
Lemma upsert_spec issue w :
  hasRequired REQUIRED_LABEL issue = true →
  let out := upsert REQUIRED_LABEL issue w in
  summary out.2 = summary w
  ∧ (∀ res, out.1 = Ok res →
       if has_page (identifier issue) (notion w)
       then action res = Updated
            ∧ ∃ i, pageId res = Some i
                   ∧ (i, Some (identifier issue)) ∈ keys (notion w)
       else action res = Created)
  ∧ (wf_notion (notion w) →
     wf_notion (notion out.2)
     ∧ (∃ extra, keys (notion out.2) = (keys (notion w) ++ extra)%list)
     ∧ (has_page (identifier issue) (notion w) = true → quiet w out.2)
     ∧ (∀ res, out.1 = Ok res → has_page (identifier issue) (notion out.2) = true)).
Proof.
  intros Hgate out. unfold out, upsert. rewrite Hgate. cbn [negb]. cbv iota.
  pose proof (quietly_prepare issue w) as Hprep.
  destruct (prepare issue w) as [[[props existing]|e] w1] eqn:Hw; simpl in Hprep.
  2:{ erewrite bind_throw by done. simpl.
      split; [by destruct Hprep as [-> _]|]. split; [done|]. intros Hwf.
      split; [by eapply quiet_wf|]. split; [|done].
      exists []. rewrite app_nil_r. by destruct Hprep as (_ & -> & _). }
  erewrite bind_ok by done. simpl.
  destruct (prepare_ok issue w props existing w1 Hw) as [Hex Hprops].
  destruct (commit_spec issue props existing w1 Hprops Hex)
    as (Hsum & Haction & Hrest).
  assert (has_page (identifier issue) (notion w) = bool_decide (is_Some existing)
          ∧ ∀ p, existing = Some p →
                 (page_id p, Some (identifier issue)) ∈ keys (notion w))
    as [Hhas Hfound].
  { rewrite <- (quiet_has_page w w1 _ Hprep). destruct existing as [p|].
    - rewrite bool_decide_eq_true_2 by done. symmetry in Hex.
      apply head_filter_Some in Hex as [Hp Hid].
      assert ((page_id p, Some (identifier issue)) ∈ keys (notion w1)) as Hkey.
      { apply list_elem_of_fmap. exists p. by rewrite Hid. }
      split; [apply has_page_keys; by eexists|].
      intros ? [= <-]. by destruct Hprep as (_ & <- & _).
    - rewrite bool_decide_eq_false_2 by (by intros [? ?]).
      split; [by apply head_filter_None|done]. }
  split; [destruct Hprep as [<- _]; done|]. split.
  { intros res Hres. specialize (Haction res Hres). rewrite Hhas.
    destruct existing as [p|].
    - rewrite bool_decide_eq_true_2 by done. subst res. simpl.
      split; [done|]. exists (page_id p). split; [done|]. by apply Hfound.
    - by rewrite bool_decide_eq_false_2 by (by intros [? ?]). }
  intros Hwf. destruct (Hrest (quiet_wf _ _ Hprep Hwf)) as (Hwf' & [extra Hkeys] & Hq & Hpage).
  split; [done|]. split.
  { exists extra. by destruct Hprep as (_ & <- & _). }
  split; [|done]. rewrite Hhas. intros Hsome%bool_decide_eq_true.
  etrans; [exact Hprep|by apply Hq].
Qed.

End Upsert.

(** C6, as stated, fails for the description: a record without a
    description is written with a [Description] key that holds an empty
    rich text. *)
Lemma build_props_description_counterexample :
  description bare_issue = None
  ∧ copy_title {| properties := [] |} bare_issue
      (build_props "Name" "0" bare_issue) !! "Description"
    = Some (PRichText []).
Proof. split; [reflexivity|]. vm_compute. reflexivity. Qed.

(** C6, amended.  The properties [upsert] sends are, for every record,
    the object literal completed by the copy of the title.  In them the
    [Description] key is always written, with the chunks of the
    description, none when the description is empty or absent.  A status,
    priority, due date, module, sub-area, type or cycle whose mapped value
    is absent has no key, unless that key is the name of the title property
    of the database, which always carries the title. *)
Theorem build_props_omits_absent (issue : Issue) :
  (∀ w props existing w1,
     prepare issue w = (Ok (props, existing), w1) →
     ∃ d titlePropName now,
       props = copy_title d issue (build_props titlePropName now issue))
  ∧ (∀ d titlePropName now,
       copy_title d issue (build_props titlePropName now issue) !! "Description"
       = Some (PRichText (toRichTextArray (or_undef (description issue) ""))))
  ∧ (description issue = None ∨ description issue = Some "" →
     toRichTextArray (or_undef (description issue) "") = [])
  ∧ (∀ key,
       absent_field issue key →
       ∀ d titlePropName now,
         (key ≠ titlePropName →
          copy_title d issue (build_props titlePropName now issue) !! key = None)
         ∧ (key = titlePropName →
            copy_title d issue (build_props titlePropName now issue) !! key
            = Some (PTitle [Text (or_str (title issue) "")]))).
Proof.
  split; [intros w props existing w1; apply prepare_props|]. split; [|split].
  - intros d titlePropName now. rewrite copy_title_lookup_ne by done.
    unfold build_props. rewrite !app_assoc, object_app. simpl.
    by rewrite lookup_insert_eq.
  - by intros [->| ->].
  - intros key Habsent d titlePropName now.
    destruct (build_props_tail_keys titlePropName now issue) as (rest & Hprops & Hrest).
    assert (key ≠ "Title") as HnotTitle.
    { destruct Habsent as [H|[H|[H|[H|[H|[H|H]]]]]]; destruct H as [-> _]; done. }
    assert (∀ e, e ∈ rest → e.1 ≠ key) as Hkeys.
    { intros e He Heq. specialize (Hrest e He). rewrite Heq in Hrest.
      destruct Habsent as [H|[H|[H|[H|[H|[H|H]]]]]]; destruct H as [-> Hnone];
        destruct_or!; destruct_and?; congruence. }
    split.
    + intros Hne. rewrite copy_title_lookup_ne, Hprops, fold_insert_lookup_ne by done.
      by rewrite lookup_insert_ne.
    + intros <-. rewrite copy_title_lookup_ne, Hprops, fold_insert_lookup_ne by done.
      by rewrite lookup_insert_eq.
Qed.

Lemma build_props_omits_absent_witness :
  copy_title {| properties := [] |} bare_issue
    (build_props "Name" "0" bare_issue) !! "Status" = None
  ∧ toRichTextArray (or_undef (description bare_issue) "") = [].
Proof.
  destruct (build_props_omits_absent bare_issue) as (_ & _ & Hempty & Hkeys).
  split.
  - destruct (Hkeys "Status" ltac:(left; split; reflexivity)
                {| properties := [] |} "Name" "0") as [Hnone _].
    apply Hnone. discriminate.
  - apply Hempty. left. reflexivity.
Defined.

(** ** The driver *)

Section Driver.

Variable REQUIRED_LABEL : string.

Lemma visit_settled issue w :
  (visit REQUIRED_LABEL issue w).2
  = settled issue
      (upsert REQUIRED_LABEL issue (with_summary (incr_processed (summary w)) w)).
Proof.
  unfold visit, settled, try_catch, mbind, M_bind, on_summary, modify. simpl.
  destruct (upsert REQUIRED_LABEL issue _) as [[res|e] w1]; simpl; [|done].
  by destruct (action res).
Qed.

Lemma run_yield issue rest w :
  run REQUIRED_LABEL (Yield issue rest) w
  = run REQUIRED_LABEL rest (visit REQUIRED_LABEL issue w).2.
Proof. reflexivity. Qed.

(** The summary after [upsert], in the world where the record is counted
    as processed. *)
Lemma upsert_summary issue w :
  let out := upsert REQUIRED_LABEL issue w in
  (hasRequired REQUIRED_LABEL issue = false
   ∧ out.1 = Ok {| action := Skipped; pageId := None |}
   ∧ summary out.2
     = push_item ("Skipped (no label): " +:+ identifier issue +:+ " — " +:+ title issue)
         (incr_skippedNoLabel (summary w)))
  ∨ (hasRequired REQUIRED_LABEL issue = true
     ∧ summary out.2 = summary w
     ∧ ∀ res, out.1 = Ok res → action res = Created ∨ action res = Updated).
Proof.
  intros out. destruct (hasRequired REQUIRED_LABEL issue) eqn:Hgate.
  - right. destruct (upsert_spec REQUIRED_LABEL issue w Hgate) as (Hsum & Haction & _).
    split; [done|]. split; [done|]. intros res Hres. specialize (Haction res Hres).
    destruct (has_page _ _); [right; by destruct Haction|by left].
  - left. unfold out. by rewrite (upsert_unlabelled _ _ _ Hgate).
Qed.

Lemma visit_one_outcome issue w :
  one_outcome (summary w) (summary (visit REQUIRED_LABEL issue w).2).
Proof.
  rewrite visit_settled. unfold settled, paused.
  destruct (upsert_summary issue (with_summary (incr_processed (summary w)) w))
    as [(_ & Hres & Hsum)|(_ & Hsum & Hres)].
  - rewrite Hres. simpl. rewrite Hsum. simpl.
    split; [done|]. split; [by eexists|]. tauto.
  - destruct (upsert _ _ _) as [[res|e] w1]; simpl in *.
    + destruct (Hres res eq_refl) as [-> | ->]; simpl; rewrite Hsum; simpl;
        (split; [done|]); (split; [by eexists|]); tauto.
    + rewrite Hsum. simpl. split; [done|]. split; [by eexists|]. tauto.
Qed.

Lemma one_outcome_balanced s s' : one_outcome s s' → balanced s → balanced s'.
Proof.
  intros (Hproc & [line Hline] & Hcases) [Hsum Hlen]. unfold balanced.
  rewrite Hline, length_app, Hproc, Hlen. simpl. split; [|lia].
  destruct Hcases as [H|[H|[H|H]]]; destruct H as (-> & -> & -> & ->); lia.
Qed.

Lemma run_balanced f : ∀ w,
  balanced (summary w) →
  balanced (summary (run REQUIRED_LABEL f w).2)
  ∧ processed (summary (run REQUIRED_LABEL f w).2)
    = processed (summary w) + List.length (yielded f).
Proof.
  induction f as [issue rest IH| |e]; intros w Hw; simpl; [|by split; [|lia]..].
  pose proof (visit_one_outcome issue w) as Hone.
  destruct (IH (visit REQUIRED_LABEL issue w).2) as [Hbal Hproc].
  { by eapply one_outcome_balanced. }
  split; [done|]. rewrite Hproc. destruct Hone as [-> _]. lia.
Qed.

End Driver.

(** C10.  Every record the feed yields ends in exactly one of the four
    outcomes created, updated, skipped for the missing label, errored, and
    adds exactly one line to the itemized log; so after every run the
    processed counter is the sum of the four outcome counters, it is the
    number of lines of the log, and it is the number of records yielded. *)
Theorem summary_accounting (REQUIRED_LABEL : string) :
  (∀ issue w, one_outcome (summary w) (summary (visit REQUIRED_LABEL issue w).2))
  ∧ (∀ replies n sc t0,
       let s := summary (main REQUIRED_LABEL replies n sc t0).2 in
       processed s = created s + updated s + skippedNoLabel s + errors s
       ∧ List.length (items s) = processed s
       ∧ processed s = List.length (yielded (fetchUpdatedIssuesSince replies))).
Proof.
  split; [apply visit_one_outcome|].
  intros replies n sc t0 s. unfold s, main.
  destruct (run_balanced REQUIRED_LABEL (fetchUpdatedIssuesSince replies) (boot n sc t0))
    as [[Hsum Hlen] Hproc]; [by split|].
  by repeat split.
Qed.

(** ** Error propagation *)

Section Propagation.

Variable REQUIRED_LABEL : string.

Lemma yielded_yield_all issues k :
  yielded (yield_all issues k) = (issues ++ yielded k)%list.
Proof. induction issues as [|i issues IH]; simpl; congruence. Qed.

Lemma feed_end_yield_all issues k : feed_end (yield_all issues k) = feed_end k.
Proof. induction issues as [|i issues IH]; simpl; congruence. Qed.

Lemma feed_failure good bad later :
  Forall (λ r, lok r = true ∧ hasNextPage r = true) good →
  lok bad = false →
  yielded (fetchUpdatedIssuesSince (good ++ bad :: later)) = mjoin (nodes <$> good)
  ∧ feed_end (fetchUpdatedIssuesSince (good ++ bad :: later))
    = Fatal ("Linear GraphQL failed " +:+ pretty (lstatus bad) +:+ ": " +:+ ltext bad).
Proof.
  intros Hgood Hbad. induction Hgood as [|r good [Hok Hnext] _ [IHy IHe]]; simpl.
  - by rewrite Hbad.
  - rewrite Hok, Hnext. simpl. rewrite yielded_yield_all, feed_end_yield_all.
    by rewrite IHy, IHe.
Qed.

(** The run ends as the feed ends: no record can end it. *)
Lemma run_exit f : ∀ w, (run REQUIRED_LABEL f w).1 = feed_end f.
Proof. induction f as [issue rest IH| |e]; intros w; simpl; [apply IH|done..]. Qed.

Lemma upsert_throw_summary issue w e w1 :
  upsert REQUIRED_LABEL issue w = (Throw e, w1) → summary w1 = summary w.
Proof.
  intros Hup. destruct (upsert_summary REQUIRED_LABEL issue w)
    as [(_ & Hres & _)|(_ & Hsum & _)]; rewrite Hup in *; done.
Qed.

End Propagation.

(** C5.  A page request of the feed that is answered with a non-success
    status raises an error that carries the status code and the response
    body and ends the whole run: the records of the pages before it were
    processed, no later record is.  An exception raised by the [upsert] of
    one record is caught by the driver: the errors counter grows by one, the
    line "Error: id — message" is appended to the log, and the run goes on
    with the next record; only the feed can end the run early. *)
Theorem error_propagation (REQUIRED_LABEL : string) :
  (∀ good bad later n sc t0,
     Forall (λ r, lok r = true ∧ hasNextPage r = true) good →
     lok bad = false →
     let out := main REQUIRED_LABEL (good ++ bad :: later) n sc t0 in
     out.1 = Fatal ("Linear GraphQL failed " +:+ pretty (lstatus bad) +:+ ": "
                    +:+ ltext bad)
     ∧ yielded (fetchUpdatedIssuesSince (good ++ bad :: later)) = mjoin (nodes <$> good)
     ∧ processed (summary out.2) = List.length (mjoin (nodes <$> good)))
  ∧ (∀ issue rest w e w1,
       upsert REQUIRED_LABEL issue (with_summary (incr_processed (summary w)) w)
       = (Throw e, w1) →
       let line := "Error: " +:+ identifier issue +:+ " — " +:+ e in
       let w' := paused 200 (tally incr_errors line w1) in
       run REQUIRED_LABEL (Yield issue rest) w = run REQUIRED_LABEL rest w'
       ∧ summary w'
         = {| processed := S (processed (summary w));
              created := created (summary w);
              updated := updated (summary w);
              skippedNoLabel := skippedNoLabel (summary w);
              errors := S (errors (summary w));
              items := (items (summary w) ++ [line])%list |})
  ∧ (∀ f w, (run REQUIRED_LABEL f w).1 = feed_end f).
Proof.
  split; [|split].
  - intros good bad later n sc t0 Hgood Hbad out.
    destruct (feed_failure good bad later Hgood Hbad) as [Hyield Hend].
    unfold out, main. rewrite run_exit. split; [done|]. split; [done|].
    destruct (run_balanced REQUIRED_LABEL
                (fetchUpdatedIssuesSince (good ++ bad :: later)) (boot n sc t0))
      as [_ Hproc]; [by split|].
    by rewrite Hproc, Hyield.
  - intros issue rest w e w1 Hup line w'. split.
    + rewrite run_yield, visit_settled, Hup. reflexivity.
    + unfold w', paused, tally. simpl.
      by rewrite (upsert_throw_summary _ _ _ _ _ Hup).
  - apply run_exit.
Qed.

Lemma error_propagation_witness :
  (main REQUIRED_LABEL_default [first_reply; failing_reply] small_notion [] 0).1
  = Fatal "Linear GraphQL failed 502: Bad Gateway"
  ∧ errors (summary (run REQUIRED_LABEL_default (Yield bare_issue Return)
                       (boot small_notion [(500%Z, "down")] 0)).2) = 1.
Proof.
  destruct (error_propagation REQUIRED_LABEL_default) as (Hfeed & Hrecord & _).
  split.
  - apply (Hfeed [first_reply] failing_reply [] small_notion [] 0%N).
    + repeat constructor.
    + reflexivity.
  - destruct (Hrecord bare_issue Return (boot small_notion [(500%Z, "down")] 0)
                "Get database failed 500: down"
                (upsert REQUIRED_LABEL_default bare_issue
                   (with_summary (incr_processed summary0)
                      (boot small_notion [(500%Z, "down")] 0))).2)
      as [Hrun Hsum].
    + vm_compute. reflexivity.
    + rewrite Hrun. cbn [run snd]. rewrite Hsum. reflexivity.
Defined.

(** ** Idempotence *)

Section Idempotence.

Variable REQUIRED_LABEL : string.

Lemma notion_settled issue out : notion (settled issue out) = notion out.2.
Proof.
  unfold settled. destruct out as [[res|e] w]; simpl; [|done].
  by destruct (action res).
Qed.

Lemma posts_settled issue out : posts (trace (settled issue out)) = posts (trace out.2).
Proof.
  unfold settled, paused. simpl. rewrite posts_app. unfold posts at 2. simpl.
  destruct out as [[res|e] w]; simpl; [destruct (action res)|]; simpl; lia.
Qed.

Lemma has_page_extend n n' extra ident :
  keys n' = (keys n ++ extra)%list → has_page ident n = true → has_page ident n' = true.
Proof.
  intros Hkeys [i Hi]%has_page_keys. apply has_page_keys. exists i.
  rewrite Hkeys. apply elem_of_app. by left.
Qed.

Lemma has_page_same n n' ident :
  keys n' = keys n → has_page ident n' = has_page ident n.
Proof.
  intros Hkeys. apply eq_true_iff_eq. by rewrite !has_page_keys, Hkeys.
Qed.

(** What the visit of one record does to the pages. *)
Lemma visit_pages issue w :
  wf_notion (notion w) →
  let w' := (visit REQUIRED_LABEL issue w).2 in
  wf_notion (notion w')
  ∧ (∃ extra, keys (notion w') = (keys (notion w) ++ extra)%list)
  ∧ errors (summary w) ≤ errors (summary w')
  ∧ (hasRequired REQUIRED_LABEL issue = true →
     errors (summary w') = errors (summary w) →
     has_page (identifier issue) (notion w') = true)
  ∧ (hasRequired REQUIRED_LABEL issue = false
     ∨ has_page (identifier issue) (notion w) = true →
     keys (notion w') = keys (notion w)
     ∧ created (summary w') = created (summary w)
     ∧ posts (trace w') = posts (trace w)).
Proof.
  intros Hwf w'. unfold w'. rewrite visit_settled.
  set (w0 := with_summary (incr_processed (summary w)) w).
  rewrite notion_settled, posts_settled.
  destruct (hasRequired REQUIRED_LABEL issue) eqn:Hgate.
  - destruct (upsert_spec REQUIRED_LABEL issue w0 Hgate) as (Hsum & Haction & Hrest).
    destruct (Hrest Hwf) as (Hwf' & Hext & Hquiet & Hpage).
    unfold settled, paused.
    destruct (upsert REQUIRED_LABEL issue w0) as [[res|e] w1]; simpl in *.
    + specialize (Haction res eq_refl). specialize (Hpage res eq_refl).
      split; [done|]. split; [done|].
      split; [destruct (action res); simpl; rewrite Hsum; simpl; lia|].
      split; [done|]. intros [?|Hhas]; [done|]. rewrite Hhas in Haction.
      destruct Haction as [-> _]. destruct (Hquiet Hhas) as (_ & Hkeys & _ & Hposts).
      simpl. by rewrite Hsum.
    + split; [done|]. split; [done|]. rewrite Hsum. simpl.
      split; [lia|]. split; [lia|]. intros [?|Hhas]; [done|].
      by destruct (Hquiet Hhas) as (_ & Hkeys & _ & Hposts).
  - rewrite (upsert_unlabelled _ _ _ Hgate). unfold settled, paused. simpl.
    split; [done|]. split; [exists []; by rewrite app_nil_r|]. split; [lia|].
    by split.
Qed.

Lemma run_pages f : ∀ w,
  wf_notion (notion w) →
  let w' := (run REQUIRED_LABEL f w).2 in
  wf_notion (notion w')
  ∧ (∃ extra, keys (notion w') = (keys (notion w) ++ extra)%list)
  ∧ errors (summary w) ≤ errors (summary w').
Proof.
  induction f as [issue rest IH| |e]; intros w Hwf; simpl;
    [|by (split; [|split; [exists []; by rewrite app_nil_r|]])..].
  destruct (visit_pages issue w Hwf) as (Hwf1 & [extra1 Hk1] & Herr1 & _).
  destruct (IH _ Hwf1) as (Hwf2 & [extra2 Hk2] & Herr2).
  split; [done|]. split; [|lia].
  exists (extra1 ++ extra2)%list. by rewrite Hk2, Hk1, app_assoc.
Qed.

(** A run without errored record leaves a page for every record that
    carries the required label. *)
Lemma run_covers f : ∀ w,
  wf_notion (notion w) →
  errors (summary (run REQUIRED_LABEL f w).2) = errors (summary w) →
  ∀ issue, issue ∈ yielded f →
    hasRequired REQUIRED_LABEL issue = true →
    has_page (identifier issue) (notion (run REQUIRED_LABEL f w).2) = true.
Proof.
  induction f as [first rest IH| |e]; intros w Hwf Herr issue Hin Hgate; simpl in *;
    [|by apply elem_of_nil in Hin..].
  destruct (visit_pages first w Hwf) as (Hwf1 & _ & Herr1 & Hcover & _).
  destruct (run_pages rest _ Hwf1) as (_ & [extra Hkeys] & Herr2). simpl in Herr2.
  apply elem_of_cons in Hin as [->|Hin].
  - eapply has_page_extend; [exact Hkeys|]. apply Hcover; [done|lia].
  - apply IH; [done|lia|done..].
Qed.

(** A run over records that all have their page creates nothing. *)
Lemma run_creates_nothing f : ∀ w,
  wf_notion (notion w) →
  (∀ issue, issue ∈ yielded f → hasRequired REQUIRED_LABEL issue = true →
            has_page (identifier issue) (notion w) = true) →
  let w' := (run REQUIRED_LABEL f w).2 in
  keys (notion w') = keys (notion w)
  ∧ created (summary w') = created (summary w)
  ∧ posts (trace w') = posts (trace w).
Proof.
  induction f as [first rest IH| |e]; intros w Hwf Hall; simpl; [|done..].
  destruct (visit_pages first w Hwf) as (Hwf1 & _ & _ & _ & Hsame).
  destruct Hsame as (Hkeys & Hcreated & Hposts).
  { destruct (hasRequired REQUIRED_LABEL first) eqn:Hgate; [right|by left].
    apply Hall; [by left|done]. }
  destruct (IH _ Hwf1) as (Hkeys' & Hcreated' & Hposts').
  { intros issue Hin Hgate. rewrite (has_page_same _ _ _ Hkeys).
    apply Hall; [by right|done]. }
  simpl in *. by rewrite Hkeys', Hcreated', Hposts'.
Qed.

End Idempotence.

(** ** A rate-limited write inside [upsert] *)

Section Accepted.

Variable REQUIRED_LABEL : string.

Lemma accepting_step k sc req n :
  accepting (S k) sc →
  answer req sc n = serve req n ∧ not_limited sc ∧ accepting k (tail sc).
Proof.
  unfold accepting. destruct sc as [|[st t] later]; simpl.
  - intros _. split; [done|]. split; [by intros e|]. by rewrite take_nil.
  - intros [Hst Hlater]%Forall_cons. simpl in Hst. rewrite Hst.
    split; [done|]. split; [|done]. intros e [= <-]. simpl. by intros ->.
Qed.

Lemma find_page_present i n :
  i ∈ (keys n).*1 → ∃ p, find_page (Some i) (pages n) = Some p ∧ page_id p = i.
Proof.
  intros Hi. simpl. pose proof (find_first (λ p, bool_decide (page_id p = i)) (pages n)) as Hfind.
  destruct (List.find _ _) as [p|].
  - destruct Hfind as (_ & _ & _ & Hp%bool_decide_eq_true & _). by exists p.
  - exfalso. unfold keys in Hi. rewrite <- list_fmap_compose in Hi.
    apply list_elem_of_fmap in Hi as (p & -> & Hp). specialize (Hfind p Hp).
    simpl in Hfind. by apply bool_decide_eq_false in Hfind.
Qed.

Lemma ids_update_page i f ps :
  (∀ q, page_id (f q) = page_id q) →
  page_id <$> update_page i f ps = page_id <$> ps.
Proof.
  intros Hf. unfold update_page. rewrite <- list_fmap_compose.
  apply list_fmap_ext. intros k q _. simpl. by case_bool_decide.
Qed.

Lemma ids_keys n : (keys n).*1 = page_id <$> pages n.
Proof. unfold keys. by rewrite <- list_fmap_compose. Qed.

(** A patch of a page that exists is served, and leaves the ids alone. *)
Lemma serve_patch_present req i n :
  (∃ props, req = PatchPage (Some i) props)
  ∨ (∃ blocks, req = PatchBlockChildren (Some i) blocks) →
  i ∈ (keys n).*1 →
  ok (serve req n).1 = true ∧ (keys (serve req n).2).*1 = (keys n).*1.
Proof.
  intros Hreq Hi. destruct (find_page_present i n Hi) as (p & Hfind & Hp).
  destruct Hreq as [[props ->]|[blocks ->]]; cbn [serve]; rewrite Hfind; simpl;
    (split; [done|]); rewrite !ids_keys; simpl; by apply ids_update_page.
Qed.

(** A write whose last attempt the service accepts. *)
Lemma notionWrite_accepted req w texts rest k :
  script w = (rate_limited texts ++ rest)%list →
  accepting (S k) rest →
  ok (serve req (notion w)).1 = true →
  let out := notionWrite req w in
  out.1 = Ok (body (serve req (notion w)).1)
  ∧ notion out.2 = (serve req (notion w)).2
  ∧ summary out.2 = summary w
  ∧ script out.2 = tail rest
  ∧ clock out.2 = (clock w + 500 * N.of_nat (List.length texts))%N.
Proof.
  intros Hsc Hacc Hok out. unfold out.
  destruct (accepting_step k rest req (notion w) Hacc) as (Hans & Hrest & _).
  rewrite (notionWrite_retries req w texts rest Hsc Hrest). simpl.
  by rewrite Hans, Hok.
Qed.

Lemma appendSyncComment_accepted issue i cycle w k :
  accepting (S k) (script w) →
  i ∈ (keys (notion w)).*1 →
  let out := appendSyncComment (Some i) issue cycle w in
  out.1 = Ok ()
  ∧ (keys (notion out.2)).*1 = (keys (notion w)).*1
  ∧ summary out.2 = summary w
  ∧ script out.2 = tail (script w)
  ∧ clock out.2 = clock w.
Proof.
  intros Hacc Hi out. unfold out, appendSyncComment, nowISO, gets, mbind, M_bind.
  cbv beta iota.
  match goal with
  | |- context [notionWrite (PatchBlockChildren _ ?b)] => set (blocks := b)
  end.
  destruct (serve_patch_present (PatchBlockChildren (Some i) blocks) i (notion w))
    as [Hok Hids]; [right; by eexists|done|].
  destruct (notionWrite_accepted (PatchBlockChildren (Some i) blocks) w [] (script w) k
              eq_refl Hacc Hok) as (Hres & Hn & Hs & Hsc & Hc).
  destruct (notionWrite _ w) as [r w1]. cbn [fst snd] in Hres, Hn, Hs, Hsc, Hc. subst r.
  cbv beta iota zeta. unfold mret, M_ret. cbn [fst snd].
  split; [done|]. split; [by rewrite Hn, Hids|]. split; [done|]. split; [done|].
  rewrite Hc. simpl. lia.
Qed.

Lemma refresh_accepted i w k :
  accepting (S k) (script w) →
  i ∈ (keys (notion w)).*1 →
  let out :=
    (now ← nowISO;
     notionWrite (PatchPage (Some i)
       {[ "Last Sync" := PDate now (Some "Europe/Berlin") ]})) w in
  (∃ j, out.1 = Ok j)
  ∧ (keys (notion out.2)).*1 = (keys (notion w)).*1
  ∧ summary out.2 = summary w
  ∧ clock out.2 = clock w.
Proof.
  intros Hacc Hi out. unfold out, nowISO, gets, mbind, M_bind. cbv beta iota.
  match goal with
  | |- context [notionWrite (PatchPage _ ?m)] => set (lastsync := m)
  end.
  destruct (serve_patch_present (PatchPage (Some i) lastsync) i (notion w))
    as [Hok Hids]; [left; by eexists|done|].
  destruct (notionWrite_accepted (PatchPage (Some i) lastsync) w [] (script w) k
              eq_refl Hacc Hok) as (Hres & Hn & Hs & _ & Hc).
  split; [by eexists|]. split; [by rewrite Hn, Hids|]. split; [done|].
  rewrite Hc. simpl. lia.
Qed.

Lemma commit_tail_accepted issue i a w :
  accepting 2 (script w) →
  i ∈ (keys (notion w)).*1 →
  let tail :=
    appendSyncComment (Some i) issue
      (cycleVal (mapExtras (labels_of issue) (or_undef (cycle_name issue) "")));;
    now ← nowISO;
    notionWrite (PatchPage (Some i)
      {[ "Last Sync" := PDate now (Some "Europe/Berlin") ]});;
    mret {| action := a; pageId := Some i |} in
  (tail w).1 = Ok {| action := a; pageId := Some i |}
  ∧ (keys (notion (tail w).2)).*1 = (keys (notion w)).*1
  ∧ summary (tail w).2 = summary w
  ∧ clock (tail w).2 = clock w.
Proof.
  intros Hacc Hi tail. unfold tail.
  destruct (appendSyncComment_accepted issue i
              (cycleVal (mapExtras (labels_of issue) (or_undef (cycle_name issue) "")))
              w 1 Hacc Hi) as (Hres1 & Hids1 & Hs1 & Hsc1 & Hc1).
  destruct (accepting_step 1 (script w) GetDatabase (notion w) Hacc) as (_ & _ & Hacc1).
  destruct (appendSyncComment _ _ _ w) as [r1 w1] eqn:Hw1.
  simpl in Hres1, Hids1, Hs1, Hsc1, Hc1. subst r1.
  erewrite bind_ok; [|exact Hw1].
  rewrite <- Hsc1 in Hacc1.
  destruct (refresh_accepted i w1 0 Hacc1) as ([j Hres2] & Hids2 & Hs2 & Hc2);
    [by rewrite Hids1|].
  unfold nowISO, gets in *. unfold mbind, M_bind in *. cbv beta iota in *.
  destruct (notionWrite _ w1) as [r2 w2]. simpl in Hres2, Hids2, Hs2, Hc2. subst r2.
  simpl. split; [done|]. split; [congruence|]. split; congruence.
Qed.

Lemma commit_accepted issue props existing w texts rest :
  script w = (rate_limited texts ++ rest)%list →
  accepting 3 rest →
  (∀ p, existing = Some p → page_id p ∈ (keys (notion w)).*1) →
  let out := commit issue props existing w in
  (∃ i, out.1
        = Ok {| action := match existing with Some _ => Updated | None => Created end;
                pageId := Some i |})
  ∧ List.length (keys (notion out.2))
    = List.length (keys (notion w)) + match existing with Some _ => 0 | None => 1 end
  ∧ summary out.2 = summary w
  ∧ clock out.2 = (clock w + 500 * N.of_nat (List.length texts))%N.
Proof.
  intros Hsc Hacc Hex out. unfold out, commit. clear out.
  destruct (accepting_step 2 rest GetDatabase (notion w) Hacc) as (_ & _ & Hacc2).
  assert (∀ n n' : notion_t, (keys n').*1 = (keys n).*1 →
                             List.length (keys n') = List.length (keys n)) as Hlen.
  { intros n n' Hids. rewrite <- (length_fmap fst (keys n')), Hids.
    apply length_fmap. }
  destruct existing as [p|].
  - specialize (Hex p eq_refl).
    destruct (serve_patch_present (PatchPage (Some (page_id p)) props) (page_id p)
                (notion w)) as [Hok Hids]; [left; by eexists|done|].
    destruct (notionWrite_accepted _ w texts rest 2 Hsc Hacc Hok)
      as (Hres & Hn & Hs & Hsc1 & Hc).
    destruct (notionWrite (PatchPage (Some (page_id p)) props) w) as [r1 w1] eqn:Hw1.
    cbn [fst snd] in Hres, Hn, Hs, Hsc1, Hc. subst r1.
    erewrite bind_ok; [|by erewrite bind_ok].
    rewrite <- Hsc1 in Hacc2.
    destruct (commit_tail_accepted issue (page_id p) Updated w1 Hacc2)
      as (Hout & Hids' & Hs' & Hc'); [by rewrite Hn, Hids|].
    cbn [fst snd]. split; [by eexists|].
    split; [rewrite Nat.add_0_r; apply Hlen; by rewrite Hids', Hn, Hids|].
    split; congruence.
  - assert (ok (serve (PostPage props) (notion w)).1 = true) as Hok by done.
    destruct (notionWrite_accepted _ w texts rest 2 Hsc Hacc Hok)
      as (Hres & Hn & Hs & Hsc1 & Hc).
    destruct (notionWrite (PostPage props) w) as [r1 w1] eqn:Hw1.
    cbn [fst snd] in Hres, Hn, Hs, Hsc1, Hc. subst r1.
    erewrite bind_ok; [|by erewrite bind_ok].
    change (json_id (body (serve (PostPage props) (notion w)).1))
      with (Some (next_id (notion w))). cbn [fst snd].
    rewrite <- Hsc1 in Hacc2.
    assert ((keys (notion w1)).*1 = ((keys (notion w)).*1 ++ [next_id (notion w)])%list)
      as Hids.
    { rewrite Hn, !ids_keys. simpl. by rewrite fmap_app. }
    destruct (commit_tail_accepted issue (next_id (notion w)) Created w1 Hacc2)
      as (Hout & Hids' & Hs' & Hc').
    { rewrite Hids. apply elem_of_app. right. by left. }
    split; [by eexists|]. split; [|split; congruence].
    rewrite (Hlen _ _ Hids'). apply (f_equal List.length) in Hids.
    rewrite length_app, !length_fmap in Hids. simpl in Hids. lia.
Qed.

End Accepted.



(** * Further properties *)

(** ** Trimming and normalized names *)

Section Trimming.

Lemma trimStart_first s c :
  first_char (trimStart s) = Some c → is_white c = false.
Proof.
  induction s as [|a r IH]; simpl; [done|].
  destruct (is_white a) eqn:Ha; [done|]. simpl. by intros [= <-].
Qed.

Lemma trimEnd_cons c r :
  trimEnd (String c r)
  = match trimEnd r with
    | EmptyString => if is_white c then EmptyString else String c EmptyString
    | r' => String c r'
    end.
Proof. reflexivity. Qed.

Lemma trimEnd_last s c :
  last_char (trimEnd s) = Some c → is_white c = false.
Proof.
  induction s as [|a r IH]; [done|]. rewrite trimEnd_cons.
  destruct (trimEnd r) as [|b r'] eqn:Hr.
  - destruct (is_white a) eqn:Ha; [done|]. simpl. by intros [= <-].
  - exact IH.
Qed.

Lemma trimEnd_first s c :
  first_char s = Some c → is_white c = false → first_char (trimEnd s) = Some c.
Proof.
  destruct s as [|a r]; [done|]. intros [= ->] Hc. rewrite trimEnd_cons.
  destruct (trimEnd r); [by rewrite Hc|done].
Qed.

Lemma trimEnd_idem s : trimEnd (trimEnd s) = trimEnd s.
Proof.
  induction s as [|a r IH]; [done|]. rewrite trimEnd_cons.
  destruct (trimEnd r) as [|b r'] eqn:Hr.
  - destruct (is_white a) eqn:Ha; [done|]. rewrite trimEnd_cons. simpl. by rewrite Ha.
  - rewrite trimEnd_cons, IH. reflexivity.
Qed.

Lemma trimStart_fixed s :
  (∀ c, first_char s = Some c → is_white c = false) → trimStart s = s.
Proof.
  destruct s as [|a r]; [done|]. intros Hs. simpl. by rewrite (Hs a eq_refl).
Qed.

Lemma trim_idem s : trim (trim s) = trim s.
Proof.
  unfold trim. rewrite (trimStart_fixed (trimEnd (trimStart s))); [apply trimEnd_idem|].
  intros c Hc. destruct (trimStart s) as [|a r] eqn:Hs; [done|].
  assert (is_white a = false) as Ha by (apply (trimStart_first s); by rewrite Hs).
  rewrite (trimEnd_first (String a r) a eq_refl Ha) in Hc. by injection Hc as <-.
Qed.

Lemma trim_no_white s : no_white s = true → trim s = s.
Proof.
  intros Hs. unfold trim. rewrite trimStart_fixed.
  - induction s as [|a r IH]; [done|]. simpl in Hs.
    apply andb_true_iff in Hs as [Ha%negb_true_iff Hr]. rewrite trimEnd_cons, (IH Hr).
    destruct r; [by rewrite Ha|done].
  - intros c Hc. destruct s as [|a r]; [done|]. injection Hc as <-. simpl in Hs.
    by apply andb_true_iff in Hs as [Ha%negb_true_iff _].
Qed.

Lemma pretty_N_char_no_white x : is_white (pretty_N_char x) = false.
Proof. unfold pretty_N_char. by repeat case_match. Qed.

Lemma pretty_N_go_no_white (x : N) s :
  no_white s = true → no_white (pretty_N_go x s) = true.
Proof.
  revert s. induction (N.lt_wf_0 x) as [x _ IH]; intros s Hs.
  destruct (decide (x = 0%N)) as [->|]; [by rewrite pretty_N_go_0|].
  rewrite pretty_N_go_step by lia. apply IH; [apply N.div_lt; lia|].
  simpl. by rewrite pretty_N_char_no_white.
Qed.

Lemma pretty_Z_no_white (n : Z) : no_white (pretty n) = true.
Proof.
  assert (∀ q, no_white (pretty (N.pos q)) = true) as Hpos.
  { intros q. unfold pretty, pretty_N. case_decide; [done|].
    by apply pretty_N_go_no_white. }
  destruct n as [|q|q]; [reflexivity|apply Hpos|].
  change (no_white (String "-" (pretty (N.pos q))) = true). simpl. apply Hpos.
Qed.

Lemma normalizeOptionName_trim v o : normalizeOptionName v = Some o → trim o = o.
Proof.
  intros Hv. destruct v as [| | |n|s|[nm|]|elems]; simpl in Hv; try done.
  - injection Hv as <-. apply trim_no_white, pretty_Z_no_white.
  - destruct (nonempty (trim s)); [|done]. injection Hv as <-. apply trim_idem.
  - destruct (nonempty (trim nm)); [|done]. injection Hv as <-. apply trim_idem.
Qed.

Lemma normalizeOptionName_fixed v o :
  normalizeOptionName v = Some o → normalizeOptionName (VStr o) = Some o.
Proof.
  intros Hv. simpl.
  by rewrite (normalizeOptionName_trim v o Hv), (normalizeOptionName_truthy v o Hv).
Qed.

End Trimming.

(** X1.  A name that [normalizeOptionName] returns is never empty, has no
    white space at either end, and is left as it is when normalized again:
    [ensureSelectOption] looks for exactly the name that [upsert] writes. *)
Theorem normalizeOptionName_normal (v : value) (o : string) :
  normalizeOptionName v = Some o →
  o ≠ ""
  ∧ (∀ c, first_char o = Some c → is_white c = false)
  ∧ (∀ c, last_char o = Some c → is_white c = false)
  ∧ normalizeOptionName (VStr o) = Some o.
Proof.
  intros Hv. pose proof (normalizeOptionName_truthy v o Hv) as Hne.
  pose proof (normalizeOptionName_trim v o Hv) as Htrim.
  split; [by destruct o|]. split; [|split].
  - intros c Hc. rewrite <- Htrim in Hc. unfold trim in Hc.
    destruct (trimStart o) as [|a r] eqn:Hs; [done|].
    assert (is_white a = false) as Ha by (apply (trimStart_first o); by rewrite Hs).
    rewrite (trimEnd_first (String a r) a eq_refl Ha) in Hc. by injection Hc as <-.
  - intros c Hc. rewrite <- Htrim in Hc. by apply trimEnd_last in Hc.
  - by apply (normalizeOptionName_fixed v).
Qed.

Lemma normalizeOptionName_normal_witness :
  normalizeOptionName (VStr "In Progress") = Some "In Progress".
Proof.
  apply (normalizeOptionName_normal (VObj (Some "  In Progress ")) "In Progress").
  reflexivity.
Defined.

(** ** The number of chunks *)

Section ChunkCount.

Lemma lengths_from_count fuel len i :
  len ≤ i + fuel * MAX →
  List.length (lengths_from fuel len i) = (len - i + (MAX - 1)) / MAX.
Proof.
  revert i; induction fuel as [|fuel IH]; intros i Hfuel; cbn [lengths_from List.length].
  - replace (len - i) with 0 by lia. symmetry. apply Nat.div_small. unfold MAX. lia.
  - destruct (Nat.ltb_spec i len) as [Hlt|Hge]; cbn [List.length].
    + rewrite IH by lia.
      destruct (le_lt_dec (len - i) MAX) as [Hsmall|Hbig].
      * replace (len - (i + MAX)) with 0 by lia.
        rewrite (Nat.div_small (0 + (MAX - 1))) by (unfold MAX; lia).
        apply (Nat.div_unique _ _ 1 (len - i - 1)); unfold MAX in *; lia.
      * replace (len - i + (MAX - 1)) with (len - (i + MAX) + (MAX - 1) + 1 * MAX) by lia.
        rewrite Nat.div_add by done. lia.
    + replace (len - i) with 0 by lia. symmetry. apply Nat.div_small. unfold MAX. lia.
Qed.

End ChunkCount.

(** X2.  A description of [n] characters gives [ceil (n / 1900)] chunks,
    and no chunk is empty. *)
Theorem toRichTextArray_count (s : string) :
  List.length (toRichTextArray s) = (String.length s + 1899) / 1900
  ∧ Forall (λ c, content c ≠ "") (toRichTextArray s).
Proof.
  unfold toRichTextArray. destruct s as [|a r]; cbn [nonempty].
  - split; [|constructor]. symmetry. apply Nat.div_small. simpl. lia.
  - split.
    + rewrite <- (length_fmap (λ c, String.length (content c))).
      fold (chunk_lengths (chunks_from (String.length (String a r)) (String a r) 0)).
      rewrite chunks_from_lengths, lengths_from_count by (unfold MAX; lia).
      by rewrite Nat.sub_0_r.
    + apply Forall_forall. intros c Hc%chunks_from_bound Hempty.
      rewrite Hempty in Hc. simpl in Hc. lia.
Qed.

(** ** The schema cache *)

(** X3.  [getDatabase] asks the service only while the cache is empty:
    once it has succeeded its result is cached and every later call returns
    it without a request; a failed request is not cached, so the next call
    asks again. *)
Theorem getDatabase_memo (w : world) :
  (∀ d, dbSchemaCache w = Some d → getDatabase w = (Ok d, w))
  ∧ (∀ d w1, getDatabase w = (Ok d, w1) →
       dbSchemaCache w1 = Some d ∧ getDatabase w1 = (Ok d, w1))
  ∧ (∀ e w1, getDatabase w = (Throw e, w1) →
       dbSchemaCache w1 = None
       ∧ ∃ st, ok_status st = false
               ∧ trace w1 = (trace w ++ [Fetch GetDatabase st])%list).
Proof.
  split; [apply getDatabase_cached|]. split.
  - intros d w1 Hget.
    assert (dbSchemaCache w1 = Some d) as Hcache.
    { destruct (dbSchemaCache w) as [c|] eqn:Hc.
      - rewrite (getDatabase_cached w c Hc) in Hget. by simplify_eq.
      - destruct (getDatabase_cold w Hc)
          as [(st & t & later & _ & _ & Hcold)|Hcold]; rewrite Hcold in Hget;
          by simplify_eq. }
    split; [done|by apply getDatabase_cached].
  - intros e w1 Hget. destruct (dbSchemaCache w) as [c|] eqn:Hc.
    + by rewrite (getDatabase_cached w c Hc) in Hget.
    + destruct (getDatabase_cold w Hc)
        as [(st & t & later & _ & Hst & Hcold)|Hcold]; rewrite Hcold in Hget;
        [|done].
      simplify_eq. simpl. split; [done|]. by exists st.
Qed.

Lemma getDatabase_memo_witness :
  getDatabase (getDatabase (boot small_notion [] 0)).2
  = (Ok (db small_notion), (getDatabase (boot small_notion [] 0)).2)
  ∧ dbSchemaCache (getDatabase (boot small_notion [(503%Z, "down")] 0)).2 = None.
Proof.
  destruct (getDatabase_memo (boot small_notion [] 0)) as (_ & Hok & _).
  destruct (getDatabase_memo (boot small_notion [(503%Z, "down")] 0)) as (_ & _ & Hfail).
  split.
  - by apply (Hok (db small_notion) (getDatabase (boot small_notion [] 0)).2).
  - by apply (Hfail "Get database failed 503: down"
                (getDatabase (boot small_notion [(503%Z, "down")] 0)).2).
Defined.

(** ** Pagination *)

Section Pagination.

Lemma feed_last_page good last later :
  Forall (λ r, lok r = true ∧ hasNextPage r = true) good →
  lok last = true → hasNextPage last = false →
  yielded (fetchUpdatedIssuesSince (good ++ last :: later))
  = mjoin (nodes <$> (good ++ [last])%list)
  ∧ feed_end (fetchUpdatedIssuesSince (good ++ last :: later)) = Completed.
Proof.
  intros Hgood Hok Hnext. induction Hgood as [|r good [Hrok Hrnext] _ [IHy IHe]]; simpl.
  - rewrite Hok, Hnext. simpl. by rewrite yielded_yield_all, feed_end_yield_all.
  - rewrite Hrok, Hrnext. simpl. rewrite yielded_yield_all, feed_end_yield_all.
    by rewrite IHy, IHe.
Qed.

End Pagination.

(** X4.  The feed follows the pages as long as each announces a next page
    and stops at the first that does not: the records of these pages are
    yielded in page order, the pages after it are never requested, and the
    run completes having processed exactly these records. *)
Theorem pagination_stops (REQUIRED_LABEL : string)
    (good : list linear_reply) (last : linear_reply) (later : list linear_reply) :
  Forall (λ r, lok r = true ∧ hasNextPage r = true) good →
  lok last = true →
  hasNextPage last = false →
  yielded (fetchUpdatedIssuesSince (good ++ last :: later))
  = mjoin (nodes <$> (good ++ [last])%list)
  ∧ ∀ n sc t0,
      (main REQUIRED_LABEL (good ++ last :: later) n sc t0).1 = Completed
      ∧ processed (summary (main REQUIRED_LABEL (good ++ last :: later) n sc t0).2)
        = List.length (mjoin (nodes <$> (good ++ [last])%list)).
Proof.
  intros Hgood Hok Hnext.
  destruct (feed_last_page good last later Hgood Hok Hnext) as [Hyield Hend].
  split; [done|]. intros n sc t0. unfold main. rewrite run_exit. split; [done|].
  destruct (run_balanced REQUIRED_LABEL
              (fetchUpdatedIssuesSince (good ++ last :: later)) (boot n sc t0))
    as [_ Hproc]; [by split|].
  by rewrite Hproc, Hyield.
Qed.

Lemma pagination_stops_witness :
  yielded (fetchUpdatedIssuesSince
             [first_reply;
              {| lstatus := 200; ltext := ""; nodes := [unlabelled_issue];
                 hasNextPage := false |};
              first_reply])
  = [bare_issue; unlabelled_issue].
Proof.
  apply (pagination_stops REQUIRED_LABEL_default [first_reply]
           {| lstatus := 200; ltext := ""; nodes := [unlabelled_issue];
              hasNextPage := false |} [first_reply]).
  - repeat constructor.
  - reflexivity.
  - reflexivity.
Defined.

(** ** The itemized log *)

Section Log.

Variable REQUIRED_LABEL : string.

Lemma visit_outcome issue w :
  let o := outcome_of
             (upsert REQUIRED_LABEL issue (with_summary (incr_processed (summary w)) w)).1 in
  let s := summary w in
  let s' := summary (visit REQUIRED_LABEL issue w).2 in
  items s' = (items s ++ [log_line issue o])%list
  ∧ created s' = created s + how_many (ended Created) [o]
  ∧ updated s' = updated s + how_many (ended Updated) [o]
  ∧ skippedNoLabel s' = skippedNoLabel s + how_many (ended Skipped) [o]
  ∧ errors s' = errors s + how_many failed [o].
Proof.
  intros o s s'. unfold o, s, s'. clear o s s'.
  rewrite visit_settled. unfold settled, paused.
  destruct (upsert_summary REQUIRED_LABEL issue
              (with_summary (incr_processed (summary w)) w))
    as [(_ & Hres & Hsum)|(_ & Hsum & Hres)].
  - rewrite Hres. simpl. rewrite Hsum. simpl. unfold how_many. simpl.
    repeat split; lia.
  - destruct (upsert _ _ _) as [[res|e] w1]; simpl in *.
    + destruct (Hres res eq_refl) as [-> | ->]; simpl; rewrite Hsum; simpl;
        unfold how_many; simpl; repeat split; lia.
    + rewrite Hsum. simpl. unfold how_many. simpl. repeat split; lia.
Qed.

Lemma how_many_cons which o ends :
  how_many which (o :: ends) = how_many which [o] + how_many which ends.
Proof. unfold how_many. simpl. by destruct (which o). Qed.

Lemma run_outcomes f : ∀ w,
  let ends := outcomes REQUIRED_LABEL f w in
  let s := summary w in
  let s' := summary (run REQUIRED_LABEL f w).2 in
  List.length ends = List.length (yielded f)
  ∧ items s' = (items s ++ zip_with log_line (yielded f) ends)%list
  ∧ created s' = created s + how_many (ended Created) ends
  ∧ updated s' = updated s + how_many (ended Updated) ends
  ∧ skippedNoLabel s' = skippedNoLabel s + how_many (ended Skipped) ends
  ∧ errors s' = errors s + how_many failed ends.
Proof.
  induction f as [issue rest IH| |e]; intros w; cbn [run outcomes yielded snd];
    [|by rewrite app_nil_r, !Nat.add_0_r..].
  destruct (visit_outcome issue w) as (Hitems & Hc & Hu & Hs & He).
  destruct (IH (visit REQUIRED_LABEL issue w).2) as (Hlen & Hitems' & Hc' & Hu' & Hs' & He').
  cbv zeta. rewrite Hitems', Hitems, Hc', Hc, Hu', Hu, Hs', Hs, He', He.
  rewrite !(how_many_cons _ _ (outcomes _ _ _)). simpl.
  rewrite <- app_assoc. repeat split; [by rewrite Hlen|lia..].
Qed.

End Log.

(** X5.  The itemized log of a run has one line per record of the feed, in
    the order of the feed.  The line of a record is the tag of the way its
    visit ended ("Created: " or "Updated: " when its [upsert] returned so,
    "Skipped (no label): " when it returned skipped, "Error: " when it
    threw), followed by the identifier of the record and by its title, or
    by the message thrown; and each counter of the summary is the number
    of records whose visit ended that way. *)
Theorem log_follows_feed (REQUIRED_LABEL : string) (replies : list linear_reply)
    (n : notion_t) (sc : list (Z * string)) (t0 : N) :
  let records := yielded (fetchUpdatedIssuesSince replies) in
  let ends := outcomes REQUIRED_LABEL (fetchUpdatedIssuesSince replies) (boot n sc t0) in
  let s := summary (main REQUIRED_LABEL replies n sc t0).2 in
  List.length ends = List.length records
  ∧ items s = zip_with log_line records ends
  ∧ created s = how_many (ended Created) ends
  ∧ updated s = how_many (ended Updated) ends
  ∧ skippedNoLabel s = how_many (ended Skipped) ends
  ∧ errors s = how_many failed ends.
Proof.
  intros records ends s.
  destruct (run_outcomes REQUIRED_LABEL (fetchUpdatedIssuesSince replies) (boot n sc t0))
    as (Hlen & Hitems & Hc & Hu & Hs & He).
  by repeat split.
Qed.

(** ** Relations that every step keeps *)

Section Keeps.

Context (R : relation world) `{!PreOrder R}.

Lemma keeps_ret {A} (a : A) : keeps R (mret a).
Proof. intros w. reflexivity. Qed.

Lemma keeps_throw {A} e : keeps R (@throw A e).
Proof. intros w. reflexivity. Qed.

Lemma keeps_gets {A} (f : world → A) : keeps R (gets f).
Proof. intros w. reflexivity. Qed.

Lemma keeps_bind {A B} (m : M A) (f : A → M B) :
  keeps R m → (∀ a, keeps R (f a)) → keeps R (m ≫= f).
Proof.
  intros Hm Hf w. unfold mbind, M_bind. specialize (Hm w).
  destruct (m w) as [[a|e] w1]; simpl in *; [|done].
  etrans; [exact Hm|apply Hf].
Qed.

Lemma keeps_try_catch {A} (m : M A) (h : string → M A) :
  keeps R m → (∀ e, keeps R (h e)) → keeps R (try_catch m h).
Proof.
  intros Hm Hh w. unfold try_catch. specialize (Hm w).
  destruct (m w) as [[a|e] w1]; simpl in *; [done|].
  etrans; [exact Hm|apply Hh].
Qed.

Lemma keeps_when v (m : string → M unit) :
  (∀ s, keeps R (m s)) → keeps R (when v m).
Proof. intros Hm. unfold when. destruct (truthy v); [apply Hm|apply keeps_ret]. Qed.

End Keeps.

Ltac keeps_steps base :=
  repeat first
    [ apply keeps_ret; apply _ | apply keeps_throw; apply _
    | apply keeps_gets; apply _
    | base
    | apply keeps_when; [apply _|intros ?]
    | apply keeps_bind; [apply _| |intros ?]
    | apply keeps_try_catch; [apply _| |intros ?]
    | match goal with
      | |- keeps _ (match ?x with _ => _ end) => destruct x
      | |- keeps _ (if ?b then _ else _) => destruct b
      end ].

(** ** Pauses *)

Section Clock.

#[global] Instance clock_kept_preorder : PreOrder clock_kept.
Proof. split; [by intros w|]. intros w1 w2 w3. unfold clock_kept. congruence. Qed.

#[global] Instance clock_grows_preorder : PreOrder clock_grows.
Proof.
  split; [intros w; unfold clock_grows; lia|].
  intros w1 w2 w3. unfold clock_grows. lia.
Qed.

Lemma clock_kept_grows {A} (m : M A) : keeps clock_kept m → keeps clock_grows m.
Proof. intros Hm w. specialize (Hm w). unfold clock_kept, clock_grows in *. lia. Qed.

Lemma clock_kept_fetch req : keeps clock_kept (fetch req).
Proof. by intros w. Qed.

Lemma clock_kept_modify_cache c : keeps clock_kept (modify (with_cache c)).
Proof. by intros w. Qed.

Lemma clock_kept_on_summary f : keeps clock_kept (on_summary f).
Proof. by intros w. Qed.

Lemma clock_grows_sleep ms : keeps clock_grows (sleep ms).
Proof. intros w. unfold clock_grows. simpl. lia. Qed.

Ltac clock_kept_base :=
  first [ apply clock_kept_fetch | apply clock_kept_modify_cache
        | apply clock_kept_on_summary ].

Lemma clock_kept_getDatabase : keeps clock_kept getDatabase.
Proof. unfold getDatabase. keeps_steps ltac:(clock_kept_base). Qed.

Lemma clock_kept_ensureSelectOption propertyName rawOption :
  keeps clock_kept (ensureSelectOption propertyName rawOption).
Proof.
  unfold ensureSelectOption.
  keeps_steps ltac:(first [apply clock_kept_getDatabase | clock_kept_base]).
Qed.

Lemma clock_kept_prepare issue : keeps clock_kept (prepare issue).
Proof.
  unfold prepare, getTitlePropertyName, findPageByIssueId, nowISO.
  keeps_steps ltac:(first [ apply clock_kept_ensureSelectOption
                          | apply clock_kept_getDatabase | clock_kept_base ]).
Qed.

Lemma clock_grows_doFetch fuel req : keeps clock_grows (doFetch fuel req).
Proof.
  induction fuel as [|fuel IH]; cbn [doFetch];
    keeps_steps ltac:(first [ apply clock_kept_grows, clock_kept_fetch
                            | apply clock_grows_sleep | apply IH ]).
Qed.

Lemma clock_grows_notionWrite req : keeps clock_grows (notionWrite req).
Proof.
  unfold notionWrite. keeps_steps ltac:(apply clock_grows_doFetch).
Qed.

Lemma clock_grows_upsert REQUIRED_LABEL issue :
  keeps clock_grows (upsert REQUIRED_LABEL issue).
Proof.
  unfold upsert, commit, appendSyncComment, nowISO.
  keeps_steps ltac:(first [ apply clock_kept_grows, clock_kept_prepare
                          | apply clock_kept_grows, clock_kept_on_summary
                          | apply clock_grows_notionWrite ]).
Qed.

Lemma clock_visit REQUIRED_LABEL issue w :
  (clock w + 200 ≤ clock (visit REQUIRED_LABEL issue w).2)%N.
Proof.
  rewrite visit_settled. unfold settled, paused.
  pose proof (clock_grows_upsert REQUIRED_LABEL issue
                (with_summary (incr_processed (summary w)) w)) as Hup.
  unfold clock_grows in Hup. simpl in Hup.
  destruct (upsert _ _ _) as [[res|e] w1]; simpl in *;
    [destruct (action res)|]; simpl; lia.
Qed.

End Clock.

(** X6.  The driver paces the destination: every record costs at least the
    pause of 200 ms that ends its visit, so a run over [k] records lasts at
    least [200 k] ms; the preparation of a record (schema reads, schema
    mutations, lookup) never pauses. *)
Theorem run_pacing (REQUIRED_LABEL : string) :
  (∀ f w, (clock w + 200 * N.of_nat (List.length (yielded f))
           ≤ clock (run REQUIRED_LABEL f w).2)%N)
  ∧ (∀ issue w, clock (prepare issue w).2 = clock w).
Proof.
  split; [|intros issue w; apply clock_kept_prepare].
  induction f as [issue rest IH| |e]; intros w; simpl; [|lia..].
  pose proof (clock_visit REQUIRED_LABEL issue w) as Hvisit.
  specialize (IH (visit REQUIRED_LABEL issue w).2). lia.
Qed.

(** ** The schema and its cache *)

Section Schema.

Lemma schema_grows_refl n : schema_grows n n.
Proof.
  split; [done|]. intros name [ty opts] Hprop. exists []. by rewrite app_nil_r.
Qed.

Lemma schema_grows_trans n1 n2 n3 :
  schema_grows n1 n2 → schema_grows n2 n3 → schema_grows n1 n3.
Proof.
  intros [Hk12 H12] [Hk23 H23]. split; [congruence|].
  intros name prop Hprop. destruct (H12 name prop Hprop) as [e1 H2].
  destruct (H23 name _ H2) as [e2 H3]. exists (e1 ++ e2)%list.
  rewrite H3. simpl. by rewrite app_assoc.
Qed.

#[global] Instance evolves_preorder : PreOrder evolves.
Proof.
  split.
  - intros w Hw. split; [done|apply schema_grows_refl].
  - intros w1 w2 w3 H12 H23 Hw. destruct (H12 Hw) as [Hw2 Hg12].
    destruct (H23 Hw2) as [Hw3 Hg23]. split; [done|by eapply schema_grows_trans].
Qed.

#[global] Instance schema_kept_preorder : PreOrder schema_kept.
Proof.
  split; [by intros w|]. intros w1 w2 w3 [H1 H2] [H1' H2']. split; congruence.
Qed.

Lemma schema_kept_evolves {A} (m : M A) : keeps schema_kept m → keeps evolves m.
Proof.
  intros Hm w Hw. destruct (Hm w) as [Hcache Hdb]. split.
  - intros d Hd. rewrite Hcache in Hd. rewrite Hdb. by apply Hw.
  - split; [by rewrite Hdb|]. intros name [ty opts] Hprop. exists [].
    by rewrite Hdb, app_nil_r.
Qed.

Lemma kinds_set_options name ty opts d : kinds (set_options name ty opts d) = kinds d.
Proof.
  unfold kinds, set_options. simpl. rewrite <- list_fmap_compose.
  apply list_fmap_ext. intros k [nm prop] _. simpl. by destruct (_ && _).
Qed.

Lemma lookup_set_options_ne name name' ty opts d :
  name' ≠ name →
  lookup_property name' (set_options name ty opts d) = lookup_property name' d.
Proof.
  intros Hne. unfold lookup_property, set_options. destruct d as [ps]. simpl.
  induction ps as [|[k v] ps IH]; simpl; [done|].
  destruct (decide (k = name)) as [->|Hk].
  - rewrite (bool_decide_eq_true_2 (name = name)) by done. simpl.
    destruct (bool_decide (type v = ty)); simpl;
      rewrite (bool_decide_eq_false_2 (name = name')) by done; apply IH.
  - rewrite (bool_decide_eq_false_2 (k = name)) by done. simpl.
    destruct (bool_decide (k = name')); [done|apply IH].
Qed.

(** A call that is not a schema mutation leaves the schema alone. *)
Lemma answer_db req sc n :
  (∀ name ty opts, req ≠ PatchDatabase name ty opts) → db (answer req sc n).2 = db n.
Proof.
  intros Hreq.
  destruct (answer_cases req sc n) as [-> | (st & t & later & -> & _ & ->)]; [|done].
  destruct req; simpl; try done.
  - by destruct (Hreq propertyName typeKey nextOptions).
  - by destruct (find_page _ _).
  - by destruct (find_page _ _).
Qed.

Lemma schema_kept_fetch req :
  (∀ name ty opts, req ≠ PatchDatabase name ty opts) → keeps schema_kept (fetch req).
Proof. intros Hreq w. split; [done|]. simpl. by apply answer_db. Qed.

Lemma schema_kept_sleep ms : keeps schema_kept (sleep ms).
Proof. by intros w. Qed.

Lemma schema_kept_on_summary f : keeps schema_kept (on_summary f).
Proof. by intros w. Qed.

Lemma schema_kept_doFetch fuel req :
  (∀ name ty opts, req ≠ PatchDatabase name ty opts) →
  keeps schema_kept (doFetch fuel req).
Proof.
  intros Hreq. induction fuel as [|fuel IH]; cbn [doFetch];
    keeps_steps ltac:(first [ by apply schema_kept_fetch | apply schema_kept_sleep
                            | apply IH ]).
Qed.

Lemma schema_kept_notionWrite req :
  on_pages req → keeps schema_kept (notionWrite req).
Proof.
  intros Hreq. unfold notionWrite.
  keeps_steps ltac:(apply schema_kept_doFetch; by destruct req).
Qed.

Lemma evolves_getDatabase : keeps evolves getDatabase.
Proof.
  intros w Hw. destruct (dbSchemaCache w) as [c|] eqn:Hc.
  - rewrite (getDatabase_cached w c Hc). split; [done|apply schema_grows_refl].
  - destruct (getDatabase_cold w Hc) as [(st & t & later & _ & _ & ->)| ->]; simpl.
    + split; [by intros d|apply schema_grows_refl].
    + split; [by intros d [= <-]|apply schema_grows_refl].
Qed.

Lemma getDatabase_ok_coherent w d w1 :
  coherent w → getDatabase w = (Ok d, w1) →
  coherent w1 ∧ d = db (notion w1) ∧ notion w1 = notion w.
Proof.
  intros Hw Hget. destruct (dbSchemaCache w) as [c|] eqn:Hc.
  - rewrite (getDatabase_cached w c Hc) in Hget. simplify_eq.
    split; [done|]. split; [by apply Hw|done].
  - destruct (getDatabase_cold w Hc)
      as [(st & t & later & _ & _ & Hcold)|Hcold]; rewrite Hcold in Hget;
      [done|].
    simplify_eq. simpl. split; [by intros d [= <-]|done].
Qed.

Lemma schema_grows_set_options n name prop o :
  lookup_property name (db n) = Some prop →
  schema_grows n
    {| db := set_options name (type prop) (options prop ++ [o]) (db n);
       pages := pages n; next_id := next_id n |}.
Proof.
  intros Hprop. split; simpl; [apply kinds_set_options|].
  intros name' prop' Hprop'. destruct (decide (name' = name)) as [->|Hne].
  - assert (prop' = prop) as -> by congruence. exists [o].
    by apply (lookup_set_options _ _ _ _ prop).
  - exists []. rewrite lookup_set_options_ne by done. destruct prop'.
    by rewrite app_nil_r.
Qed.

Lemma lookup_property_kinds name d :
  type <$> lookup_property name d
  = snd <$> List.find (λ e, bool_decide (e.1 = name)) (kinds d).
Proof.
  unfold lookup_property, kinds. destruct d as [ps]. simpl.
  induction ps as [|[k v] ps IH]; simpl; [done|].
  destruct (bool_decide (k = name)); [done|apply IH].
Qed.

Lemma option_exists_app existing extra v :
  option_exists existing v = true → option_exists (existing ++ extra) v = true.
Proof.
  unfold option_exists. rewrite existsb_app. intros ->. done.
Qed.

(** An option the schema accepts stays accepted while the schema grows. *)
Lemma option_known_grows n n' key v :
  schema_grows n n' → option_known n key v → option_known n' key v.
Proof.
  intros [Hkinds Hgrows] Hknown prop' Hprop' Hcat.
  destruct (lookup_property key (db n)) as [prop|] eqn:Hprop.
  - destruct (Hgrows key prop Hprop) as [extra Hext]. rewrite Hext in Hprop'.
    simplify_eq. simpl in *. apply option_exists_app. by apply Hknown.
  - pose proof (lookup_property_kinds key (db n')) as Hk'.
    rewrite Hkinds, <- lookup_property_kinds, Hprop, Hprop' in Hk'. done.
Qed.

(** What [ensureSelectOption] leaves behind: the cache still agrees with
    the service, the schema has only grown, and after a normal return the
    schema accepts the option. *)
Lemma ensureSelectOption_schema propertyName rawOption w :
  coherent w →
  coherent (ensureSelectOption propertyName rawOption w).2
  ∧ schema_grows (notion w) (notion (ensureSelectOption propertyName rawOption w).2)
  ∧ ∀ o, normalizeOptionName rawOption = Some o →
         (ensureSelectOption propertyName rawOption w).1 = Ok () →
         option_known (notion (ensureSelectOption propertyName rawOption w).2)
           propertyName o.
Proof.
  intros Hw. destruct (normalizeOptionName rawOption) as [o|] eqn:Hnorm.
  2:{ rewrite (ensureSelectOption_absent _ _ _ Hnorm). simpl.
      split; [done|]. split; [apply schema_grows_refl|done]. }
  destruct (getDatabase w) as [[d|e] w1] eqn:Hget.
  2:{ unfold ensureSelectOption. rewrite Hnorm. unfold truthy.
      rewrite (normalizeOptionName_truthy _ _ Hnorm). cbn [negb].
      rewrite (bind_throw _ _ _ _ _ Hget). simpl.
      destruct (evolves_getDatabase w Hw) as [Hw1 Hg]. rewrite Hget in Hw1, Hg.
      split; [done|]. split; [done|]. by intros o' _ ?. }
  destruct (getDatabase_ok_coherent w d w1 Hw Hget) as (Hw1 & -> & Hn).
  rewrite (ensureSelectOption_unfold _ _ _ _ _ _ Hnorm Hget). rewrite <- Hn.
  destruct (lookup_property propertyName (db (notion w1))) as [prop|] eqn:Hprop.
  2:{ simpl. split; [done|]. split; [apply schema_grows_refl|].
      intros o' _ _ prop'. by rewrite Hprop. }
  destruct (negb (bool_decide (type prop = "select"))
            && negb (bool_decide (type prop = "multi_select"))) eqn:Hkind.
  { simpl. split; [done|]. split; [apply schema_grows_refl|].
    intros o' _ _ prop' Hprop' Hcat. rewrite Hprop in Hprop'. simplify_eq.
    unfold categorical in Hcat.
    apply andb_true_iff in Hkind as [H1%negb_true_iff H2%negb_true_iff].
    apply bool_decide_eq_false in H1, H2. by destruct Hcat. }
  destruct (option_exists (options prop) o) eqn:Hexists.
  { simpl. split; [done|]. split; [apply schema_grows_refl|].
    intros o' [= <-] _ prop' Hprop' _. rewrite Hprop in Hprop'. by simplify_eq. }
  unfold mbind, M_bind, fetch, modify. cbn [fst snd].
  destruct (answer_cases (PatchDatabase propertyName (type prop) (options prop ++ [o]))
              (script w1) (notion w1))
    as [Hserved|(st & t & later & Hsc & Hst & Hrefused)].
  - rewrite Hserved. simpl. rewrite Hprop. simpl.
    match goal with |- context [getDatabase ?w] => set (w2 := w) end.
    assert (dbSchemaCache w2 = None) as Hc2 by done.
    pose proof (schema_grows_set_options (notion w1) propertyName prop o Hprop) as Hg.
    assert (option_known (notion w2) propertyName o) as Hknown.
    { intros prop' Hprop' _. simpl in Hprop'.
      rewrite (lookup_set_options _ _ _ _ _ Hprop eq_refl) in Hprop'.
      simplify_eq. simpl. unfold option_exists. rewrite existsb_app. simpl.
      rewrite bool_decide_eq_true_2 by done. by rewrite orb_true_r. }
    destruct (getDatabase_cold w2 Hc2)
      as [(st' & t' & later' & _ & _ & Hcold)|Hcold].
    + rewrite Hcold. simpl.
      split; [by intros d|]. split; [done|]. by intros o' _ ?.
    + rewrite Hcold. simpl.
      split; [by intros d [= <-]|]. split; [done|]. by intros o' [= <-] _.
  - rewrite Hrefused. unfold ok. simpl. rewrite Hst. simpl.
    split; [done|]. split; [apply schema_grows_refl|]. by intros o' _ ?.
Qed.

Lemma evolves_ensureSelectOption propertyName rawOption :
  keeps evolves (ensureSelectOption propertyName rawOption).
Proof.
  intros w Hw. destruct (ensureSelectOption_schema propertyName rawOption w Hw)
    as (H1 & H2 & _). done.
Qed.

Lemma evolves_when v m :
  (∀ o, keeps evolves (m o)) → keeps evolves (when v m).
Proof. intros Hm. apply keeps_when; [apply _|done]. Qed.

Lemma evolves_prepare issue : keeps evolves (prepare issue).
Proof.
  unfold prepare, getTitlePropertyName, findPageByIssueId, nowISO.
  keeps_steps ltac:(first [ apply evolves_ensureSelectOption
                          | apply evolves_getDatabase
                          | by apply schema_kept_evolves, schema_kept_fetch ]).
Qed.

Lemma schema_kept_commit issue props existing :
  keeps schema_kept (commit issue props existing).
Proof.
  unfold commit, appendSyncComment, nowISO.
  keeps_steps ltac:(by apply schema_kept_notionWrite).
Qed.

Lemma evolves_upsert REQUIRED_LABEL issue : keeps evolves (upsert REQUIRED_LABEL issue).
Proof.
  unfold upsert.
  keeps_steps ltac:(first [ apply evolves_prepare
                          | apply schema_kept_evolves, schema_kept_commit
                          | apply schema_kept_evolves, schema_kept_on_summary ]).
Qed.

Lemma evolves_visit REQUIRED_LABEL issue : keeps evolves (visit REQUIRED_LABEL issue).
Proof.
  unfold visit.
  keeps_steps ltac:(first [ apply evolves_upsert
                          | apply schema_kept_evolves, schema_kept_on_summary
                          | apply schema_kept_evolves, schema_kept_sleep ]).
Qed.

Lemma evolves_run REQUIRED_LABEL f w : evolves w (run REQUIRED_LABEL f w).2.
Proof.
  revert w; induction f as [issue rest IH| |e]; intros w; simpl; [|done..].
  etrans; [apply (evolves_visit REQUIRED_LABEL issue w)|apply IH].
Qed.

Lemma fold_insert_lookup_elem (es : list (string * propval)) (m : gmap string propval) k x :
  fold_left (λ m e, <[e.1 := e.2]> m) es m !! k = Some x →
  m !! k = Some x ∨ (k, x) ∈ es.
Proof.
  revert m; induction es as [|[k' x'] es IH]; intros m; simpl; [by left|].
  intros [Hm|Hes]%IH; [|right; by right].
  destruct (decide (k' = k)) as [->|Hne].
  - rewrite lookup_insert_eq in Hm. injection Hm as ->. right. by left.
  - rewrite lookup_insert_ne in Hm by done. by left.
Qed.

Lemma copy_title_select d issue props k v :
  copy_title d issue props !! k = Some (PSelect v) → props !! k = Some (PSelect v).
Proof.
  unfold copy_title. case_bool_decide; [|done].
  destruct (decide (k = "Title")) as [->|Hne].
  - by rewrite lookup_insert_eq.
  - by rewrite lookup_insert_ne.
Qed.

(** A select value among the properties is one of the six normalized
    fields, under its own key. *)
Lemma build_props_select titlePropName now issue k v :
  build_props titlePropName now issue !! k = Some (PSelect v) →
  (k, Some v) ∈ select_fields issue.
Proof.
  unfold build_props, object. intros [Hm|He]%fold_insert_lookup_elem; [done|].
  assert (∀ key f, (k, PSelect v) ∈ spread_select key f → (k, Some v) = (key, f))
    as Hspread.
  { intros key [o|]; unfold spread_select; simpl; [|by intros ?%elem_of_nil].
    destruct (nonempty o); [|by intros ?%elem_of_nil].
    by intros [= -> ->]%list_elem_of_singleton. }
  unfold select_fields.
  repeat (apply elem_of_cons in He as [He|He] || apply elem_of_app in He as [He|He]);
    try done; try (apply Hspread in He; rewrite He; set_solver).
  - unfold spread_date in He. destruct (truthy (dueDate issue));
      [by apply list_elem_of_singleton in He|by apply elem_of_nil in He].
  - by apply elem_of_nil in He.
Qed.

Lemma when_ensure key field w w' :
  coherent w →
  when field (λ v, ensureSelectOption key (VStr v)) w = (Ok (), w') →
  coherent w' ∧ schema_grows (notion w) (notion w')
  ∧ ∀ o, field = Some o → normalizeOptionName (VStr o) = Some o →
         option_known (notion w') key o.
Proof.
  intros Hw Hrun. unfold when in Hrun. destruct field as [o|]; simpl in Hrun.
  - destruct (nonempty o) eqn:Ho.
    + destruct (ensureSelectOption_schema key (VStr o) w Hw) as (H1 & H2 & H3).
      rewrite Hrun in H1, H2, H3. simpl in *.
      split; [done|]. split; [done|]. intros o' [= <-] Hnorm. by apply H3.
    + injection Hrun as <-. split; [done|]. split; [apply schema_grows_refl|].
      intros o' [= <-] Hnorm%normalizeOptionName_truthy. congruence.
  - injection Hrun as <-. split; [done|]. split; [apply schema_grows_refl|done].
Qed.

Lemma title_of_find d :
  title_of d = fst <$> List.find (λ e, bool_decide (type e.2 = "title")) (properties d).
Proof.
  unfold title_of, kinds. destruct d as [ps]. simpl.
  induction ps as [|[k v] ps IH]; simpl; [done|].
  destruct (bool_decide (type v = "title")); [done|apply IH].
Qed.

Lemma title_of_grows n n' : schema_grows n n' → title_of (db n') = title_of (db n).
Proof. intros [Hkinds _]. unfold title_of. by rewrite Hkinds. Qed.

Lemma getTitlePropertyName_ok w t w' :
  coherent w → getTitlePropertyName w = (Ok t, w') →
  title_of (db (notion w)) = Some t.
Proof.
  intros Hw H. unfold getTitlePropertyName in H.
  apply bind_inv in H as (d & w1 & Hget & H).
  destruct (getDatabase_ok_coherent w d w1 Hw Hget) as (_ & -> & <-).
  rewrite title_of_find. destruct (List.find _ _) as [e|]; [|done].
  by injection H as <- <-.
Qed.

Lemma prepare_ensures issue w props existing w1 :
  coherent w → prepare issue w = (Ok (props, existing), w1) →
  coherent w1
  ∧ (∀ key o, (key, Some o) ∈ select_fields issue → option_known (notion w1) key o)
  ∧ ∃ t now, props = copy_title (db (notion w1)) issue (build_props t now issue)
             ∧ title_of (db (notion w)) = Some t.
Proof.
  intros Hw H. unfold prepare in H.
  apply bind_inv in H as ([] & wa & Ha & H).
  apply (when_ensure _ _ _ _ Hw) in Ha as (Hwa & Ga & Ka).
  apply bind_inv in H as ([] & wb & Hb & H).
  apply (when_ensure _ _ _ _ Hwa) in Hb as (Hwb & Gb & Kb).
  apply bind_inv in H as ([] & wc & Hc & H).
  apply (when_ensure _ _ _ _ Hwb) in Hc as (Hwc & Gc & Kc).
  apply bind_inv in H as ([] & wd & Hd & H).
  apply (when_ensure _ _ _ _ Hwc) in Hd as (Hwd & Gd & Kd).
  apply bind_inv in H as ([] & we & He & H).
  apply (when_ensure _ _ _ _ Hwd) in He as (Hwe & Ge & Ke).
  apply bind_inv in H as ([] & wf & Hf & H).
  apply (when_ensure _ _ _ _ Hwe) in Hf as (Hwf & Gf & Kf).
  assert (coherent w1 ∧ schema_grows (notion wf) (notion w1)) as [Hw1 Gt].
  { match type of H with ?m wf = _ => assert (keeps evolves m) as Hm end.
    { unfold getTitlePropertyName, findPageByIssueId, nowISO.
      keeps_steps ltac:(first [ apply evolves_getDatabase
                              | by apply schema_kept_evolves, schema_kept_fetch ]). }
    specialize (Hm wf Hwf). by rewrite H in Hm. }
  split; [done|].
  pose proof (schema_grows_trans _ _ _ Gf Gt) as Te.
  pose proof (schema_grows_trans _ _ _ Ge Te) as Td.
  pose proof (schema_grows_trans _ _ _ Gd Td) as Tc.
  pose proof (schema_grows_trans _ _ _ Gc Tc) as Tb.
  pose proof (schema_grows_trans _ _ _ Gb Tb) as Ta.
  split.
  2:{ apply bind_inv in H as (t & wt & Ht & H).
      assert (coherent wt) as Hwt.
      { assert (keeps evolves getTitlePropertyName) as Hm.
        { unfold getTitlePropertyName. keeps_steps ltac:(apply evolves_getDatabase). }
        specialize (Hm wf Hwf). rewrite Ht in Hm. apply Hm. }
      apply (getTitlePropertyName_ok _ _ _ Hwf) in Ht.
      apply bind_inv in H as (now & wn & Hnow & H). injection Hnow as _ <-.
      apply bind_inv in H as (d & wr & Hread & H).
      destruct (getDatabase_ok_coherent wt d wr Hwt Hread) as (_ & -> & _).
      apply bind_inv in H as (found & wq & Hq & H).
      assert (db (notion wq) = db (notion wr)) as Hdb.
      { assert (keeps schema_kept (findPageByIssueId (identifier issue))) as Hm.
        { unfold findPageByIssueId. keeps_steps ltac:(by apply schema_kept_fetch). }
        specialize (Hm wr). rewrite Hq in Hm. apply Hm. }
      injection H as <- _ <-. exists t, now. rewrite Hdb. split; [done|].
      rewrite <- Ht. symmetry. apply title_of_grows.
      exact (schema_grows_trans _ _ _ Ga (schema_grows_trans _ _ _ Gb
               (schema_grows_trans _ _ _ Gc (schema_grows_trans _ _ _ Gd
                  (schema_grows_trans _ _ _ Ge Gf))))). }
  intros key o Hin. unfold select_fields in Hin.
  repeat (apply elem_of_cons in Hin as [Hin|Hin]); [..|by apply elem_of_nil in Hin];
    apply (inj2 pair) in Hin as [-> Hfield]; symmetry in Hfield;
    pose proof (normalizeOptionName_fixed _ _ Hfield) as Hnorm.
  - apply (option_known_grows _ _ _ _ Ta). by apply Ka.
  - apply (option_known_grows _ _ _ _ Tb). by apply Kb.
  - apply (option_known_grows _ _ _ _ Tc). by apply Kc.
  - apply (option_known_grows _ _ _ _ Td). by apply Kd.
  - apply (option_known_grows _ _ _ _ Te). by apply Ke.
  - apply (option_known_grows _ _ _ _ Gt). by apply Kf.
Qed.

End Schema.

(** X7.  Over a whole run the schema of the destination only grows: its
    properties and their kinds stay as they were and every list of options
    is extended at its end, so no option is ever dropped or reordered; and
    when the run ends the cached schema, if any, is the one the service
    holds. *)
Theorem schema_append_only (REQUIRED_LABEL : string) (replies : list linear_reply)
    (n : notion_t) (sc : list (Z * string)) (t0 : N) :
  schema_grows n (notion (main REQUIRED_LABEL replies n sc t0).2)
  ∧ coherent (main REQUIRED_LABEL replies n sc t0).2.
Proof.
  destruct (evolves_run REQUIRED_LABEL (fetchUpdatedIssuesSince replies) (boot n sc t0))
    as [Hcoh Hgrows]; [by intros d|]. done.
Qed.

(** X8.  Every select value that [upsert] is about to write has been made
    known to the schema first: when the preparation of a record returns,
    each select property among the properties to write names an option the
    schema of the service accepts (if the property is a select or
    multi_select at all), and the page writes that follow leave the schema
    as it is. *)
Theorem options_ensured (issue : Issue) (w w1 : world)
    (props : gmap string propval) (existing : option page) (key v : string) :
  coherent w →
  prepare issue w = (Ok (props, existing), w1) →
  props !! key = Some (PSelect v) →
  option_known (notion w1) key v
  ∧ db (notion (commit issue props existing w1).2) = db (notion w1).
Proof.
  intros Hw Hprep Hkey. split; [|apply schema_kept_commit].
  destruct (prepare_ensures issue w props existing w1 Hw Hprep)
    as (_ & Hknown & t & now & -> & _).
  by apply Hknown, (build_props_select t now), (copy_title_select (db (notion w1)) issue).
Qed.

Lemma options_ensured_witness :
  option_known
    (notion (prepare unlabelled_issue (boot small_notion [] 0)).2) "Priority" "High"
  ∧ option_known
      (notion (prepare unlabelled_issue (boot small_notion [] 0)).2) "Status" "Todo".
Proof.
  pose (out := prepare unlabelled_issue (boot small_notion [] 0)).
  pose (looked := match out.1 with Ok r => r | Throw _ => (∅, None) end).
  split.
  - apply (options_ensured unlabelled_issue (boot small_notion [] 0) out.2
             looked.1 looked.2 "Priority" "High").
    + intros d Hd. discriminate Hd.
    + vm_compute. reflexivity.
    + vm_compute. reflexivity.
  - apply (options_ensured unlabelled_issue (boot small_notion [] 0) out.2
             looked.1 looked.2 "Status" "Todo").
    + intros d Hd. discriminate Hd.
    + vm_compute. reflexivity.
    + vm_compute. reflexivity.
Defined.

(** ** An empty required label *)

Section EmptyLabel.

Lemma toLowerCase_empty s : toLowerCase s = "" → s = "".
Proof. by destruct s. Qed.

Lemma hasRequired_empty issue : hasRequired "" issue = false.
Proof.
  unfold hasRequired, labels_of. apply not_true_is_false.
  intros (l & Hl & Heq)%existsb_exists. apply filter_In in Hl as [_ Hl].
  apply bool_decide_eq_true in Heq. apply toLowerCase_empty in Heq. by subst l.
Qed.

Lemma run_empty_label f : ∀ w,
  let w' := (run "" f w).2 in
  notion w' = notion w
  ∧ trace w' = (trace w ++ replicate (List.length (yielded f)) (Sleep 200))%list
  ∧ skippedNoLabel (summary w') = skippedNoLabel (summary w) + List.length (yielded f)
  ∧ created (summary w') = created (summary w)
  ∧ updated (summary w') = updated (summary w)
  ∧ errors (summary w') = errors (summary w).
Proof.
  induction f as [issue rest IH| |e]; intros w; simpl;
    [|by rewrite app_nil_r, Nat.add_0_r..].
  specialize (IH (visit "" issue w).2). simpl in IH.
  destruct IH as (-> & -> & -> & -> & -> & ->).
  rewrite visit_settled, (upsert_unlabelled "" issue _ (hasRequired_empty issue)).
  simpl. rewrite <- app_assoc. simpl. repeat split; lia.
Qed.

End EmptyLabel.

(** X9.  When [REQUIRED_LABEL] is the empty string the label guard of
    [upsert] lets no record through: the labels it compares with are the
    non-empty names, and none of them equals the empty string.  So every
    record of the feed is skipped, the destination gets no call at all (the
    run only pauses) and stays as it was. *)
Theorem empty_label_skips_all (replies : list linear_reply) (n : notion_t)
    (sc : list (Z * string)) (t0 : N) :
  let records := yielded (fetchUpdatedIssuesSince replies) in
  let out := main "" replies n sc t0 in
  (∀ issue, hasRequired "" issue = false)
  ∧ notion out.2 = n
  ∧ trace out.2 = replicate (List.length records) (Sleep 200)
  ∧ skippedNoLabel (summary out.2) = List.length records
  ∧ created (summary out.2) = 0
  ∧ updated (summary out.2) = 0
  ∧ errors (summary out.2) = 0.
Proof.
  intros records out. split; [apply hasRequired_empty|].
  destruct (run_empty_label (fetchUpdatedIssuesSince replies) (boot n sc t0))
    as (H1 & H2 & H3 & H4 & H5 & H6).
  done.
Qed.

(** ** A database without a title property *)

Section Untitled.

Variable REQUIRED_LABEL : string.

#[global] Instance untouched_preorder : PreOrder untouched.
Proof.
  split; [by intros w|]. intros w1 w2 w3 (H1 & H2 & H3) (H1' & H2' & H3').
  repeat split; congruence.
Qed.

Lemma untouched_fetch req : on_database req → keeps untouched (fetch req).
Proof.
  intros Hreq w.
  destruct (answer_on_database req (script w) (notion w) Hreq) as [Hpages Hnext].
  by repeat split.
Qed.

Lemma untouched_modify_cache c : keeps untouched (modify (with_cache c)).
Proof. by intros w. Qed.

Ltac untouched_base :=
  first [ by apply untouched_fetch | apply untouched_modify_cache ].

Lemma untouched_getDatabase : keeps untouched getDatabase.
Proof. unfold getDatabase. keeps_steps ltac:(untouched_base). Qed.

Lemma untouched_ensureSelectOption propertyName rawOption :
  keeps untouched (ensureSelectOption propertyName rawOption).
Proof.
  unfold ensureSelectOption.
  keeps_steps ltac:(first [apply untouched_getDatabase | untouched_base]).
Qed.

(** The preparation of a record touches neither the pages nor the
    summary. *)
Lemma untouched_prepare issue : keeps untouched (prepare issue).
Proof.
  unfold prepare, getTitlePropertyName, findPageByIssueId, nowISO.
  keeps_steps ltac:(first [ apply untouched_ensureSelectOption
                          | apply untouched_getDatabase | untouched_base ]).
Qed.

Lemma upsert_untitled issue w :
  coherent w → title_of (db (notion w)) = None →
  hasRequired REQUIRED_LABEL issue = true →
  ∃ e w1, upsert REQUIRED_LABEL issue w = (Throw e, w1) ∧ untouched w w1.
Proof.
  intros Hw Htitle Hgate. unfold upsert. rewrite Hgate. cbn [negb]. cbv iota.
  pose proof (untouched_prepare issue w) as Hprep.
  destruct (prepare issue w) as [[[props existing]|e] w1] eqn:Hrun.
  - destruct (prepare_ensures issue w props existing w1 Hw Hrun)
      as (_ & _ & t & now & _ & Ht). congruence.
  - exists e, w1. by rewrite (bind_throw _ _ _ _ _ Hrun).
Qed.

Lemma run_untitled f : ∀ w,
  coherent w → title_of (db (notion w)) = None →
  let w' := (run REQUIRED_LABEL f w).2 in
  pages (notion w') = pages (notion w)
  ∧ created (summary w') = created (summary w)
  ∧ updated (summary w') = updated (summary w)
  ∧ errors (summary w')
    = errors (summary w) + List.length (List.filter (hasRequired REQUIRED_LABEL) (yielded f)).
Proof.
  induction f as [issue rest IH| |e]; intros w Hw Htitle; simpl;
    [|by rewrite Nat.add_0_r..].
  destruct (evolves_visit REQUIRED_LABEL issue w Hw) as [Hw1 Hgrows].
  apply title_of_grows in Hgrows. rewrite Htitle in Hgrows.
  destruct (IH _ Hw1 Hgrows) as (-> & -> & -> & ->).
  rewrite visit_settled. set (w0 := with_summary (incr_processed (summary w)) w).
  destruct (hasRequired REQUIRED_LABEL issue) eqn:Hgate.
  - destruct (upsert_untitled issue w0 Hw Htitle Hgate)
      as (msg & w1 & -> & Hp & _ & Hs).
    simpl. rewrite Hp, Hs. simpl. repeat split; lia.
  - rewrite (upsert_unlabelled _ _ _ Hgate). simpl. repeat split; lia.
Qed.

End Untitled.

(** X10.  When the database has no property of kind title, no record can
    be written: every record that carries the required label is counted as
    an error and none as created or updated, and the pages of the
    destination stay exactly as they were. *)
Theorem untitled_database (REQUIRED_LABEL : string) (replies : list linear_reply)
    (n : notion_t) (sc : list (Z * string)) (t0 : N) :
  title_of (db n) = None →
  let records := yielded (fetchUpdatedIssuesSince replies) in
  let out := main REQUIRED_LABEL replies n sc t0 in
  pages (notion out.2) = pages n
  ∧ created (summary out.2) = 0
  ∧ updated (summary out.2) = 0
  ∧ errors (summary out.2)
    = List.length (List.filter (hasRequired REQUIRED_LABEL) records).
Proof.
  intros Htitle records out.
  by apply (run_untitled REQUIRED_LABEL (fetchUpdatedIssuesSince replies)
              (boot n sc t0)).
Qed.

Lemma untitled_database_witness :
  errors (summary (main REQUIRED_LABEL_default [first_reply] untitled_notion [] 0).2) = 1.
Proof.
  apply (untitled_database REQUIRED_LABEL_default [first_reply] untitled_notion [] 0%N).
  reflexivity.
Defined.

(** ** The update of a record that has its page *)

Section Update.

#[global] Instance trace_grows_preorder : PreOrder trace_grows.
Proof.
  split.
  - intros w. exists []. by rewrite app_nil_r.
  - intros w1 w2 w3 [e1 H1] [e2 H2]. exists (e1 ++ e2)%list.
    by rewrite H2, H1, app_assoc.
Qed.

Lemma trace_grows_fetch req : keeps trace_grows (fetch req).
Proof. intros w. by eexists. Qed.

Lemma trace_grows_sleep ms : keeps trace_grows (sleep ms).
Proof. intros w. by eexists. Qed.

Lemma trace_grows_doFetch fuel req : keeps trace_grows (doFetch fuel req).
Proof.
  induction fuel as [|fuel IH]; cbn [doFetch];
    keeps_steps ltac:(first [ apply trace_grows_fetch | apply trace_grows_sleep
                            | apply IH ]).
Qed.

Lemma trace_grows_notionWrite req : keeps trace_grows (notionWrite req).
Proof. unfold notionWrite. keeps_steps ltac:(apply trace_grows_doFetch). Qed.

(** With a page found by the lookup, the first call of [commit] is the
    patch of that page with the properties built for the record. *)
Lemma commit_update_trace issue props p w :
  ∃ st later,
    trace (commit issue props (Some p) w).2
    = (trace w ++ Fetch (PatchPage (Some (page_id p)) props) st :: later)%list.
Proof.
  set (req := PatchPage (Some (page_id p)) props).
  destruct (script_split (script w)) as (texts & rest & Hsc & Hrest).
  pose proof (notionWrite_retries req w texts rest Hsc Hrest) as Hwrite.
  simpl in Hwrite.
  assert (trace_grows (notionWrite req w).2 (commit issue props (Some p) w).2)
    as [events Hevents].
  { unfold commit. fold req. destruct (notionWrite req w) as [[j|e] w2] eqn:Hrun.
    - rewrite (bind_ok _ _ w (Some (page_id p), Updated) w2)
        by (by rewrite (bind_ok _ _ _ _ _ Hrun)).
      cbn [fst snd].
      match goal with
      | |- trace_grows _ (?m w2).2 => assert (keeps trace_grows m) as Hm
      end.
      { unfold appendSyncComment, nowISO.
        keeps_steps ltac:(apply trace_grows_notionWrite). }
      apply Hm.
    - rewrite (bind_throw _ _ w e w2) by (by rewrite (bind_throw _ _ _ _ _ Hrun)).
      reflexivity. }
  rewrite Hevents, Hwrite. simpl.
  destruct texts as [|text texts]; simpl; rewrite <- ?app_assoc; simpl;
    by eexists _, _.
Qed.

End Update.

(** C1, as stated, fails for two runs in general: when the create call of
    a record is refused in the first run the record is counted as an error
    and gets no page, and the second run over the same feed creates it. *)
Lemma upsert_twice_counterexample :
  let first :=
    (main REQUIRED_LABEL_default [first_reply] small_notion
       [(200%Z, "ok"); (200%Z, "ok"); (500%Z, "boom")] 0).2 in
  let second :=
    (main REQUIRED_LABEL_default [first_reply] (notion first) [] 0).2 in
  wf_notion small_notion
  ∧ errors (summary first) = 1
  ∧ pages (notion first) = []
  ∧ created (summary second) = 1.
Proof.
  split; [split; constructor|]. vm_compute. repeat split; reflexivity.
Qed.

(** C1, amended.  When a page already carries the external identifier of a
    record, [upsert] never takes the create branch: no create call is made
    and no page is added.  For a record with the required label it takes
    the update branch: once the lookup has returned, it has found a page
    that carries the identifier, and the first call that follows is the
    patch of that very page with the properties built for the record; when
    the [upsert] succeeds its outcome is the update of that page.  Hence a
    second run over the same feed, after a first run in which no record
    errored, creates no record: its created counter is zero, it makes no
    create call and the pages of the destination are the same, whatever
    replies the destination gives. *)
Theorem upsert_idempotent (REQUIRED_LABEL : string) :
  (∀ issue w,
     wf_notion (notion w) →
     has_page (identifier issue) (notion w) = true →
     let out := upsert REQUIRED_LABEL issue w in
     posts (trace out.2) = posts (trace w)
     ∧ keys (notion out.2) = keys (notion w)
     ∧ (∀ res, out.1 = Ok res → action res ≠ Created)
     ∧ (hasRequired REQUIRED_LABEL issue = true →
        ∀ res, out.1 = Ok res →
          action res = Updated
          ∧ ∃ i, pageId res = Some i
                 ∧ (i, Some (identifier issue)) ∈ keys (notion w))
     ∧ (hasRequired REQUIRED_LABEL issue = true →
        ∀ props existing w1,
          prepare issue w = (Ok (props, existing), w1) →
          ∃ p st later,
            existing = Some p
            ∧ head (List.filter (has_issue_id (identifier issue)) (pages (notion w)))
              = Some p
            ∧ trace out.2
              = (trace w1 ++ Fetch (PatchPage (Some (page_id p)) props) st :: later)%list
            ∧ ∀ res, out.1 = Ok res → pageId res = Some (page_id p)))
  ∧ (∀ replies n sc1 sc2 t1 t2,
       wf_notion n →
       let first := (main REQUIRED_LABEL replies n sc1 t1).2 in
       let second := (main REQUIRED_LABEL replies (notion first) sc2 t2).2 in
       errors (summary first) = 0 →
       created (summary second) = 0
       ∧ posts (trace second) = 0
       ∧ keys (notion second) = keys (notion first)).
Proof.
  split.
  - intros issue w Hwf Hhas out. unfold out.
    destruct (hasRequired REQUIRED_LABEL issue) eqn:Hgate.
    + destruct (upsert_spec REQUIRED_LABEL issue w Hgate) as (_ & Haction & Hrest).
      destruct (Hrest Hwf) as (_ & _ & Hquiet & _).
      destruct (Hquiet Hhas) as (_ & Hkeys & _ & Hposts).
      rewrite Hhas in Haction. split; [done|]. split; [done|]. split; [|split].
      * intros res Hres. destruct (Haction res Hres) as [-> _]. done.
      * intros _ res Hres. by apply Haction.
      * intros _ props existing w1 Hprep.
        destruct (prepare_ok _ _ _ _ _ Hprep) as [Hfound _].
        destruct (untouched_prepare issue w) as (Hpages & _).
        rewrite Hprep in Hpages. simpl in Hpages. rewrite Hpages in Hfound.
        destruct existing as [p|].
        2:{ symmetry in Hfound. apply head_filter_None in Hfound. congruence. }
        unfold upsert. rewrite Hgate. cbn [negb]. cbv iota.
        rewrite (bind_ok _ _ _ _ _ Hprep). cbn [fst snd].
        destruct (commit_update_trace issue props p w1) as (st & later & Htrace).
        exists p, st, later. split; [done|]. split; [done|]. split; [done|].
        intros res Hres.
        destruct (commit issue props (Some p) w1) as [r w2] eqn:Hrun.
        simpl in Hres. subst r. unfold commit in Hrun.
        apply bind_inv in Hrun as (written & w3 & Hwritten & Hrun).
        destruct (commit_tail issue written) as [_ Htail].
        rewrite (Htail w3 res) by (by rewrite Hrun). simpl.
        apply bind_inv in Hwritten as (j & w4 & _ & Hret). by injection Hret as <- _.
    + rewrite (upsert_unlabelled _ _ _ Hgate). simpl.
      split; [done|]. split; [done|]. split; [by intros res [= <-]|]. by split.
  - intros replies n sc1 sc2 t1 t2 Hwf first second Herr.
    unfold second, first, main in *.
    set (f := fetchUpdatedIssuesSince replies) in *.
    destruct (run_pages REQUIRED_LABEL f (boot n sc1 t1) Hwf) as (Hwf1 & _ & _).
    pose proof (run_covers REQUIRED_LABEL f (boot n sc1 t1) Hwf Herr) as Hcover.
    destruct (run_creates_nothing REQUIRED_LABEL f
                (boot (notion (run REQUIRED_LABEL f (boot n sc1 t1)).2) sc2 t2)
                Hwf1 Hcover) as (Hkeys & Hcreated & Hposts).
    by repeat split.
Qed.

Lemma upsert_idempotent_witness :
  created (summary (main REQUIRED_LABEL_default [first_reply]
                      (notion (main REQUIRED_LABEL_default [first_reply]
                                 small_notion [] 0).2) [] 0).2) = 0
  ∧ posts (trace (upsert REQUIRED_LABEL_default bare_issue
                    (main REQUIRED_LABEL_default [first_reply] small_notion [] 0).2).2)
    = posts (trace (main REQUIRED_LABEL_default [first_reply] small_notion [] 0).2)
  ∧ ∃ props st,
      Fetch (PatchPage (Some 1%N) props) st
      ∈ trace (upsert REQUIRED_LABEL_default bare_issue
                 (main REQUIRED_LABEL_default [first_reply] small_notion [] 0).2).2.
Proof.
  destruct (upsert_idempotent REQUIRED_LABEL_default) as [Honce Htwice].
  pose (w := (main REQUIRED_LABEL_default [first_reply] small_notion [] 0).2).
  split; [|split].
  - destruct (Htwice [first_reply] small_notion [] [] 0%N 0%N) as (Hcreated & _).
    + split; constructor.
    + vm_compute. reflexivity.
    + exact Hcreated.
  - destruct (Honce bare_issue w) as (Hposts & _).
    + unfold wf_notion. vm_compute. split; [apply NoDup_singleton|repeat constructor].
    + vm_compute. reflexivity.
    + exact Hposts.
  - pose (looked := match (prepare bare_issue w).1 with
                    | Ok r => r
                    | Throw _ => (∅, None)
                    end).
    destruct (Honce bare_issue w) as (_ & _ & _ & _ & Hpatch).
    + unfold wf_notion. vm_compute. split; [apply NoDup_singleton|repeat constructor].
    + vm_compute. reflexivity.
    + destruct (Hpatch eq_refl looked.1 looked.2 (prepare bare_issue w).2)
        as (p & st & later & Hex & Hhead & Htrace & _).
      * vm_compute. reflexivity.
      * assert (page_id p = 1%N) as Hid
          by (vm_compute in Hhead; by injection Hhead as <-).
        exists looked.1, st. fold w. rewrite Htrace, Hid.
        apply elem_of_app. right. by left.
Defined.

(** ** What a run leaves of the pages *)

Section Kept.

Variable ks : list string.

Lemma page_kept_refl p : page_kept ks p p.
Proof. by repeat split. Qed.

Lemma page_kept_trans p1 p2 p3 :
  page_kept ks p1 p2 → page_kept ks p2 p3 → page_kept ks p1 p3.
Proof.
  intros (Hid & Hch & Hprops) (Hid' & Hch' & Hprops').
  split; [congruence|]. split; [by etrans|].
  intros k Hk. by rewrite Hprops', Hprops.
Qed.

Lemma pages_kept_refl n : pages_kept ks n n.
Proof.
  exists (pages n), []. split; [by rewrite app_nil_r|].
  apply Forall2_same_length_lookup. split; [done|].
  intros i p p' Hp Hp'. assert (p' = p) as -> by congruence. apply page_kept_refl.
Qed.

Lemma pages_kept_trans n1 n2 n3 :
  pages_kept ks n1 n2 → pages_kept ks n2 n3 → pages_kept ks n1 n3.
Proof.
  intros (kept & new & H2 & Hkept) (kept' & new' & H3 & Hkept').
  rewrite H2 in Hkept'.
  apply Forall2_app_inv_l in Hkept' as (a & b & Ha & Hb & ->).
  exists a, (b ++ new')%list. split; [by rewrite H3, app_assoc|].
  clear -Hkept Ha. revert a Ha.
  induction Hkept as [|p q ps qs Hpq _ IH]; intros a Ha.
  - apply Forall2_nil_inv_l in Ha as ->. constructor.
  - apply Forall2_cons_inv_l in Ha as (r & rs & Hqr & Hrs & ->).
    constructor; [by eapply page_kept_trans|by apply IH].
Qed.

#[global] Instance kept_by_preorder : PreOrder (kept_by ks).
Proof.
  split; [intros w; apply pages_kept_refl|].
  intros w1 w2 w3. apply pages_kept_trans.
Qed.

Lemma pages_kept_update n i f :
  (∀ p, page_kept ks p (f p)) →
  pages_kept ks n {| db := db n; pages := update_page i f (pages n); next_id := next_id n |}.
Proof.
  intros Hf. exists (update_page i f (pages n)), []. split; [by rewrite app_nil_r|].
  unfold update_page. apply Forall2_fmap_r, Forall2_same_length_lookup.
  split; [done|]. intros k p p' Hp Hp'. assert (p' = p) as -> by congruence.
  simpl. destruct (bool_decide (page_id p = i)); [apply Hf|apply page_kept_refl].
Qed.

(** What the service does to the pages on a call that sets no property
    outside [ks]. *)
Lemma serve_pages_kept req n : within ks req → pages_kept ks n (serve req n).2.
Proof.
  intros Hreq. destruct req as [|name ty opts|ident|props|pid props|pid blocks]; simpl.
  - apply pages_kept_refl.
  - destruct (lookup_property _ _); [|apply pages_kept_refl].
    destruct (pages_kept_refl n) as (kept & new & Hn & Hkept). by exists kept, new.
  - apply pages_kept_refl.
  - destruct (pages_kept_refl n) as (kept & new & Hn & Hkept).
    eexists (pages n), [_]. split; [done|].
    rewrite Hn in Hkept. rewrite Hn.
    apply Forall2_same_length_lookup. split; [done|].
    intros i p p' Hp Hp'. assert (p' = p) as -> by congruence. apply page_kept_refl.
  - destruct (find_page _ _); [|apply pages_kept_refl]. simpl.
    apply pages_kept_update. intros q. split; [done|]. split; [done|].
    intros k Hk. simpl. apply lookup_union_r. by apply Hreq.
  - destruct (find_page _ _); [|apply pages_kept_refl]. simpl.
    apply pages_kept_update. intros q. split; [done|]. split; [|done].
    simpl. by apply prefix_app_r.
Qed.

Lemma kept_by_fetch req : within ks req → keeps (kept_by ks) (fetch req).
Proof.
  intros Hreq w. unfold kept_by. simpl.
  destruct (answer_cases req (script w) (notion w))
    as [-> | (st & t & later & _ & _ & ->)];
    [by apply serve_pages_kept|apply pages_kept_refl].
Qed.

Lemma kept_by_same {A} (m : M A) :
  (∀ w, notion (m w).2 = notion w) → keeps (kept_by ks) m.
Proof. intros Hm w. unfold kept_by. rewrite Hm. apply pages_kept_refl. Qed.

Lemma kept_by_doFetch fuel req : within ks req → keeps (kept_by ks) (doFetch fuel req).
Proof.
  intros Hreq. induction fuel as [|fuel IH]; cbn [doFetch];
    keeps_steps ltac:(first [ by apply kept_by_fetch | by apply kept_by_same
                            | apply IH ]).
Qed.

Lemma kept_by_notionWrite req : within ks req → keeps (kept_by ks) (notionWrite req).
Proof.
  intros Hreq. unfold notionWrite. keeps_steps ltac:(by apply kept_by_doFetch).
Qed.

Lemma kept_by_untouched {A} (m : M A) : keeps untouched m → keeps (kept_by ks) m.
Proof.
  intros Hm w. destruct (Hm w) as (Hpages & _). unfold kept_by.
  exists (pages (notion w)), []. rewrite Hpages, app_nil_r. split; [done|].
  apply Forall2_same_length_lookup. split; [done|].
  intros i p p' Hp Hp'. assert (p' = p) as -> by congruence. apply page_kept_refl.
Qed.

Lemma kept_by_commit issue props existing :
  "Last Sync" ∈ ks → (∀ k, k ∉ ks → props !! k = None) →
  keeps (kept_by ks) (commit issue props existing).
Proof.
  intros Hsync Hprops. unfold commit, appendSyncComment, nowISO.
  assert (∀ pid now, within ks (PatchPage pid {[ "Last Sync" := PDate now (Some "Europe/Berlin") ]}))
    as Hlast.
  { intros pid now k Hk. apply lookup_singleton_ne. by intros <-. }
  keeps_steps ltac:(first [ by apply kept_by_notionWrite
                          | apply kept_by_notionWrite, Hlast ]).
Qed.

End Kept.

Section Preserved.

Variable REQUIRED_LABEL : string.
Variable d0 : database.

Lemma props_within d issue t now k :
  title_of d0 = Some t → k ∉ written_keys d0 →
  copy_title d issue (build_props t now issue) !! k = None.
Proof.
  intros Ht Hk. unfold written_keys in Hk. rewrite Ht in Hk.
  rewrite list_elem_of_In in Hk. simpl in Hk.
  rewrite copy_title_lookup_ne by (intros ->; tauto).
  destruct (build_props_tail_keys t now issue) as (rest & -> & Hrest).
  rewrite fold_insert_lookup_ne.
  - rewrite lookup_insert_ne by (intros ->; tauto). done.
  - intros e He <-. apply Hk. specialize (Hrest e He).
    repeat (destruct Hrest as [Hrest|Hrest]);
      match type of Hrest with
      | _ ∧ _ => destruct Hrest as [Hrest _]
      | _ => idtac
      end; rewrite Hrest; tauto.
Qed.

Lemma upsert_pages_kept issue w :
  coherent w → title_of (db (notion w)) = title_of d0 →
  kept_by (written_keys d0) w (upsert REQUIRED_LABEL issue w).2.
Proof.
  intros Hw Htitle. unfold upsert.
  destruct (hasRequired REQUIRED_LABEL issue); cbn [negb]; cbv iota.
  2:{ apply kept_by_same. done. }
  pose proof (kept_by_untouched (written_keys d0) _ (untouched_prepare issue) w) as Hprep.
  destruct (prepare issue w) as [[[props existing]|e] w1] eqn:Hrun.
  2:{ by rewrite (bind_throw _ _ _ _ _ Hrun). }
  rewrite (bind_ok _ _ _ _ _ Hrun). simpl in *.
  destruct (prepare_ensures issue w props existing w1 Hw Hrun)
    as (_ & _ & t & now & -> & Ht).
  etrans; [exact Hprep|]. apply kept_by_commit.
  - unfold written_keys. apply elem_of_app. left. apply list_elem_of_In.
    simpl. tauto.
  - intros k Hk. apply props_within; [congruence|done].
Qed.

Lemma run_pages_kept f : ∀ w,
  coherent w → title_of (db (notion w)) = title_of d0 →
  kept_by (written_keys d0) w (run REQUIRED_LABEL f w).2.
Proof.
  induction f as [issue rest IH| |e]; intros w Hw Htitle; simpl; [|done..].
  destruct (evolves_visit REQUIRED_LABEL issue w Hw) as [Hw1 Hgrows].
  apply title_of_grows in Hgrows. rewrite Htitle in Hgrows.
  etrans; [|by apply IH].
  unfold kept_by. rewrite visit_settled, notion_settled.
  by apply (upsert_pages_kept issue (with_summary (incr_processed (summary w)) w)).
Qed.

End Preserved.

(** X11.  A run never loses anything on the pages of the destination:
    when it ends, the pages it found are all there, in their order and
    under their ids, followed by the pages it created; each of them has the
    blocks it had, followed by the comments appended, and every property
    other than those the script writes (the title property of the
    database, Linear Issue ID, Linear URL, Status, Priority, Due Date,
    Module, Sub-Area, Type, Cycle, Last Sync, Description and Title) has
    the value it had. *)
Theorem pages_preserved (REQUIRED_LABEL : string) (replies : list linear_reply)
    (n : notion_t) (sc : list (Z * string)) (t0 : N) :
  pages_kept (written_keys (db n)) n (notion (main REQUIRED_LABEL replies n sc t0).2).
Proof.
  by apply (run_pages_kept REQUIRED_LABEL (db n) (fetchUpdatedIssuesSince replies)
              (boot n sc t0)).
Qed.

(** ** The pages created and the counter of created records *)

Section Count.

Variable REQUIRED_LABEL : string.

#[global] Instance count_kept_preorder : PreOrder count_kept.
Proof.
  split; [by intros w|]. intros w1 w2 w3. unfold count_kept. congruence.
Qed.

Lemma serve_count req n :
  (∀ props, req ≠ PostPage props) →
  List.length (pages (serve req n).2) = List.length (pages n).
Proof.
  intros Hreq. destruct req as [|name ty opts|ident|props|pid props|pid blocks]; simpl;
    try done.
  - by destruct (lookup_property _ _).
  - by destruct (Hreq props).
  - destruct (find_page _ _); [|done]. simpl. apply length_fmap.
  - destruct (find_page _ _); [|done]. simpl. apply length_fmap.
Qed.

Lemma count_kept_fetch req :
  (∀ props, req ≠ PostPage props) → keeps count_kept (fetch req).
Proof.
  intros Hreq w. unfold count_kept. simpl.
  destruct (answer_cases req (script w) (notion w))
    as [-> | (st & t & later & _ & _ & ->)]; [by apply serve_count|done].
Qed.

Lemma count_kept_sleep ms : keeps count_kept (sleep ms).
Proof. by intros w. Qed.

Lemma count_kept_doFetch fuel req :
  (∀ props, req ≠ PostPage props) → keeps count_kept (doFetch fuel req).
Proof.
  intros Hreq. induction fuel as [|fuel IH]; cbn [doFetch];
    keeps_steps ltac:(first [ by apply count_kept_fetch | apply count_kept_sleep
                            | apply IH ]).
Qed.

Lemma count_kept_notionWrite req :
  (∀ props, req ≠ PostPage props) → keeps count_kept (notionWrite req).
Proof.
  intros Hreq. unfold notionWrite. keeps_steps ltac:(by apply count_kept_doFetch).
Qed.

Lemma commit_action issue props existing w res :
  (commit issue props existing w).1 = Ok res →
  action res = match existing with Some _ => Updated | None => Created end.
Proof.
  destruct (commit issue props existing w) as [r w'] eqn:Hrun. simpl. intros ->.
  unfold commit in Hrun. apply bind_inv in Hrun as (written & w1 & Hwritten & Hrun).
  destruct (commit_tail issue written) as [_ Htail].
  rewrite (Htail w1 res) by (by rewrite Hrun). simpl.
  destruct existing as [p|]; apply bind_inv in Hwritten as (j & w2 & _ & Hret);
    by injection Hret as <- _.
Qed.

(** The pages after the writes of [commit]: one more when the create call
    succeeded, as many otherwise. *)
Lemma commit_count issue props existing w :
  let out := commit issue props existing w in
  let before := List.length (pages (notion w)) in
  let after := List.length (pages (notion out.2)) in
  match existing with
  | Some _ => after = before
  | None => (after = before ∧ ∃ e, out.1 = Throw e) ∨ after = S before
  end.
Proof.
  intros out before after. unfold after, before, out. clear after before out.
  destruct existing as [p|].
  - assert (keeps count_kept (commit issue props (Some p))) as Hkeep.
    { unfold commit, appendSyncComment, nowISO.
      keeps_steps ltac:(by apply count_kept_notionWrite). }
    apply Hkeep.
  - unfold commit.
    destruct (notionWrite_cases (PostPage props) w) as (_ & _ & _ & Hcases).
    destruct (notionWrite (PostPage props) w) as [[j|e] w1] eqn:Hpost; simpl in Hcases.
    + destruct Hcases as [[[e He] _]|(_ & _ & Hn)]; [done|]. right.
      assert ((notionWrite (PostPage props)
                 ≫= λ result, mret (json_id result, Created)) w
              = (Ok (json_id j, Created), w1)) as Hwritten
        by (by rewrite (bind_ok _ _ _ _ _ Hpost)).
      rewrite (bind_ok _ _ _ _ _ Hwritten).
      match goal with
      | |- context [(?m ≫= ?k) w1] =>
          assert (keeps count_kept (m ≫= k)) as Hkeep
      end.
      { unfold appendSyncComment, nowISO.
        keeps_steps ltac:(by apply count_kept_notionWrite). }
      rewrite (Hkeep w1), Hn. simpl. rewrite length_app. simpl. lia.
    + destruct Hcases as [[_ Hn]|(? & _)]; [|done]. left.
      assert ((notionWrite (PostPage props)
                 ≫= λ result, mret (json_id result, Created)) w
              = (Throw e, w1)) as Hwritten
        by (by rewrite (bind_throw _ _ _ _ _ Hpost)).
      rewrite (bind_throw _ _ _ _ _ Hwritten). simpl. rewrite Hn.
      split; [done|by eexists].
Qed.

Lemma visit_count issue w :
  let w' := (visit REQUIRED_LABEL issue w).2 in
  let size := λ w : world, List.length (pages (notion w)) in
  size w + created (summary w') ≤ size w' + created (summary w)
  ∧ size w' + created (summary w) + errors (summary w)
    ≤ size w + created (summary w') + errors (summary w').
Proof.
  intros w' size. unfold w', size. clear w' size. rewrite visit_settled.
  set (w0 := with_summary (incr_processed (summary w)) w).
  destruct (hasRequired REQUIRED_LABEL issue) eqn:Hgate.
  2:{ rewrite (upsert_unlabelled _ _ _ Hgate). simpl. lia. }
  destruct (upsert_spec REQUIRED_LABEL issue w0 Hgate) as (Hsum & _).
  revert Hsum. unfold upsert. rewrite Hgate. cbn [negb]. cbv iota.
  destruct (untouched_prepare issue w0) as (Hp & _ & _).
  destruct (prepare issue w0) as [[[props existing]|e] w1] eqn:Hrun.
  - rewrite (bind_ok _ _ _ _ _ Hrun). simpl in Hp. cbn [fst snd].
    pose proof (commit_count issue props existing w1) as Hcount.
    pose proof (commit_action issue props existing w1) as Hact.
    unfold settled, paused.
    destruct (commit issue props existing w1) as [[res|e] w2]; simpl in *;
      intros Hsum; rewrite Hp in Hcount.
    + rewrite (Hact res eq_refl).
      destruct existing as [p|]; simpl; rewrite Hsum; simpl.
      * lia.
      * destruct Hcount as [[_ [e He]]|Hcount]; [done|]. lia.
    + rewrite Hsum. simpl. destruct existing as [p|]; [lia|].
      destruct Hcount as [[Hcount _]|Hcount]; lia.
  - rewrite (bind_throw _ _ _ _ _ Hrun). simpl in *. intros ->. simpl.
    rewrite Hp. lia.
Qed.

Lemma run_count f : ∀ w,
  let w' := (run REQUIRED_LABEL f w).2 in
  let size := λ w : world, List.length (pages (notion w)) in
  size w + created (summary w') ≤ size w' + created (summary w)
  ∧ size w' + created (summary w) + errors (summary w)
    ≤ size w + created (summary w') + errors (summary w').
Proof.
  induction f as [issue rest IH| |e]; intros w; simpl; [|lia..].
  pose proof (visit_count issue w) as Hvisit.
  specialize (IH (visit REQUIRED_LABEL issue w).2). simpl in *. lia.
Qed.

End Count.

(** X12.  The counter of created records never overstates what the run
    added to the destination, and it understates it by at most the number
    of errored records: a page added without being counted belongs to a
    record whose create call succeeded and whose later write failed, which
    the driver counts as an error. *)
Theorem created_bounds (REQUIRED_LABEL : string) (replies : list linear_reply)
    (n : notion_t) (sc : list (Z * string)) (t0 : N) :
  let out := main REQUIRED_LABEL replies n sc t0 in
  let added := List.length (pages (notion out.2)) - List.length (pages n) in
  List.length (pages n) ≤ List.length (pages (notion out.2))
  ∧ created (summary out.2) ≤ added
  ∧ added ≤ created (summary out.2) + errors (summary out.2).
Proof.
  intros out added. unfold added, out, main.
  pose proof (run_count REQUIRED_LABEL (fetchUpdatedIssuesSince replies) (boot n sc t0))
    as Hcount.
  simpl in Hcount. lia.
Qed.

(** ** A refused schema read *)

Section Refused.

Variables (w : world) (st : Z) (t : string) (later : list (Z * string)).
Hypothesis Hcache : dbSchemaCache w = None.
Hypothesis Hscript : script w = (st, t) :: later.
Hypothesis Hstatus : ok_status st = false.

Let failed : world :=
  {| dbSchemaCache := None; summary := summary w; notion := notion w;
     script := later; trace := trace w ++ [Fetch GetDatabase st]; clock := clock w |}.

Let message : string := "Get database failed " +:+ pretty st +:+ ": " +:+ t.

Lemma getDatabase_refused : getDatabase w = (Throw message, failed).
Proof.
  unfold getDatabase, mbind, M_bind, gets, fetch. rewrite Hcache, Hscript. simpl.
  rewrite Hstatus. unfold ok. simpl. rewrite Hstatus. simpl. by rewrite Hcache.
Qed.

Lemma ensureSelectOption_refused propertyName rawOption :
  ensureSelectOption propertyName rawOption w = (Ok (), w)
  ∨ ensureSelectOption propertyName rawOption w = (Throw message, failed).
Proof.
  destruct (normalizeOptionName rawOption) as [o|] eqn:Hnorm.
  - right. unfold ensureSelectOption. rewrite Hnorm. unfold truthy.
    rewrite (normalizeOptionName_truthy _ _ Hnorm). cbn [negb].
    by rewrite (bind_throw _ _ _ _ _ getDatabase_refused).
  - left. by apply ensureSelectOption_absent.
Qed.

Lemma prepare_refused issue : prepare issue w = (Throw message, failed).
Proof.
  assert (∀ key field,
            when field (λ v, ensureSelectOption key (VStr v)) w = (Ok (), w)
            ∨ when field (λ v, ensureSelectOption key (VStr v)) w
              = (Throw message, failed)) as Hstep.
  { intros key field. unfold when. destruct (truthy field); [|by left].
    apply ensureSelectOption_refused. }
  unfold prepare.
  do 6 (match goal with
        | |- (when ?field (λ v, ensureSelectOption ?key _) ≫= _) w = _ =>
            destruct (Hstep key field) as [Hok|Hbad];
            [rewrite (bind_ok _ _ _ _ _ Hok); cbv beta; clear Hok
            |by rewrite (bind_throw _ _ _ _ _ Hbad)]
        end).
  apply bind_throw. unfold getTitlePropertyName.
  by rewrite (bind_throw _ _ _ _ _ getDatabase_refused).
Qed.

End Refused.

(** X13.  A refused schema read is not retried.  When the schema is not
    cached and the service refuses the schema read, whatever the status (a
    429 included), the upsert of a record that carries the required label
    fails at once with the message of [getDatabase]: the read is made once,
    there is no pause, nothing is cached and nothing else is called, so
    the next record reads the schema again. *)
Theorem schema_read_not_retried (REQUIRED_LABEL : string) (issue : Issue) (w : world)
    (st : Z) (t : string) (later : list (Z * string)) :
  hasRequired REQUIRED_LABEL issue = true →
  dbSchemaCache w = None →
  script w = (st, t) :: later →
  ok_status st = false →
  upsert REQUIRED_LABEL issue w
  = (Throw ("Get database failed " +:+ pretty st +:+ ": " +:+ t),
     {| dbSchemaCache := None; summary := summary w; notion := notion w;
        script := later; trace := trace w ++ [Fetch GetDatabase st];
        clock := clock w |}).
Proof.
  intros Hgate Hcache Hscript Hstatus. unfold upsert. rewrite Hgate. cbn [negb]. cbv iota.
  by rewrite (bind_throw _ _ _ _ _ (prepare_refused w st t later Hcache Hscript Hstatus issue)).
Qed.

Lemma schema_read_not_retried_witness :
  upsert REQUIRED_LABEL_default bare_issue (boot small_notion [(429%Z, "slow down")] 0)
  = (Throw "Get database failed 429: slow down",
     {| dbSchemaCache := None; summary := summary0; notion := small_notion;
        script := []; trace := [Fetch GetDatabase 429%Z]; clock := 0%N |}).
Proof.
  apply (schema_read_not_retried REQUIRED_LABEL_default bare_issue
           (boot small_notion [(429%Z, "slow down")] 0) 429%Z "slow down" []);
    reflexivity.
Defined.

(** ** What a successful upsert leaves on the page *)

Section Written.

Lemma notionWrite_ok req w j w' :
  notionWrite req w = (Ok j, w') →
  ok (serve req (notion w)).1 = true
  ∧ notion w' = (serve req (notion w)).2
  ∧ j = body (serve req (notion w)).1.
Proof.
  intros Hrun. destruct (notionWrite_cases req w) as (_ & _ & _ & Hcases).
  rewrite Hrun in Hcases. simpl in Hcases.
  destruct Hcases as [[[e He] _]|(Hj & Hok & Hn)]; [done|].
  by injection Hj as ->.
Qed.

(** The last call of a write that returns is the one the service took. *)
Lemma notionWrite_ok_last req w j w' :
  notionWrite req w = (Ok j, w') → last (trace w') = Some (Fetch req 200%Z).
Proof.
  intros Hrun. destruct (script_split (script w)) as (texts & rest & Hsc & Hrest).
  rewrite (notionWrite_retries req w texts rest Hsc Hrest) in Hrun. simpl in Hrun.
  destruct (ok (answer req rest (notion w)).1) eqn:Hok; [|done].
  injection Hrun as _ <-. simpl. rewrite app_assoc, last_snoc. do 2 f_equal.
  destruct (answer_cases req rest (notion w)) as [Hans|(st & t & later & _ & Hst & Hans)];
    rewrite Hans in *.
  - destruct (serve_status req (notion w)) as [->|[Hs|Hs]]; [done|..];
      unfold ok in Hok; by rewrite Hs in Hok.
  - unfold ok in Hok. simpl in Hok. congruence.
Qed.

Lemma find_update_page i f ps :
  (∀ q, page_id (f q) = page_id q) →
  find_page (Some i) (update_page i f ps) = f <$> find_page (Some i) ps.
Proof.
  intros Hf. simpl. unfold update_page.
  induction ps as [|q ps IH]; simpl; [done|].
  destruct (bool_decide (page_id q = i)) eqn:Hq.
  - by rewrite Hf, Hq.
  - by rewrite Hq.
Qed.

Lemma find_page_id i ps p : find_page (Some i) ps = Some p → page_id p = i.
Proof. simpl. by intros [_ Hp%bool_decide_eq_true]%find_some. Qed.

Lemma page_at_patch i props n :
  ok (serve (PatchPage (Some i) props) n).1 = true →
  ∃ p, page_at i n = Some p
       ∧ page_at i (serve (PatchPage (Some i) props) n).2 = Some (patch_props props p).
Proof.
  unfold page_at. cbn [serve].
  destruct (find_page (Some i) (pages n)) as [p|] eqn:Hfind; [|done].
  intros _. exists p. split; [done|]. cbn [snd pages].
  rewrite (find_page_id _ _ _ Hfind), find_update_page by done. by rewrite Hfind.
Qed.

Lemma page_at_append i blocks n :
  ok (serve (PatchBlockChildren (Some i) blocks) n).1 = true →
  ∃ p, page_at i n = Some p
       ∧ page_at i (serve (PatchBlockChildren (Some i) blocks) n).2
         = Some (append_blocks blocks p).
Proof.
  unfold page_at. cbn [serve].
  destruct (find_page (Some i) (pages n)) as [p|] eqn:Hfind; [|done].
  intros _. exists p. split; [done|]. cbn [snd pages].
  rewrite (find_page_id _ _ _ Hfind), find_update_page by done. by rewrite Hfind.
Qed.

Lemma page_at_fresh n : wf_notion n → page_at (next_id n) n = None.
Proof.
  intros [_ Hbelow]. unfold page_at. simpl.
  destruct (List.find _ _) as [p|] eqn:Hfind; [|done].
  apply find_some in Hfind as [Hp Hid%bool_decide_eq_true].
  rewrite Forall_forall in Hbelow.
  assert ((page_id p, issue_id_of p) ∈ keys n) as Hkey.
  { apply list_elem_of_fmap. exists p. split; [done|by apply list_elem_of_In]. }
  specialize (Hbelow _ Hkey). simpl in Hbelow. lia.
Qed.

Lemma find_snoc {A} (f : A → bool) (l : list A) (x : A) :
  List.find f (l ++ [x])
  = match List.find f l with Some y => Some y | None => if f x then Some x else None end.
Proof.
  induction l as [|y l IH]; simpl; [done|]. by destruct (f y).
Qed.

Lemma page_at_post props n :
  wf_notion n →
  page_at (next_id n) (serve (PostPage props) n).2
  = Some {| page_id := next_id n; page_props := props; children := [] |}.
Proof.
  intros Hfresh%page_at_fresh. unfold page_at in *. simpl in *.
  rewrite find_snoc, Hfresh. simpl. by rewrite bool_decide_eq_true_2.
Qed.

(** The writes of [commit] after the first one, on a page that is there. *)
Lemma commit_tail_writes issue i cyc act w2 res w' base :
  page_at i (notion w2) = Some base →
  (appendSyncComment (Some i) issue cyc;;
   now ← nowISO;
   notionWrite (PatchPage (Some i) {[ "Last Sync" := PDate now (Some "Europe/Berlin") ]});;
   mret {| action := act; pageId := Some i |}) w2 = (Ok res, w') →
  res = {| action := act; pageId := Some i |}
  ∧ ∃ date new,
      page_at i (notion w')
      = Some (patch_props {[ "Last Sync" := PDate date (Some "Europe/Berlin") ]}
                (append_blocks new base))
      ∧ label <$> new = ["Last synced: "; "Linear State: "; "Priority: "; "Cycle: "]
      ∧ last (trace w')
        = Some (Fetch (PatchPage (Some i)
                         {[ "Last Sync" := PDate date (Some "Europe/Berlin") ]}) 200%Z).
Proof.
  intros Hbase Hrun.
  apply bind_inv in Hrun as ([] & w3 & Happend & Hrun).
  apply bind_inv in Hrun as (date & wl & Hdate & Hrun). injection Hdate as <- <-.
  apply bind_inv in Hrun as (j & w4 & Hpatch & Hrun). injection Hrun as <- <-.
  pose proof (notionWrite_ok_last _ _ _ _ Hpatch) as Hlast.
  split; [done|].
  unfold appendSyncComment in Happend.
  apply bind_inv in Happend as (now & wn & Hnow & Happend). injection Hnow as <- <-.
  apply bind_inv in Happend as (j' & w3' & Hblocks & Happend).
  injection Happend as <-.
  apply notionWrite_ok in Hblocks as (Hok & Hn3 & _).
  apply page_at_append in Hok as (p & Hp & Hp3). rewrite Hbase in Hp.
  injection Hp as <-. rewrite <- Hn3 in Hp3.
  apply notionWrite_ok in Hpatch as (Hok & Hn4 & _).
  apply page_at_patch in Hok as (p & Hp & Hp4). rewrite Hp3 in Hp.
  injection Hp as <-. rewrite <- Hn4 in Hp4.
  eexists _, _. split; [exact Hp4|]. split; [done|exact Hlast].
Qed.

End Written.

Section Page.

Variable REQUIRED_LABEL : string.

(** The page a successful upsert reports: its properties are those it
    had, overridden by the properties built for the record and then by the
    final [Last Sync]; its blocks are those it had followed by the four
    lines of the comment. *)
Lemma upsert_page issue w w' res :
  coherent w → wf_notion (notion w) →
  upsert REQUIRED_LABEL issue w = (Ok res, w') →
  action res ≠ Skipped →
  ∃ i p' t now date new,
    pageId res = Some i
    ∧ page_at i (notion w') = Some p'
    ∧ title_of (db (notion w)) = Some t
    ∧ page_props p'
      = {[ "Last Sync" := PDate date (Some "Europe/Berlin") ]}
        ∪ (copy_title (db (notion w')) issue (build_props t now issue)
           ∪ from_option page_props ∅ (page_at i (notion w)))
    ∧ children p' = (from_option children [] (page_at i (notion w)) ++ new)%list
    ∧ label <$> new = ["Last synced: "; "Linear State: "; "Priority: "; "Cycle: "]
    ∧ (action res = Created ↔ page_at i (notion w) = None)
    ∧ last (trace w')
      = Some (Fetch (PatchPage (Some i)
                       {[ "Last Sync" := PDate date (Some "Europe/Berlin") ]}) 200%Z).
Proof.
  intros Hw Hwf Hrun Hact.
  destruct (hasRequired REQUIRED_LABEL issue) eqn:Hgate.
  2:{ rewrite (upsert_unlabelled _ _ _ Hgate) in Hrun. by injection Hrun as <- _. }
  unfold upsert in Hrun. rewrite Hgate in Hrun. cbn [negb] in Hrun. cbv iota in Hrun.
  apply bind_inv in Hrun as ([props existing] & w1 & Hprep & Hcommit).
  simpl in Hcommit.
  destruct (prepare_ensures issue w props existing w1 Hw Hprep)
    as (_ & _ & t & now & Hprops & Ht).
  destruct (untouched_prepare issue w) as (Hpages & Hnext & _).
  rewrite Hprep in Hpages, Hnext. simpl in Hpages, Hnext.
  destruct (schema_kept_commit issue props existing w1) as [_ Hdb].
  rewrite Hcommit in Hdb. simpl in Hdb. rewrite <- Hdb in Hprops.
  assert (∀ i, page_at i (notion w1) = page_at i (notion w)) as Hat
    by (intros i; unfold page_at; by rewrite Hpages).
  assert (wf_notion (notion w1)) as Hwf1.
  { unfold wf_notion, keys in *. by rewrite Hpages, Hnext. }
  unfold commit in Hcommit.
  apply bind_inv in Hcommit as ([i0 act] & w2 & Hwritten & Htail).
  assert (∃ i base, i0 = Some i
            ∧ page_at i (notion w2) = Some base
            ∧ page_props base = props ∪ from_option page_props ∅ (page_at i (notion w))
            ∧ children base = from_option children [] (page_at i (notion w))
            ∧ (act = Created ↔ page_at i (notion w) = None))
    as (i & base & -> & Hbase & Hheld & Hchildren & Hcreated).
  { destruct existing as [p|].
    - apply bind_inv in Hwritten as (j & wx & Hwrite & Hret).
      injection Hret as <- <- <-.
      apply notionWrite_ok in Hwrite as (Hok & Hn2 & _).
      apply page_at_patch in Hok as (p0 & Hp0 & Hp2). rewrite <- Hn2 in Hp2.
      exists (page_id p), (patch_props props p0). split; [done|]. split; [done|].
      by rewrite <- Hat, Hp0.
    - apply bind_inv in Hwritten as (j & wx & Hwrite & Hret).
      injection Hret as <- <- <-.
      apply notionWrite_ok in Hwrite as (_ & Hn2 & ->).
      eexists (next_id (notion w1)), _. split; [done|].
      rewrite Hn2, (page_at_post props _ Hwf1), <- Hat, (page_at_fresh _ Hwf1).
      simpl. by rewrite (right_id_L ∅ (∪)). }
  simpl in Htail.
  destruct (commit_tail_writes _ _ _ _ _ _ _ _ Hbase Htail)
    as (-> & date & new & Hp' & Hnew & Hlast).
  eexists i, _, t, now, date, new. split; [done|]. split; [exact Hp'|].
  split; [done|]. simpl. rewrite Hheld, Hchildren, Hprops.
  repeat split; try done; apply Hcreated.
Qed.

End Page.

(** X14.  What a successful upsert leaves on the page it reports.  From a
    cache that agrees with the service and a destination whose page ids
    are unique and below the next id, when [upsert] returns "created" or
    "updated" for a record, the page under the returned id holds every
    property built for the record (title under the title property of the
    database, issue id, URL, the select values, due date, description);
    the last call made is the patch of that page that sets [Last Sync]
    alone, and the page holds the date this call sent; its blocks are
    those it had (none for a page just created) followed by the four lines
    of the sync comment.  The action is "created" exactly when no page
    was there under that id before. *)
Theorem upsert_writes (REQUIRED_LABEL : string) (issue : Issue) (w w' : world)
    (res : upsert_result) :
  coherent w → wf_notion (notion w) →
  upsert REQUIRED_LABEL issue w = (Ok res, w') →
  action res ≠ Skipped →
  ∃ i p' t now date new,
    pageId res = Some i
    ∧ page_at i (notion w') = Some p'
    ∧ title_of (db (notion w)) = Some t
    ∧ (∀ k v, k ≠ "Last Sync" →
         copy_title (db (notion w')) issue (build_props t now issue) !! k = Some v →
         page_props p' !! k = Some v)
    ∧ last (trace w')
      = Some (Fetch (PatchPage (Some i)
                       {[ "Last Sync" := PDate date (Some "Europe/Berlin") ]}) 200%Z)
    ∧ page_props p' !! "Last Sync" = Some (PDate date (Some "Europe/Berlin"))
    ∧ children p' = (from_option children [] (page_at i (notion w)) ++ new)%list
    ∧ label <$> new = ["Last synced: "; "Linear State: "; "Priority: "; "Cycle: "]
    ∧ (action res = Created ↔ page_at i (notion w) = None).
Proof.
  intros Hw Hwf Hrun Hact.
  destruct (upsert_page REQUIRED_LABEL issue w w' res Hw Hwf Hrun Hact)
    as (i & p' & t & now & date & new & Hid & Hp' & Ht & Hprops & Hch & Hnew & Hcr
        & Hlast).
  exists i, p', t, now, date, new. rewrite Hprops.
  split; [done|]. split; [done|]. split; [done|]. split; [|split; [done|split]].
  - intros k v Hk Hv. rewrite lookup_union_r by (by apply lookup_singleton_ne).
    by apply lookup_union_Some_l.
  - apply lookup_union_Some_l, lookup_singleton_eq.
  - done.
Qed.

Lemma upsert_writes_witness :
  ∃ i p' date,
    page_at i (notion (upsert REQUIRED_LABEL_default bare_issue
                         (boot small_notion [] 0)).2) = Some p'
    ∧ page_props p' !! "Linear Issue ID" = Some (PRichText [Text "ENG-1"])
    ∧ page_props p' !! "Last Sync" = Some (PDate date (Some "Europe/Berlin"))
    ∧ last (trace (upsert REQUIRED_LABEL_default bare_issue
                     (boot small_notion [] 0)).2)
      = Some (Fetch (PatchPage (Some i)
                       {[ "Last Sync" := PDate date (Some "Europe/Berlin") ]}) 200%Z)
    ∧ List.length (children p') = 4.
Proof.
  pose (out := upsert REQUIRED_LABEL_default bare_issue (boot small_notion [] 0)).
  pose (res := match out.1 with
               | Ok r => r
               | Throw _ => {| action := Skipped; pageId := None |}
               end).
  destruct (upsert_writes REQUIRED_LABEL_default bare_issue (boot small_notion [] 0)
              out.2 res)
    as (i & p' & t & now & date & new & _ & Hp & _ & Hprops & Hlast & Hsync & Hch
        & Hnew & Hcr).
  - intros d Hd. discriminate Hd.
  - split; constructor.
  - vm_compute. reflexivity.
  - vm_compute. discriminate.
  - exists i, p', date. split; [exact Hp|]. split; [|split; [exact Hsync|split]].
    + apply Hprops; [discriminate|]. apply props_issue_id.
    + exact Hlast.
    + rewrite Hch. destruct Hcr as [Hcr _]. rewrite Hcr by reflexivity. simpl.
      rewrite <- (length_fmap label), Hnew. reflexivity.
Defined.

(** ** A service that refuses nothing *)

Section Cooperative.

Variable REQUIRED_LABEL : string.
Variable t : string.

#[global] Instance script_kept_preorder : PreOrder script_kept.
Proof.
  split; [by intros w Hw|]. intros w1 w2 w3 H12 H23 Hw. by apply H23, H12.
Qed.

Lemma script_kept_fetch req : keeps script_kept (fetch req).
Proof. intros w Hw. simpl. by rewrite Hw. Qed.

Lemma script_kept_same {A} (m : M A) :
  (∀ w, script (m w).2 = script w) → keeps script_kept m.
Proof. intros Hm w Hw. by rewrite Hm. Qed.

Ltac script_kept_base :=
  first [ apply script_kept_fetch | by apply script_kept_same ].

Lemma script_kept_getDatabase : keeps script_kept getDatabase.
Proof. unfold getDatabase. keeps_steps ltac:(script_kept_base). Qed.

Lemma script_kept_ensureSelectOption propertyName rawOption :
  keeps script_kept (ensureSelectOption propertyName rawOption).
Proof.
  unfold ensureSelectOption.
  keeps_steps ltac:(first [apply script_kept_getDatabase | script_kept_base]).
Qed.

Lemma script_kept_doFetch fuel req : keeps script_kept (doFetch fuel req).
Proof.
  induction fuel as [|fuel IH]; cbn [doFetch];
    keeps_steps ltac:(first [script_kept_base | apply IH]).
Qed.

Lemma script_kept_notionWrite req : keeps script_kept (notionWrite req).
Proof. unfold notionWrite. keeps_steps ltac:(apply script_kept_doFetch). Qed.

Lemma script_kept_visit issue : keeps script_kept (visit REQUIRED_LABEL issue).
Proof.
  unfold visit, upsert, prepare, commit, appendSyncComment, getTitlePropertyName,
    findPageByIssueId, nowISO.
  keeps_steps ltac:(first [ apply script_kept_ensureSelectOption
                          | apply script_kept_getDatabase
                          | apply script_kept_notionWrite
                          | script_kept_base ]).
Qed.

Lemma cooperative_keeps {A} (m : M A) w :
  keeps evolves m → keeps script_kept m →
  cooperative t w → cooperative t (m w).2.
Proof.
  intros Hev Hsc (Hscript & Hw & Htitle).
  destruct (Hev w Hw) as [Hw' Hgrows]. split; [by apply Hsc|]. split; [done|].
  by rewrite (title_of_grows _ _ Hgrows).
Qed.

Lemma served_bind {A B} (m : M A) (k : A → M B) w :
  keeps evolves m → keeps script_kept m →
  cooperative t w → served m w →
  (∀ a w1, cooperative t w1 → served (k a) w1) →
  served (m ≫= k) w.
Proof.
  intros Hev Hsc Hw [a Ha] Hk.
  pose proof (cooperative_keeps m w Hev Hsc Hw) as Hw1.
  destruct (m w) as [r w1] eqn:Hm. simpl in Ha, Hw1. subst r.
  unfold served. rewrite (bind_ok _ _ _ _ _ Hm). by apply Hk.
Qed.

Lemma getDatabase_served w :
  cooperative t w → ∃ w1, getDatabase w = (Ok (db (notion w)), w1) ∧ notion w1 = notion w.
Proof.
  intros (Hscript & Hw & _). destruct (dbSchemaCache w) as [c|] eqn:Hc.
  - exists w. rewrite (getDatabase_cached w c Hc). by rewrite (Hw c Hc).
  - destruct (getDatabase_cold w Hc) as [(st & tx & later & Hsc & _)| ->].
    + by rewrite Hscript in Hsc.
    + by eexists.
Qed.

Lemma ensureSelectOption_served propertyName rawOption w :
  cooperative t w → served (ensureSelectOption propertyName rawOption) w.
Proof.
  intros Hw. destruct (normalizeOptionName rawOption) as [o|] eqn:Hnorm.
  2:{ exists (). by rewrite (ensureSelectOption_absent _ _ _ Hnorm). }
  destruct (getDatabase_served w Hw) as (w1 & Hget & Hn).
  pose proof (cooperative_keeps getDatabase w evolves_getDatabase
                script_kept_getDatabase Hw) as Hw1.
  rewrite Hget in Hw1. simpl in Hw1. destruct Hw1 as (Hscript & Hcoh & Htitle).
  unfold served. rewrite (ensureSelectOption_unfold _ _ _ _ _ _ Hnorm Hget).
  rewrite <- Hn.
  destruct (lookup_property propertyName (db (notion w1))) as [prop|] eqn:Hprop;
    [|by exists ()].
  destruct (negb _ && negb _); [by exists ()|].
  destruct (option_exists _ _); [by exists ()|].
  unfold mbind, M_bind, fetch, modify. rewrite Hscript. simpl. rewrite Hprop. simpl.
  by exists ().
Qed.

Lemma getTitlePropertyName_served w :
  cooperative t w → served getTitlePropertyName w.
Proof.
  intros Hw. destruct (getDatabase_served w Hw) as (w1 & Hget & Hn).
  destruct Hw as (_ & _ & Htitle). rewrite title_of_find in Htitle.
  unfold served, getTitlePropertyName. rewrite (bind_ok _ _ _ _ _ Hget).
  destruct (List.find _ _) as [e|]; [by eexists|done].
Qed.

Lemma findPageByIssueId_served ident w :
  cooperative t w → served (findPageByIssueId ident) w.
Proof.
  intros (Hscript & _). unfold served, findPageByIssueId, mbind, M_bind, fetch.
  rewrite Hscript. simpl. by eexists.
Qed.

Lemma prepare_served issue w : cooperative t w → served (prepare issue) w.
Proof.
  intros Hw. unfold prepare.
  do 6 (apply served_bind;
        [ apply evolves_when; intros ?; apply evolves_ensureSelectOption
        | apply keeps_when; [apply _|intros ?; apply script_kept_ensureSelectOption]
        | done
        | unfold when; destruct (truthy _);
            [by apply ensureSelectOption_served|by exists ()]
        | clear w Hw; intros [] w Hw ]).
  apply served_bind; [..|clear w Hw; intros titlePropName w Hw].
  { unfold getTitlePropertyName. keeps_steps ltac:(apply evolves_getDatabase). }
  { unfold getTitlePropertyName. keeps_steps ltac:(apply script_kept_getDatabase). }
  { done. }
  { by apply getTitlePropertyName_served. }
  unfold nowISO, gets. unfold mbind at 1, M_bind at 1. cbv beta iota.
  apply served_bind; [apply evolves_getDatabase|apply script_kept_getDatabase|done|..].
  { destruct (getDatabase_served w Hw) as (w1 & Hget & _). unfold served.
    rewrite Hget. by eexists. }
  intros d w' Hw'.
  destruct (findPageByIssueId_served (identifier issue) w' Hw') as [found Hfound].
  destruct (findPageByIssueId (identifier issue) w') as [r w1] eqn:Hrun.
  simpl in Hfound. subst r. unfold served. rewrite (bind_ok _ _ _ _ _ Hrun).
  by eexists.
Qed.

Lemma upsert_served issue w :
  cooperative t w → served (upsert REQUIRED_LABEL issue) w.
Proof.
  intros Hw. unfold served, upsert.
  destruct (hasRequired REQUIRED_LABEL issue); cbn [negb]; cbv iota; [|by eexists].
  destruct (prepare_served issue w Hw) as [[props existing] Hprep].
  pose proof (cooperative_keeps (prepare issue) w (evolves_prepare issue)) as Hw1.
  destruct (prepare issue w) as [r w1] eqn:Hrun. simpl in Hprep. subst r.
  rewrite (bind_ok _ _ _ _ _ Hrun). cbn [fst snd].
  destruct Hw1 as (Hscript & _); [|done|].
  { unfold prepare, getTitlePropertyName, findPageByIssueId, nowISO.
    keeps_steps ltac:(first [ apply script_kept_ensureSelectOption
                            | apply script_kept_getDatabase
                            | script_kept_base ]). }
  simpl in Hscript.
  destruct (commit_accepted issue props existing w1 [] [] Hscript) as ([i ->] & _).
  - by apply Forall_nil.
  - intros p ->. destruct (prepare_ok _ _ _ _ _ Hrun) as [Hhead _].
    symmetry in Hhead. apply head_filter_Some in Hhead as [Hp _].
    rewrite ids_keys. apply list_elem_of_fmap. by exists p.
  - by eexists.
Qed.

Lemma visit_served issue w :
  cooperative t w →
  cooperative t (visit REQUIRED_LABEL issue w).2
  ∧ errors (summary (visit REQUIRED_LABEL issue w).2) = errors (summary w).
Proof.
  intros Hw. split.
  { apply cooperative_keeps; [apply evolves_visit|apply script_kept_visit|done]. }
  rewrite visit_settled. set (w0 := with_summary (incr_processed (summary w)) w).
  destruct (upsert_served issue w0 Hw) as [res Hres].
  destruct (upsert_summary REQUIRED_LABEL issue w0) as [(_ & _ & Hsum)|(_ & Hsum & _)];
    unfold settled, paused; rewrite Hres; simpl; destruct (action res); simpl;
    by rewrite ?Hsum.
Qed.

Lemma run_served f : ∀ w,
  cooperative t w →
  errors (summary (run REQUIRED_LABEL f w).2) = errors (summary w).
Proof.
  induction f as [issue rest IH| |e]; intros w Hw; simpl; [|done..].
  destruct (visit_served issue w Hw) as [Hw1 Herr]. by rewrite IH.
Qed.

End Cooperative.

(** X15.  The script raises no error of its own.  When the destination
    refuses no call (every reply is the service's own), the database has a
    title property and the page ids are unique and below the next id, a
    run counts no record as an error, and when it ends every record of the
    feed that carries the required label has its page. *)
Theorem run_succeeds (REQUIRED_LABEL : string) (replies : list linear_reply)
    (n : notion_t) (t0 : N) :
  wf_notion n →
  is_Some (title_of (db n)) →
  let out := main REQUIRED_LABEL replies n [] t0 in
  errors (summary out.2) = 0
  ∧ ∀ issue, issue ∈ yielded (fetchUpdatedIssuesSince replies) →
             hasRequired REQUIRED_LABEL issue = true →
             has_page (identifier issue) (notion out.2) = true.
Proof.
  intros Hwf [t Ht] out.
  assert (errors (summary out.2) = 0) as Herr.
  { apply (run_served REQUIRED_LABEL t (fetchUpdatedIssuesSince replies) (boot n [] t0)).
    split; [done|]. split; [by intros d|done]. }
  split; [done|]. intros issue Hin Hgate.
  by apply (run_covers REQUIRED_LABEL (fetchUpdatedIssuesSince replies) (boot n [] t0)).
Qed.

Lemma run_succeeds_witness :
  errors (summary (main REQUIRED_LABEL_default [first_reply] small_notion [] 0).2) = 0
  ∧ has_page "ENG-1"
      (notion (main REQUIRED_LABEL_default [first_reply] small_notion [] 0).2) = true.
Proof.
  destruct (run_succeeds REQUIRED_LABEL_default [first_reply] small_notion 0%N)
    as [Herr Hpage].
  - split; constructor.
  - vm_compute. eexists. reflexivity.
  - split; [exact Herr|]. apply (Hpage bare_issue).
    + vm_compute. left.
    + vm_compute. reflexivity.
Defined.

(** X16.  A field left out of the properties is left alone on the page:
    after a successful upsert, every property that is not among those
    built for the record (and is not [Last Sync]) has on the page the value
    it had before, and is absent when the page was just created.  So a
    value that disappears upstream (a due date removed, a label dropped)
    is not cleared in the destination. *)
Theorem omitted_fields_untouched (REQUIRED_LABEL : string) (issue : Issue)
    (w w' : world) (res : upsert_result) :
  coherent w → wf_notion (notion w) →
  upsert REQUIRED_LABEL issue w = (Ok res, w') →
  action res ≠ Skipped →
  ∃ i p' t now,
    pageId res = Some i
    ∧ page_at i (notion w') = Some p'
    ∧ title_of (db (notion w)) = Some t
    ∧ ∀ k, k ≠ "Last Sync" →
        copy_title (db (notion w')) issue (build_props t now issue) !! k = None →
        page_props p' !! k = from_option page_props ∅ (page_at i (notion w)) !! k.
Proof.
  intros Hw Hwf Hrun Hact.
  destruct (upsert_page REQUIRED_LABEL issue w w' res Hw Hwf Hrun Hact)
    as (i & p' & t & now & date & new & Hid & Hp' & Ht & Hprops & _).
  exists i, p', t, now. split; [done|]. split; [done|]. split; [done|].
  intros k Hk Hnone. rewrite Hprops.
  rewrite lookup_union_r by (by apply lookup_singleton_ne).
  by rewrite lookup_union_r.
Qed.

Lemma omitted_fields_untouched_witness :
  ∃ i p',
    page_at i (notion (upsert REQUIRED_LABEL_default bare_issue
                         (boot small_notion [] 0)).2) = Some p'
    ∧ page_props p' !! "Due Date" = None.
Proof.
  pose (out := upsert REQUIRED_LABEL_default bare_issue (boot small_notion [] 0)).
  pose (res := match out.1 with
               | Ok r => r
               | Throw _ => {| action := Skipped; pageId := None |}
               end).
  destruct (omitted_fields_untouched REQUIRED_LABEL_default bare_issue
              (boot small_notion [] 0) out.2 res)
    as (i & p' & t & now & Hid & Hp & Ht & Hprops).
  - intros d Hd. discriminate Hd.
  - split; constructor.
  - vm_compute. reflexivity.
  - vm_compute. discriminate.
  - exists i, p'. split; [exact Hp|]. rewrite Hprops.
    + assert (i = 1%N) as -> by (vm_compute in Hid; congruence). reflexivity.
    + discriminate.
    + assert (t = "Name") as -> by (vm_compute in Ht; congruence).
      vm_compute. reflexivity.
Defined.

(** ** How often the schema is read *)

Section Reads.

#[global] Instance budget_kept_preorder : PreOrder budget_kept.
Proof.
  split; [intros w; unfold budget_kept; lia|].
  intros w1 w2 w3. unfold budget_kept. lia.
Qed.

Lemma reads_app t1 t2 : reads (t1 ++ t2) = reads t1 + reads t2.
Proof. unfold reads. by rewrite List.filter_app, length_app. Qed.

Lemma failed_reads_app t1 t2 :
  failed_reads (t1 ++ t2) = failed_reads t1 + failed_reads t2.
Proof. unfold failed_reads. by rewrite List.filter_app, length_app. Qed.

Lemma accepted_mutations_app t1 t2 :
  accepted_mutations (t1 ++ t2) = accepted_mutations t1 + accepted_mutations t2.
Proof. unfold accepted_mutations. by rewrite List.filter_app, length_app. Qed.

Lemma read_budget_event w w' e :
  trace w' = (trace w ++ [e])%list →
  read_budget w'
  = (read_budget w
     + (if is_accepted_mutation e then 1 else 0)
     + (if is_failed_read e then 1 else 0)
     - (if is_read e then 1 else 0)
     + match dbSchemaCache w with Some _ => 0 | None => 1 end
     - match dbSchemaCache w' with Some _ => 0 | None => 1 end)%Z.
Proof.
  intros Htrace. unfold read_budget.
  rewrite Htrace, reads_app, failed_reads_app, accepted_mutations_app.
  unfold reads at 2, failed_reads at 2, accepted_mutations at 2. simpl.
  destruct (is_accepted_mutation e), (is_failed_read e), (is_read e); simpl; lia.
Qed.

Lemma budget_kept_same {A} (m : M A) :
  (∀ w, trace (m w).2 = trace w ∧ dbSchemaCache (m w).2 = dbSchemaCache w) →
  keeps budget_kept m.
Proof.
  intros Hm w. destruct (Hm w) as [Ht Hc]. unfold budget_kept, read_budget.
  rewrite Ht, Hc. lia.
Qed.

Lemma budget_kept_event {A} (m : M A) :
  (∀ w, ∃ e, trace (m w).2 = (trace w ++ [e])%list
             ∧ dbSchemaCache (m w).2 = dbSchemaCache w
             ∧ is_read e = false) →
  keeps budget_kept m.
Proof.
  intros Hm w. destruct (Hm w) as (e & Ht & Hc & He). unfold budget_kept.
  rewrite (read_budget_event w _ e Ht), Hc, He.
  assert (is_failed_read e = false) as -> by (by destruct e as [[] ?|]).
  destruct (is_accepted_mutation e), (dbSchemaCache w); lia.
Qed.

Lemma budget_kept_fetch req : req ≠ GetDatabase → keeps budget_kept (fetch req).
Proof.
  intros Hreq. apply budget_kept_event. intros w. eexists. split; [done|].
  split; [done|]. by destruct req.
Qed.

Lemma budget_kept_sleep ms : keeps budget_kept (sleep ms).
Proof.
  apply budget_kept_event. intros w. eexists. split; [done|]. by split.
Qed.

Lemma budget_kept_getDatabase : keeps budget_kept getDatabase.
Proof.
  intros w. unfold budget_kept. destruct (dbSchemaCache w) as [c|] eqn:Hc.
  - rewrite (getDatabase_cached w c Hc). simpl. lia.
  - destruct (getDatabase_cold w Hc) as [(st & t & later & _ & Hst & ->)| ->]; simpl.
    + match goal with
      | |- (_ ≤ read_budget ?w')%Z =>
          rewrite (read_budget_event w w' (Fetch GetDatabase st) eq_refl)
      end.
      simpl. rewrite Hc, Hst. simpl. lia.
    + match goal with
      | |- (_ ≤ read_budget ?w')%Z =>
          rewrite (read_budget_event w w' (Fetch GetDatabase 200%Z) eq_refl)
      end.
      simpl. rewrite Hc. simpl. lia.
Qed.

Lemma budget_kept_ensureSelectOption propertyName rawOption :
  keeps budget_kept (ensureSelectOption propertyName rawOption).
Proof.
  intros w. destruct (normalizeOptionName rawOption) as [o|] eqn:Hnorm.
  2:{ rewrite (ensureSelectOption_absent _ _ _ Hnorm). reflexivity. }
  pose proof (budget_kept_getDatabase w) as Hread.
  destruct (getDatabase w) as [[d|e] w1] eqn:Hget.
  2:{ unfold ensureSelectOption. rewrite Hnorm. unfold truthy.
      rewrite (normalizeOptionName_truthy _ _ Hnorm). cbn [negb].
      by rewrite (bind_throw _ _ _ _ _ Hget). }
  rewrite (ensureSelectOption_unfold _ _ _ _ _ _ Hnorm Hget).
  destruct (lookup_property propertyName d) as [prop|]; [|done].
  destruct (negb _ && negb _); [done|].
  destruct (option_exists _ _); [done|].
  etrans; [exact Hread|]. simpl. clear Hread Hget.
  unfold mbind at 1, M_bind at 1.
  set (req := PatchDatabase propertyName (type prop) (options prop ++ [o])).
  pose proof (read_budget_event w1 (fetch req w1).2 _ eq_refl) as Hpatch.
  destruct (fetch req w1) as [[r|e] w2] eqn:Hfetch; [|done].
  assert (status r = status (answer req (script w1) (notion w1)).1) as Hr
    by (by injection Hfetch as <- _).
  assert (dbSchemaCache w2 = dbSchemaCache w1) as Hc2
    by (by injection Hfetch as _ <-).
  simpl in Hpatch. rewrite Hc2, <- Hr in Hpatch. fold (ok r) in Hpatch.
  destruct (ok r) eqn:Hok; simpl.
  - assert (read_budget (with_cache None w2)
            = (read_budget w2 + match dbSchemaCache w2 with Some _ => 0 | None => 1 end - 1)%Z) as H3.
    { unfold read_budget. simpl. destruct (dbSchemaCache w2); lia. }
    unfold mbind, M_bind, modify. cbv beta iota.
    remember (with_cache None w2) as w3 eqn:Hw3.
    pose proof (budget_kept_getDatabase w3) as Hreread.
    unfold budget_kept in *.
    destruct (getDatabase w3) as [[d'|e'] w4]; simpl in *;
      rewrite Hc2 in H3; destruct (dbSchemaCache w1); lia.
  - unfold budget_kept. destruct (dbSchemaCache w1); lia.
Qed.

Lemma budget_kept_doFetch fuel req : on_pages req → keeps budget_kept (doFetch fuel req).
Proof.
  intros Hreq. induction fuel as [|fuel IH]; cbn [doFetch];
    keeps_steps ltac:(first [ apply budget_kept_fetch; by destruct req
                            | apply budget_kept_sleep | apply IH ]).
Qed.

Lemma budget_kept_notionWrite req : on_pages req → keeps budget_kept (notionWrite req).
Proof.
  intros Hreq. unfold notionWrite. keeps_steps ltac:(by apply budget_kept_doFetch).
Qed.

Lemma budget_kept_visit REQUIRED_LABEL issue :
  keeps budget_kept (visit REQUIRED_LABEL issue).
Proof.
  unfold visit, upsert, prepare, commit, appendSyncComment, getTitlePropertyName,
    findPageByIssueId, nowISO.
  keeps_steps ltac:(first [ apply budget_kept_ensureSelectOption
                          | apply budget_kept_getDatabase
                          | by apply budget_kept_notionWrite
                          | by apply budget_kept_fetch
                          | apply budget_kept_sleep
                          | by apply budget_kept_same ]).
Qed.

Lemma budget_kept_run REQUIRED_LABEL f : ∀ w,
  budget_kept w (run REQUIRED_LABEL f w).2.
Proof.
  induction f as [issue rest IH| |e]; intros w; simpl; [|reflexivity..].
  etrans; [apply (budget_kept_visit REQUIRED_LABEL issue w)|apply IH].
Qed.

End Reads.

(** X17.  The schema cache bounds the schema reads of a run: the schema is
    read at most once, plus once for every schema mutation the service
    accepted and once for every read it refused.  In particular a run in
    which no option is added and no read is refused reads the schema at
    most once, however many records it visits. *)
Theorem schema_reads_bounded (REQUIRED_LABEL : string) (replies : list linear_reply)
    (n : notion_t) (sc : list (Z * string)) (t0 : N) :
  let trace_end := trace (main REQUIRED_LABEL replies n sc t0).2 in
  reads trace_end ≤ 1 + accepted_mutations trace_end + failed_reads trace_end.
Proof.
  intros trace_end.
  pose proof (budget_kept_run REQUIRED_LABEL (fetchUpdatedIssuesSince replies)
                (boot n sc t0)) as Hkept.
  unfold budget_kept, read_budget in Hkept. simpl in Hkept.
  fold (main REQUIRED_LABEL replies n sc t0) in Hkept. fold trace_end in Hkept.
  change (accepted_mutations []) with 0 in Hkept.
  change (failed_reads []) with 0 in Hkept.
  change (reads []) with 0 in Hkept.
  destruct (dbSchemaCache _); lia.
Qed.

(** ** The calls of an upsert that finds everything in place *)

Section Steady.

Variable REQUIRED_LABEL : string.

Lemma ensureSelectOption_known key o w :
  dbSchemaCache w = Some (db (notion w)) →
  normalizeOptionName (VStr o) = Some o →
  option_known (notion w) key o →
  ensureSelectOption key (VStr o) w = (Ok (), w).
Proof.
  intros Hcache Hnorm Hknown.
  rewrite (ensureSelectOption_unfold _ _ _ _ _ _ Hnorm (getDatabase_cached w _ Hcache)).
  destruct (lookup_property key (db (notion w))) as [prop|] eqn:Hprop; [|done].
  destruct (negb _ && negb _) eqn:Hkind; [done|].
  apply categorical_test in Hkind. by rewrite (Hknown prop Hprop Hkind).
Qed.

Lemma when_known key field w :
  dbSchemaCache w = Some (db (notion w)) →
  (∀ o, field = Some o →
        normalizeOptionName (VStr o) = Some o ∧ option_known (notion w) key o) →
  when field (λ v, ensureSelectOption key (VStr v)) w = (Ok (), w).
Proof.
  intros Hcache Hfield. unfold when. destruct field as [o|]; simpl; [|done].
  destruct (nonempty o); [|done].
  destruct (Hfield o eq_refl) as [Hnorm Hknown]. by apply ensureSelectOption_known.
Qed.

Lemma head_take_1 {A} (l : list A) : head (take 1 l) = head l.
Proof. by destruct l. Qed.

Lemma prepare_steady issue w t :
  script w = [] →
  dbSchemaCache w = Some (db (notion w)) →
  title_of (db (notion w)) = Some t →
  (∀ key o, (key, Some o) ∈ select_fields issue → option_known (notion w) key o) →
  prepare issue w
  = (Ok (copy_title (db (notion w)) issue (build_props t (toISOString (clock w)) issue),
         head (List.filter (has_issue_id (identifier issue)) (pages (notion w)))),
     {| dbSchemaCache := dbSchemaCache w; summary := summary w; notion := notion w;
        script := []; trace := trace w ++ [Fetch (QueryDatabase (identifier issue)) 200%Z];
        clock := clock w |}).
Proof.
  intros Hscript Hcache Htitle Hknown.
  assert (∀ key field, (key, field) ∈ select_fields issue →
            (∃ v, field = normalizeOptionName v) →
            when field (λ v, ensureSelectOption key (VStr v)) w = (Ok (), w)) as Hstep.
  { intros key field Hin [v Hv]. apply when_known; [done|]. intros o ->.
    split; [by apply (normalizeOptionName_fixed v)|by apply Hknown]. }
  assert (getTitlePropertyName w = (Ok t, w)) as Hname.
  { unfold getTitlePropertyName.
    rewrite (bind_ok _ _ _ _ _ (getDatabase_cached w _ Hcache)).
    rewrite title_of_find in Htitle.
    destruct (List.find _ _) as [e|]; [|done]. by injection Htitle as <-. }
  unfold prepare.
  do 6 (match goal with
        | |- (when ?field (λ v, ensureSelectOption ?key _) ≫= _) w = _ =>
            rewrite (bind_ok _ _ _ _ _
                       (Hstep key field
                          ltac:(unfold select_fields; repeat constructor)
                          ltac:(by eexists)))
        end).
  rewrite (bind_ok _ _ _ _ _ Hname).
  rewrite (bind_ok nowISO _ w (toISOString (clock w)) w eq_refl).
  rewrite (bind_ok _ _ _ _ _ (getDatabase_cached w _ Hcache)).
  unfold findPageByIssueId, mbind, M_bind, fetch. rewrite Hscript. simpl.
  by rewrite head_take_1.
Qed.

Lemma notionWrite_calm req w :
  script w = [] →
  ok (serve req (notion w)).1 = true →
  notionWrite req w
  = (Ok (body (serve req (notion w)).1),
     {| dbSchemaCache := dbSchemaCache w; summary := summary w;
        notion := (serve req (notion w)).2; script := [];
        trace := trace w ++ [Fetch req 200%Z]; clock := clock w |}).
Proof.
  intros Hscript Hok.
  rewrite (notionWrite_retries req w [] [] Hscript) by (by intros e).
  simpl. rewrite Hok. f_equal. f_equal; [|lia].
  destruct (serve_status req (notion w)) as [->|[Hst|Hst]]; [done|..];
    unfold ok in Hok; by rewrite Hst in Hok.
Qed.

Lemma serve_present i n p :
  page_at i n = Some p →
  (∀ props, ok (serve (PatchPage (Some i) props) n).1 = true)
  ∧ (∀ blocks, ok (serve (PatchBlockChildren (Some i) blocks) n).1 = true).
Proof.
  unfold page_at. intros Hp. split; intros x; cbn [serve]; by rewrite Hp.
Qed.

(** The writes of [commit] after the first one, when nothing is refused
    and the page is there. *)
Lemma commit_tail_calm issue i cyc act w p :
  script w = [] →
  page_at i (notion w) = Some p →
  ∃ blocks w',
    (appendSyncComment (Some i) issue cyc;;
     now ← nowISO;
     notionWrite (PatchPage (Some i) {[ "Last Sync" := PDate now (Some "Europe/Berlin") ]});;
     mret {| action := act; pageId := Some i |}) w
    = (Ok {| action := act; pageId := Some i |}, w')
    ∧ trace w'
      = (trace w
         ++ [Fetch (PatchBlockChildren (Some i) blocks) 200%Z;
             Fetch (PatchPage (Some i)
                      {[ "Last Sync" := PDate (toISOString (clock w)) (Some "Europe/Berlin") ]})
               200%Z])%list
    ∧ clock w' = clock w.
Proof.
  intros Hscript Hp.
  destruct (serve_present i _ p Hp) as [_ Hblocks].
  assert (∃ blocks,
            appendSyncComment (Some i) issue cyc w
            = (Ok (),
               {| dbSchemaCache := dbSchemaCache w; summary := summary w;
                  notion := (serve (PatchBlockChildren (Some i) blocks) (notion w)).2;
                  script := [];
                  trace := trace w ++ [Fetch (PatchBlockChildren (Some i) blocks) 200%Z];
                  clock := clock w |})) as [blocks Happend].
  { unfold appendSyncComment.
    rewrite (bind_ok nowISO _ w (toISOString (clock w)) w eq_refl). cbv beta.
    eexists. by rewrite (bind_ok _ _ _ _ _ (notionWrite_calm _ w Hscript (Hblocks _))). }
  destruct (page_at_append i blocks (notion w) (Hblocks _)) as (p0 & _ & Hp1).
  match type of Happend with _ = (_, ?w1) => set (w1' := w1) in * end.
  destruct (serve_present i (notion w1') _ Hp1) as [Hpatch _].
  pose proof (notionWrite_calm
                (PatchPage (Some i)
                   {[ "Last Sync" := PDate (toISOString (clock w1')) (Some "Europe/Berlin") ]})
                w1' eq_refl (Hpatch _)) as Hlast.
  eexists blocks, _. split; [|split].
  - rewrite (bind_ok _ _ _ _ _ Happend).
    rewrite (bind_ok nowISO _ w1' (toISOString (clock w1')) w1' eq_refl).
    rewrite (bind_ok _ _ _ _ _ Hlast). reflexivity.
  - simpl. by rewrite <- app_assoc.
  - done.
Qed.

End Steady.

(** X18.  An upsert that finds everything in place costs four calls.  When
    the destination refuses nothing, the schema is cached and holds a
    title property and every select value of the record, [upsert] succeeds
    with exactly these calls, in this order and with no pause between
    them: the lookup by issue id; the write of the properties built for the
    record, which is the patch of the page the lookup found, or a create
    when it found none; the append of the comment to that page (the page
    created, in the second case); and the patch of its [Last Sync].  The
    result names that page, as updated or as created. *)
Theorem steady_upsert (REQUIRED_LABEL : string) (issue : Issue) (w : world) (t : string) :
  hasRequired REQUIRED_LABEL issue = true →
  script w = [] →
  wf_notion (notion w) →
  dbSchemaCache w = Some (db (notion w)) →
  title_of (db (notion w)) = Some t →
  (∀ key o, (key, Some o) ∈ select_fields issue → option_known (notion w) key o) →
  ∃ res w' now date blocks,
    let props := copy_title (db (notion w)) issue (build_props t now issue) in
    let found :=
      head (List.filter (has_issue_id (identifier issue)) (pages (notion w))) in
    let i := match found with Some p => page_id p | None => next_id (notion w) end in
    upsert REQUIRED_LABEL issue w = (Ok res, w')
    ∧ res = {| action := match found with Some _ => Updated | None => Created end;
               pageId := Some i |}
    ∧ trace w'
      = (trace w
         ++ [ Fetch (QueryDatabase (identifier issue)) 200%Z;
              Fetch match found with
                    | Some p => PatchPage (Some (page_id p)) props
                    | None => PostPage props
                    end 200%Z;
              Fetch (PatchBlockChildren (Some i) blocks) 200%Z;
              Fetch (PatchPage (Some i)
                       {[ "Last Sync" := PDate date (Some "Europe/Berlin") ]})
                200%Z ])%list.
Proof.
  intros Hgate Hscript Hwf Hcache Htitle Hknown.
  pose proof (prepare_steady issue w t Hscript Hcache Htitle Hknown) as Hprep.
  set (props := copy_title (db (notion w)) issue
                  (build_props t (toISOString (clock w)) issue)) in *.
  match type of Hprep with _ = (_, ?wq') => set (wq := wq') in * end.
  unfold upsert. rewrite Hgate. cbn [negb]. cbv iota.
  rewrite (bind_ok _ _ _ _ _ Hprep). cbn [fst snd]. unfold commit.
  destruct (head (List.filter (has_issue_id (identifier issue)) (pages (notion w))))
    as [p|] eqn:Hhead.
  - destruct (find_page_present (page_id p) (notion wq)) as (p0 & Hp0 & _).
    { apply head_filter_Some in Hhead as [Hp _]. rewrite ids_keys.
      apply list_elem_of_fmap. by exists p. }
    destruct (serve_present (page_id p) (notion wq) p0 Hp0) as [Hok _].
    pose proof (notionWrite_calm (PatchPage (Some (page_id p)) props) wq eq_refl
                  (Hok _)) as Hwrite.
    destruct (page_at_patch (page_id p) props (notion wq) (Hok _)) as (p1 & _ & Hp2).
    match type of Hwrite with _ = (_, ?w2') => set (w2 := w2') in * end.
    destruct (commit_tail_calm issue (page_id p)
                (cycleVal (mapExtras (labels_of issue) (or_undef (cycle_name issue) "")))
                Updated w2 _ eq_refl Hp2) as (blocks & w' & Htail & Htrace & _).
    eexists _, w', (toISOString (clock w)), (toISOString (clock w)), blocks.
    cbv zeta. fold props.
    rewrite (bind_ok _ _ wq (Some (page_id p), Updated) w2)
      by (by rewrite (bind_ok _ _ _ _ _ Hwrite)).
    cbn [fst snd]. rewrite Htail. split; [done|]. split; [done|].
    rewrite Htrace. simpl. by rewrite <- !app_assoc.
  - pose proof (notionWrite_calm (PostPage props) wq eq_refl eq_refl) as Hwrite.
    match type of Hwrite with _ = (_, ?w2') => set (w2 := w2') in * end.
    pose proof (page_at_post props (notion w) Hwf) as Hp2.
    destruct (commit_tail_calm issue (next_id (notion w))
                (cycleVal (mapExtras (labels_of issue) (or_undef (cycle_name issue) "")))
                Created w2 _ eq_refl Hp2) as (blocks & w' & Htail & Htrace & _).
    eexists _, w', (toISOString (clock w)), (toISOString (clock w)), blocks.
    cbv zeta. fold props.
    rewrite (bind_ok _ _ wq (Some (next_id (notion w)), Created) w2)
      by (by rewrite (bind_ok _ _ _ _ _ Hwrite)).
    cbn [fst snd]. rewrite Htail. split; [done|]. split; [done|].
    rewrite Htrace. simpl. by rewrite <- !app_assoc.
Qed.

Lemma steady_upsert_witness :
  ∃ w' props blocks date,
    upsert REQUIRED_LABEL_default typed_issue
      (getDatabase (boot synced_notion [] 0)).2
    = (Ok {| action := Updated; pageId := Some 1%N |}, w')
    ∧ props !! "Status" = Some (PSelect "todo")
    ∧ props !! "Type" = Some (PSelect "bug")
    ∧ trace w'
      = [ Fetch GetDatabase 200%Z;
          Fetch (QueryDatabase "ENG-3") 200%Z;
          Fetch (PatchPage (Some 1%N) props) 200%Z;
          Fetch (PatchBlockChildren (Some 1%N) blocks) 200%Z;
          Fetch (PatchPage (Some 1%N)
                   {[ "Last Sync" := PDate date (Some "Europe/Berlin") ]}) 200%Z ].
Proof.
  destruct (steady_upsert REQUIRED_LABEL_default typed_issue
              (getDatabase (boot synced_notion [] 0)).2 "Name")
    as (res & w' & now & date & blocks & Hrun & Hres & Htrace).
  - reflexivity.
  - reflexivity.
  - split; [apply NoDup_singleton|repeat constructor].
  - reflexivity.
  - reflexivity.
  - intros key o Hin. unfold select_fields in Hin.
    repeat (apply elem_of_cons in Hin as [Hin|Hin]); [..|by apply elem_of_nil in Hin];
      apply (inj2 pair) in Hin as [-> Hfield]; vm_compute in Hfield;
      try discriminate Hfield; injection Hfield as ->;
      intros prop Hprop Hcat; vm_compute in Hprop; try discriminate Hprop;
      injection Hprop as <-; reflexivity.
  - exists w', (copy_title (db synced_notion) typed_issue
                  (build_props "Name" now typed_issue)), blocks, date.
    split; [by rewrite Hrun, Hres|]. split; [reflexivity|]. split; [reflexivity|].
    exact Htrace.
Defined.
